(** * Serialisation.hpp: a shallow embedding of the Serialiser, the
      Deserialiser and the Sizer, and the properties of the dispatch core.

    The C++ templates are resolved per type at build time.  The embedding
    follows that: [Ty] describes the C++ type of a value, [Val t] is the Rocq
    type of its values, and the three operators ([operator<<], [operator>>],
    [operator+]) are defined by recursion on [Ty], each container overload
    being a function that is polymorphic in the element type and takes the
    per-element functor as an argument, as in the source. *)

From Stdlib Require Import String Strings.Byte.
From Stdlib Require Import List NArith ZArith Lia Bool Permutation.
Import ListNotations.

Set Implicit Arguments.

(** ** Bytes and native integer representations *)

Definition byte := Byte.byte.

Definition byte_of_N (n : N) : byte :=
  match Byte.of_N (n mod 256) with
  | Some b => b
  | None => Byte.x00
  end.

(** Object representation of a [w]-byte unsigned integer (least significant
    byte first, the representation of the MSVC targets of the source). *)
Fixpoint le_bytes (w : nat) (n : N) : list byte :=
  match w with
  | O => []
  | S w' => byte_of_N n :: le_bytes w' (n / 256)
  end.

Fixpoint le_value (l : list byte) : N :=
  match l with
  | [] => 0
  | b :: l' => Byte.to_N b + 256 * le_value l'
  end%N.

(** ** Caller-owned memory *)

(** The buffers are owned by the caller and never bounds-checked: memory is
    a flat, total byte store. *)
Definition Memory := N -> byte.

(** [memcpy( dst, src, |src| )] with [src] the source region. *)
Fixpoint memcpy_to (m : Memory) (dst : N) (src : list byte) : Memory :=
  match src with
  | [] => m
  | b :: src' =>
      memcpy_to (fun a => if N.eqb a dst then b else m a) (N.succ dst) src'
  end.

(** The [n] bytes that [memcpy( o_Data, src, n )] copies out of memory. *)
Fixpoint memcpy_from (m : Memory) (src : N) (n : nat) : list byte :=
  match n with
  | O => []
  | S n' => m src :: memcpy_from m (N.succ src) n'
  end.

(** The [size] bytes of the object representation of an object whose bytes
    are [raw] ([&a_Object], [sizeof( a_Object )]). *)
Definition object_representation (size : nat) (raw : list byte) : list byte :=
  firstn size raw ++ repeat Byte.x00 (size - length raw).

(** ** Operation contexts *)

(** The seven optional member functions the capability detector looks for. *)
Inductive Hook :=
| OnBeforeSerialise | OnSerialise | OnAfterSerialise
| OnSize
| OnBeforeDeserialise | OnDeserialise | OnAfterDeserialise.

(** Ghost trace: which hooks of which class ran, and every raw-memory step
    with its byte count. *)
Inductive Event :=
| EvHook (cls : string) (h : Hook)
| EvAsMemory (a_Size : N).

(** How control leaves a call: by returning, or by an exception thrown by a
    caller-supplied element functor. *)
Inductive Outcome := Normal | Thrown.

(** A context together with the memory it points into and the ghost trace. *)
Record St (C : Type) := mkSt { ctx : C; mem : Memory; log : list Event }.

(** [Serialiser] and [Deserialiser] both hold the start of the stream and the
    current head. *)
Record Stream := mkStream { m_Data : N; m_Head : N }.
Definition Serialiser := Stream.
Definition Deserialiser := Stream.

(** [Sizer] holds the tally only. *)
Record Sizer := mkSizer { m_Size : N }.

(** A per-element functor: it is handed the context and the element by
    reference, so it returns both, and how it left. *)
Definition Functor (C V : Type) := St C -> V -> St C * V * Outcome.

Section Loops.
Context {C V : Type}.
Variable a_Functor : Functor C V.

(** [for ( auto& Object : a_Container ) a_Functor( *this, Object );] *)
Fixpoint for_each (s : St C) (l : list V) : St C * list V * Outcome :=
  match l with
  | [] => (s, [], Normal)
  | x :: xs =>
      match a_Functor s x with
      | (s1, x', Normal) =>
          let '(s2, xs', o) := for_each s1 xs in (s2, x' :: xs', o)
      | (s1, x', Thrown) => (s1, x' :: xs, Thrown)
      end
  end.

Fixpoint assign (l : list V) (i : nat) (x : V) : list V :=
  match l, i with
  | [], _ => []
  | _ :: l', O => x :: l'
  | y :: l', S i' => y :: assign l' i' x
  end.

(** [for ( size_t i = i0; i < i0 + n; ++i ) a_Functor( *this, o_Container[ i ] );]
    The source only indexes below the length of the container; the loop
    stops should the index leave it. *)
Fixpoint for_index (n i : nat) (s : St C) (l : list V)
  : St C * list V * Outcome :=
  match n with
  | O => (s, l, Normal)
  | S n' =>
      match nth_error l i with
      | None => (s, l, Normal)
      | Some x =>
          match a_Functor s x with
          | (s1, x', Normal) => for_index n' (S i) s1 (assign l i x')
          | (s1, x', Thrown) => (s1, assign l i x', Thrown)
          end
      end
  end.
End Loops.

(** [( ( *this << std::get< 0 >( a_Object ) ), ( *this << std::get< 1 >( a_Object ) ) )]:
    the fold expression of the three [...Variadic] helpers at two slots, and
    one step of it at any arity. *)
Definition for_both {C A B : Type} (on_first : Functor C A)
    (on_rest : Functor C B) : Functor C (A * B) :=
  fun s a_Object =>
    match on_first s (fst a_Object) with
    | (s1, a, Normal) =>
        let '(s2, b, o) := on_rest s1 (snd a_Object) in (s2, (a, b), o)
    | (s1, a, Thrown) => (s1, (a, snd a_Object), Thrown)
    end.

(** [Container.resize( n )] with [d] the value-initialised element. *)
Definition resize {V : Type} (n : nat) (d : V) (l : list V) : list V :=
  firstn n l ++ repeat d (n - length l).

(** ** Types and values *)

(** [HasOn...< T >::Value] for the seven hooks: the capability detector
    (it needs [Utils/FunctionTraits.hpp], which is not part of the file) is
    taken as given, one boolean per hook. *)
Record Hooks := mkHooks {
  HasOnBeforeSerialise : bool;
  HasOnSerialise : bool;
  HasOnAfterSerialise : bool;
  HasOnSize : bool;
  HasOnBeforeDeserialise : bool;
  HasOnDeserialise : bool;
  HasOnAfterDeserialise : bool
}.

Definition no_hooks : Hooks :=
  mkHooks false false false false false false false.

Inductive FixedKind := c_array | std_array.

(** [std_queue] and [std_stack] sit on their default [std::deque],
    [std_priority_queue] on its default [std::vector]. *)
Inductive SeqKind :=
| std_vector | std_list | std_forward_list | std_deque
| std_queue | std_priority_queue | std_stack.

Inductive MapKind :=
| std_map | std_multimap | std_unordered_map | std_unordered_multimap.

Inductive SetKind :=
| std_set | std_multiset | std_unordered_set | std_unordered_multiset.

Inductive Ty :=
| TLeaf (size : nat)
    (* neither a container nor hooked: [sizeof( T ) = size] *)
| TObject (cls : string) (h : Hooks) (size : nat) (members : TyList)
    (* a class with some of the seven hooks *)
| TPair (a b : Ty)
| TTuple (ts : TyList)
| TString (char_size : nat)
| TFixed (k : FixedKind) (N : nat) (t : Ty)
| TSeq (k : SeqKind) (t : Ty)
| TMap (k : MapKind) (key value : Ty)
| TSet (k : SetKind) (t : Ty)
with TyList :=
| TNil
| TCons (t : Ty) (ts : TyList).

Scheme Ty_mut := Induction for Ty Sort Prop
  with TyList_mut := Induction for TyList Sort Prop.
Combined Scheme Ty_TyList_ind from Ty_mut, TyList_mut.

(** Values.  A leaf is its object representation.  An object is its object
    representation (what the raw copy sees) and its members (what the hooks
    stream); the layout of the members inside the representation is not
    modelled.  A string is its character codes.  Every other container is the
    list of its elements in iteration order. *)
Fixpoint Val (t : Ty) : Type :=
  match t with
  | TLeaf _ => list byte
  | TObject _ _ _ ms => (list byte * Vals ms)%type
  | TPair a b => (Val a * Val b)%type
  | TTuple ts => Vals ts
  | TString _ => list N
  | TFixed _ _ t => list (Val t)
  | TSeq _ t => list (Val t)
  | TMap _ k v => list (Val k * Val v)
  | TSet _ t => list (Val t)
  end
with Vals (ts : TyList) : Type :=
  match ts with
  | TNil => unit
  | TCons t ts' => (Val t * Vals ts')%type
  end.

(** A freshly constructed value: zeroed leaves, empty containers. *)
Fixpoint default_value (t : Ty) : Val t :=
  match t with
  | TLeaf n => repeat Byte.x00 n
  | TObject _ _ n ms => (repeat Byte.x00 n, default_values ms)
  | TPair a b => (default_value a, default_value b)
  | TTuple ts => default_values ts
  | TString _ => []
  | TFixed _ n t => repeat (default_value t) n
  | TSeq _ _ => []
  | TMap _ _ _ => []
  | TSet _ _ => []
  end
with default_values (ts : TyList) : Vals ts :=
  match ts with
  | TNil => tt
  | TCons t ts' => (default_value t, default_values ts')
  end.

(** ** The library containers the overloads rely on *)

Section Associative.
Context {E K : Type}.
Variable key : E -> K.
Variable less : K -> K -> bool.       (* Compare *)
Variable equal_to : K -> K -> bool.   (* KeyEqual *)

Definition equivalent (a b : K) : bool :=
  negb (less a b) && negb (less b a).

(** Insertion at the upper bound of the key. *)
Fixpoint insert_ordered (e : E) (c : list E) : list E :=
  match c with
  | [] => [e]
  | x :: c' =>
      if less (key e) (key x) then e :: c else x :: insert_ordered e c'
  end.

(** [emplace] of [std::map] and [std::set]. *)
Definition emplace_ordered_unique (e : E) (c : list E) : list E :=
  if existsb (fun x => equivalent (key x) (key e)) c then c
  else insert_ordered e c.

(** [emplace] of [std::multimap] and [std::multiset]. *)
Definition emplace_ordered_multi (e : E) (c : list E) : list E :=
  insert_ordered e c.

(** [emplace] of [std::unordered_map] and [std::unordered_set]; the
    iteration order of a hash container is unspecified, the model keeps
    the order of insertion. *)
Definition emplace_unordered_unique (e : E) (c : list E) : list E :=
  if existsb (fun x => equal_to (key x) (key e)) c then c else c ++ [e].

(** [emplace] of [std::unordered_multimap] and [std::unordered_multiset]. *)
Definition emplace_unordered_multi (e : E) (c : list E) : list E :=
  c ++ [e].
End Associative.

(** ** The three contexts *)

Definition log_event {C : Type} (e : Event) (s : St C) : St C :=
  mkSt (ctx s) (mem s) (log s ++ [e]).

Definition run_hook {C : Type} (cls : string) (h : Hook) (s : St C) : St C :=
  log_event (EvHook cls h) s.

(** [Serialiser::SerialiseAsMemory]; [a_Data] is the region of [a_Size]
    bytes that the pointer designates. *)
Definition SerialiseAsMemory (a_Data : list byte) (s : St Serialiser)
  : St Serialiser :=
  let a_Size := N.of_nat (length a_Data) in
  mkSt (mkStream (m_Data (ctx s)) (m_Head (ctx s) + a_Size))
       (memcpy_to (mem s) (m_Head (ctx s)) a_Data)
       (log s ++ [EvAsMemory a_Size]).

(** [Deserialiser::DeserialiseAsMemory]; the bytes copied to [o_Data] are
    returned. *)
Definition DeserialiseAsMemory (a_Size : nat) (d : St Deserialiser)
  : St Deserialiser * list byte :=
  (mkSt (mkStream (m_Data (ctx d)) (m_Head (ctx d) + N.of_nat a_Size))
        (mem d)
        (log d ++ [EvAsMemory (N.of_nat a_Size)]),
   memcpy_from (mem d) (m_Head (ctx d)) a_Size).

(** ** Sample types, values and functors *)

(** [std::uint32_t] and [std::uint8_t], with the object representation of
    their values. *)
Definition uint32 : Ty := TLeaf 4.
Definition u32 (n : N) : Val uint32 := le_bytes 4 n.
Definition uint8 : Ty := TLeaf 1.
Definition u8 (n : N) : Val uint8 := le_bytes 1 n.

(** [std::less] and [std::equal_to] on unsigned integers; the other types
    are not used as keys below. *)
Definition less_unsigned (t : Ty) : Val t -> Val t -> bool :=
  match t return Val t -> Val t -> bool with
  | TLeaf _ => fun a b => N.ltb (le_value a) (le_value b)
  | _ => fun _ _ => false
  end.

Definition equal_unsigned (t : Ty) : Val t -> Val t -> bool :=
  match t return Val t -> Val t -> bool with
  | TLeaf _ => fun a b => N.eqb (le_value a) (le_value b)
  | _ => fun _ _ => false
  end.

Definition zeroed : Memory := fun _ => Byte.x00.

(** The structure of the test scenario of the specification: a text, an
    integer and a sequence, with all seven hooks. *)
Definition all_hooks : Hooks := mkHooks true true true true true true true.

Definition Scenario : Ty :=
  TObject "Scenario" all_hooks 64
    (TCons (TString 1) (TCons uint32 (TCons (TSeq std_vector uint32) TNil))).

Definition scenario : Val Scenario :=
  (repeat Byte.x00 64,
   ([97; 98; 99]%N, (u32 42, ([u32 1; u32 2; u32 3], tt)))).

(** A class that declares [OnSerialise] and [OnDeserialise] but not
    [OnSize], and one that declares [OnSerialise] alone; each holds a
    text. *)
Definition codec_hooks : Hooks :=
  mkHooks false true false false false true false.

Definition write_hook : Hooks :=
  mkHooks false true false false false false false.

Definition Unsized : Ty := TObject "Unsized" codec_hooks 32 (TCons (TString 1) TNil).

Definition WriteOnly : Ty :=
  TObject "WriteOnly" write_hook 32 (TCons (TString 1) TNil).

Definition abc : list byte * (list N * unit) :=
  (repeat Byte.x00 32, ([97; 98; 99]%N, tt)).

(** A class that declares the lifecycle hooks of a write and nothing
    else. *)
Definition lifecycle_hooks : Hooks :=
  mkHooks true false true false false false false.

Definition Plain : Ty := TObject "Plain" lifecycle_hooks 4 TNil.

(** A caller-supplied element functor that throws at the element [bad]. *)
Definition throws_at {C : Type} (bad : N) : Functor C N :=
  fun s x => if N.eqb x bad then (s, x, Thrown) else (s, x, Normal).

(** A buffer at address 4096 that holds [bytes], and a Deserialiser at its
    start. *)
Definition buffer (bytes : list byte) : Memory := memcpy_to zeroed 4096 bytes.

(** Three stored [std::uint8_t] with their count; two of them. *)
Definition stored_789 : list byte := le_bytes 8 3 ++ u8 7 ++ u8 8 ++ u8 9.
Definition stored_12 : list byte := le_bytes 8 2 ++ u8 1 ++ u8 2.

(** Three stored entries of [std::uint32_t] keys and values, the second
    with the key of the first. *)
Definition entry_1_10 : Val uint32 * Val uint32 := (u32 1, u32 10).
Definition entry_1_20 : Val uint32 * Val uint32 := (u32 1, u32 20).
Definition entry_2_30 : Val uint32 * Val uint32 := (u32 2, u32 30).

Definition stored_entries : list byte :=
  le_bytes 8 3
  ++ (u32 1 ++ u32 10) ++ (u32 1 ++ u32 20) ++ (u32 2 ++ u32 30).

Section Platform.
(** [sizeof( size_t )] and [sizeof( ptrdiff_t )] of the build. *)
Variable sizeof_size_t : nat.
Variable sizeof_ptrdiff_t : nat.

(** [std::less] and [std::equal_to] (or the [Compare] and [KeyEqual] of the
    container) at each type. *)
Variable less : forall t : Ty, Val t -> Val t -> bool.
Variable equal_to : forall t : Ty, Val t -> Val t -> bool.

(** One past the largest [size_t]. *)
Definition size_t_max : N := 256 ^ N.of_nat sizeof_size_t.

(** Object representation of a [size_t] and of a [ptrdiff_t]
    (two's complement). *)
Definition size_t_repr (n : N) : list byte := le_bytes sizeof_size_t n.

Definition ptrdiff_t_repr (d : Z) : list byte :=
  le_bytes sizeof_ptrdiff_t
           (Z.to_N (d mod 256 ^ Z.of_nat sizeof_ptrdiff_t)).

(** [a_Container.size()] and [std::distance( begin, end )]. *)
Definition container_size {V : Type} (l : list V) : N :=
  N.of_nat (length l).

Definition std_distance {V : Type} (l : list V) : Z :=
  Z.of_nat (length l).

(** [Sizer::AddSizeOfMemory]: [m_Size] is a [size_t]. *)
Definition AddSizeOfMemory (a_Size : N) (z : St Sizer) : St Sizer :=
  mkSt (mkSizer ((m_Size (ctx z) + a_Size) mod size_t_max))
       (mem z)
       (log z ++ [EvAsMemory a_Size]).

(** [GetBytesWritten], [GetBytesRead]: [m_Head - m_Data] as a [size_t];
    [operator size_t] of the Sizer. *)
Definition GetBytesWritten (s : St Serialiser) : N :=
  (m_Head (ctx s) - m_Data (ctx s)) mod size_t_max.

Definition GetBytesRead (d : St Deserialiser) : N :=
  (m_Head (ctx d) - m_Data (ctx d)) mod size_t_max.

Definition operator_size_t (z : St Sizer) : N := m_Size (ctx z).

(** *** [class Serialisation] *)

(** [Serialisation::Serialise].  [OnSerialise_body] is the body of the
    user's [OnSerialise], [repr] gives the bytes of the object. *)
Definition Serialisation_Serialise {V : Type} (cls : string) (h : Hooks)
    (sizeof_T : nat) (repr : V -> list byte)
    (OnSerialise_body : Functor Serialiser V) : Functor Serialiser V :=
  fun a_Serialiser a_Object =>
    let s0 := if HasOnBeforeSerialise h
              then run_hook cls OnBeforeSerialise a_Serialiser
              else a_Serialiser in
    let '(s1, obj, o) :=
      if HasOnSerialise h
      then OnSerialise_body (run_hook cls OnSerialise s0) a_Object
      else (SerialiseAsMemory
              (object_representation sizeof_T (repr a_Object)) s0,
            a_Object, Normal) in
    match o with
    | Thrown => (s1, obj, Thrown)
    | Normal =>
        (if HasOnAfterSerialise h
         then run_hook cls OnAfterSerialise s1 else s1,
         obj, Normal)
    end.

(** [Serialisation::Deserialise].  [store] overwrites the bytes of the
    object with the ones read. *)
Definition Serialisation_Deserialise {V : Type} (cls : string) (h : Hooks)
    (sizeof_T : nat) (store : V -> list byte -> V)
    (OnDeserialise_body : Functor Deserialiser V) : Functor Deserialiser V :=
  fun a_Deserialiser o_Object =>
    let d0 := if HasOnBeforeDeserialise h
              then run_hook cls OnBeforeDeserialise a_Deserialiser
              else a_Deserialiser in
    let '(d1, obj, o) :=
      if HasOnDeserialise h
      then OnDeserialise_body (run_hook cls OnDeserialise d0) o_Object
      else let '(d, bytes) := DeserialiseAsMemory sizeof_T d0 in
           (d, store o_Object bytes, Normal) in
    match o with
    | Thrown => (d1, obj, Thrown)
    | Normal =>
        (if HasOnAfterDeserialise h
         then run_hook cls OnAfterDeserialise d1 else d1,
         obj, Normal)
    end.

(** [Serialisation::SizeOf]. *)
Definition Serialisation_SizeOf {V : Type} (cls : string) (h : Hooks)
    (sizeof_T : nat) (OnSize_body : Functor Sizer V) : Functor Sizer V :=
  fun a_Sizer a_Object =>
    if HasOnSize h
    then OnSize_body (run_hook cls OnSize a_Sizer) a_Object
    else (AddSizeOfMemory (N.of_nat sizeof_T) a_Sizer, a_Object, Normal).

(** *** [class Serialiser]: the [SerialiseAsContainer] overloads *)

(** [std::pair]: [SerialiseVariadic] over the two slots. *)
Definition SerialiseAsContainer_pair {A B : Type}
    (shl_first : Functor Serialiser A) (shl_second : Functor Serialiser B)
  : Functor Serialiser (A * B) :=
  for_both shl_first shl_second.

(** [std::basic_string]: the length, then the characters in one copy. *)
Definition SerialiseAsContainer_basic_string (char_size : nat)
  : Functor Serialiser (list N) :=
  fun s a_Container =>
    let Size := container_size a_Container in
    let s := SerialiseAsMemory (size_t_repr Size) s in
    let s := SerialiseAsMemory
               (flat_map (le_bytes char_size) a_Container) s in
    (s, a_Container, Normal).

Section SerialiserOverloads.
Context {V : Type}.
Variable a_Functor : Functor Serialiser V.

(** [T( & )[ N ]] *)
Definition SerialiseAsContainer_c_array (N : nat)
  : Functor Serialiser (list V) :=
  fun s a_Container =>
    let Size := N.of_nat N in
    let s := SerialiseAsMemory (size_t_repr Size) s in
    for_each a_Functor s a_Container.

(** [std::array< T, N >] *)
Definition SerialiseAsContainer_array (N : nat)
  : Functor Serialiser (list V) :=
  fun s a_Container =>
    let Size := N.of_nat N in
    let s := SerialiseAsMemory (size_t_repr Size) s in
    for_each a_Functor s a_Container.

Definition SerialiseAsContainer_vector : Functor Serialiser (list V) :=
  fun s a_Container =>
    let Size := container_size a_Container in
    let s := SerialiseAsMemory (size_t_repr Size) s in
    for_each a_Functor s a_Container.

Definition SerialiseAsContainer_list : Functor Serialiser (list V) :=
  fun s a_Container =>
    let Size := container_size a_Container in
    let s := SerialiseAsMemory (size_t_repr Size) s in
    for_each a_Functor s a_Container.

(** [auto Size = std::distance( ... )]: the header is a [ptrdiff_t]. *)
Definition SerialiseAsContainer_forward_list
  : Functor Serialiser (list V) :=
  fun s a_Container =>
    let Size := std_distance a_Container in
    let s := SerialiseAsMemory (ptrdiff_t_repr Size) s in
    for_each a_Functor s a_Container.

Definition SerialiseAsContainer_deque : Functor Serialiser (list V) :=
  fun s a_Container =>
    let Size := container_size a_Container in
    let s := SerialiseAsMemory (size_t_repr Size) s in
    for_each a_Functor s a_Container.

(** [a_Container._Get_container()] is the backing deque itself. *)
Definition SerialiseAsContainer_queue : Functor Serialiser (list V) :=
  fun s a_Container => SerialiseAsContainer_deque s a_Container.

(** The queue is moved into [Helper], the heap is written, and the
    helper is moved back.  When the traversal throws, unwinding destroys
    [Helper] and the queue stays as the move left it: empty. *)
Definition SerialiseAsContainer_priority_queue
  : Functor Serialiser (list V) :=
  fun s a_Container =>
    let Helper_Heap := a_Container in
    let moved_from : list V := [] in
    match SerialiseAsContainer_vector s Helper_Heap with
    | (s1, Heap, Normal) => (s1, Heap, Normal)
    | (s1, _, Thrown) => (s1, moved_from, Thrown)
    end.

Definition SerialiseAsContainer_stack : Functor Serialiser (list V) :=
  fun s a_Container => SerialiseAsContainer_deque s a_Container.

(** The eight associative overloads share one body. *)
Definition SerialiseAsContainer_map : Functor Serialiser (list V) :=
  fun s a_Container =>
    let Size := container_size a_Container in
    let s := SerialiseAsMemory (size_t_repr Size) s in
    for_each a_Functor s a_Container.

Definition SerialiseAsContainer_multimap := SerialiseAsContainer_map.
Definition SerialiseAsContainer_unordered_map := SerialiseAsContainer_map.
Definition SerialiseAsContainer_unordered_multimap :=
  SerialiseAsContainer_map.
Definition SerialiseAsContainer_set := SerialiseAsContainer_map.
Definition SerialiseAsContainer_multiset := SerialiseAsContainer_map.
Definition SerialiseAsContainer_unordered_set := SerialiseAsContainer_map.
Definition SerialiseAsContainer_unordered_multiset :=
  SerialiseAsContainer_map.
End SerialiserOverloads.

(** *** [class Deserialiser]: the [DeserialiseAsContainer] overloads *)

Definition DeserialiseAsContainer_pair {A B : Type}
    (shr_first : Functor Deserialiser A)
    (shr_second : Functor Deserialiser B)
  : Functor Deserialiser (A * B) :=
  for_both shr_first shr_second.

(** The [n] characters of [char_size] bytes each held by [data]. *)
Fixpoint chars_of_bytes (char_size n : nat) (data : list byte) : list N :=
  match n with
  | O => []
  | S n' =>
      le_value (firstn char_size data)
      :: chars_of_bytes char_size n' (skipn char_size data)
  end.

(** [std::basic_string]: the length is read, the string resized, and its
    storage overwritten in one copy. *)
Definition DeserialiseAsContainer_basic_string (char_size : nat)
  : Functor Deserialiser (list N) :=
  fun d o_Container =>
    let '(d1, Size_bytes) := DeserialiseAsMemory sizeof_size_t d in
    let Size := N.to_nat (le_value Size_bytes) in
    let o_Container := resize Size 0%N o_Container in
    let '(d2, data) := DeserialiseAsMemory (char_size * Size) d1 in
    (d2, chars_of_bytes char_size (length o_Container) data, Normal).

Section DeserialiserOverloads.
Context {V : Type}.
Variable value_initialised : V.     (* [T()] *)
Variable a_Functor : Functor Deserialiser V.

(** [T( & )[ N ]] *)
Definition DeserialiseAsContainer_c_array (N : nat)
  : Functor Deserialiser (list V) :=
  fun d o_Container =>
    let '(d1, Size_bytes) := DeserialiseAsMemory sizeof_size_t d in
    let Size := le_value Size_bytes in
    let Size := if (N.of_nat N <? Size)%N then N.of_nat N else Size in
    for_index a_Functor (N.to_nat Size) 0 d1 o_Container.

(** [std::array< T, N >] *)
Definition DeserialiseAsContainer_array (N : nat)
  : Functor Deserialiser (list V) :=
  fun d o_Container =>
    let '(d1, Size_bytes) := DeserialiseAsMemory sizeof_size_t d in
    let Size := le_value Size_bytes in
    let Size := if (N.of_nat N <? Size)%N then N.of_nat N else Size in
    for_index a_Functor (N.to_nat Size) 0 d1 o_Container.

Definition DeserialiseAsContainer_vector
  : Functor Deserialiser (list V) :=
  fun d o_Container =>
    let '(d1, Size_bytes) := DeserialiseAsMemory sizeof_size_t d in
    let Size := N.to_nat (le_value Size_bytes) in
    let o_Container := resize Size value_initialised o_Container in
    for_index a_Functor Size 0 d1 o_Container.

(** [for ( i < Size ) a_Functor( *this, o_Container.emplace_back() );] *)
Fixpoint emplace_back_loop (n : nat) (d : St Deserialiser)
    (o_Container : list V) : St Deserialiser * list V * Outcome :=
  match n with
  | O => (d, o_Container, Normal)
  | S n' =>
      match a_Functor d value_initialised with
      | (d1, x, Normal) => emplace_back_loop n' d1 (o_Container ++ [x])
      | (d1, x, Thrown) => (d1, o_Container ++ [x], Thrown)
      end
  end.

Definition DeserialiseAsContainer_list : Functor Deserialiser (list V) :=
  fun d o_Container =>
    let '(d1, Size_bytes) := DeserialiseAsMemory sizeof_size_t d in
    let Size := N.to_nat (le_value Size_bytes) in
    emplace_back_loop Size d1 o_Container.

(** [for ( i < Size ) { a_Functor( *this, *o_Container.emplace_after( Begin ) ); ++Begin; }]
    with [Begin] the iterator before position [pos]. *)
Fixpoint emplace_after_loop (n pos : nat) (d : St Deserialiser)
    (o_Container : list V) : St Deserialiser * list V * Outcome :=
  match n with
  | O => (d, o_Container, Normal)
  | S n' =>
      match a_Functor d value_initialised with
      | (d1, x, Normal) =>
          emplace_after_loop n' (S pos) d1
            (firstn pos o_Container ++ x :: skipn pos o_Container)
      | (d1, x, Thrown) =>
          (d1, firstn pos o_Container ++ x :: skipn pos o_Container,
           Thrown)
      end
  end.

Definition DeserialiseAsContainer_forward_list
  : Functor Deserialiser (list V) :=
  fun d o_Container =>
    let '(d1, Size_bytes) := DeserialiseAsMemory sizeof_size_t d in
    let Size := N.to_nat (le_value Size_bytes) in
    emplace_after_loop Size 0 d1 o_Container.

Definition DeserialiseAsContainer_deque : Functor Deserialiser (list V) :=
  fun d o_Container =>
    let '(d1, Size_bytes) := DeserialiseAsMemory sizeof_size_t d in
    let Size := N.to_nat (le_value Size_bytes) in
    let o_Container := resize Size value_initialised o_Container in
    for_index a_Functor Size 0 d1 o_Container.

Definition DeserialiseAsContainer_queue : Functor Deserialiser (list V) :=
  fun d o_Container => DeserialiseAsContainer_deque d o_Container.

(** As on the write side: moved into [Helper], read, moved back; left
    empty when the traversal throws. *)
Definition DeserialiseAsContainer_priority_queue
  : Functor Deserialiser (list V) :=
  fun d o_Container =>
    let Helper_Heap := o_Container in
    let moved_from : list V := [] in
    match DeserialiseAsContainer_vector d Helper_Heap with
    | (d1, Heap, Normal) => (d1, Heap, Normal)
    | (d1, _, Thrown) => (d1, moved_from, Thrown)
    end.

Definition DeserialiseAsContainer_stack : Functor Deserialiser (list V) :=
  fun d o_Container => DeserialiseAsContainer_deque d o_Container.

(** The four set overloads: a local [Value] is read, then emplaced. *)
Variable emplace : V -> list V -> list V.

Fixpoint emplace_value_loop (n : nat) (d : St Deserialiser)
    (o_Container : list V) : St Deserialiser * list V * Outcome :=
  match n with
  | O => (d, o_Container, Normal)
  | S n' =>
      match a_Functor d value_initialised with
      | (d1, Value, Normal) =>
          emplace_value_loop n' d1 (emplace Value o_Container)
      | (d1, _, Thrown) => (d1, o_Container, Thrown)
      end
  end.

Definition DeserialiseAsContainer_set_like
  : Functor Deserialiser (list V) :=
  fun d o_Container =>
    let '(d1, Size_bytes) := DeserialiseAsMemory sizeof_size_t d in
    let Size := N.to_nat (le_value Size_bytes) in
    emplace_value_loop Size d1 o_Container.
End DeserialiserOverloads.

Section DeserialiserMaps.
Context {K M : Type}.
Variable key_initialised : K.
Variable mapped_initialised : M.
Variable a_KeyFunctor : Functor Deserialiser K.
Variable a_ValueFunctor : Functor Deserialiser M.
Variable emplace : K * M -> list (K * M) -> list (K * M).

(** The four map overloads: a local [Key] and a local [Value] are read,
    then the pair is emplaced. *)
Fixpoint emplace_pair_loop (n : nat) (d : St Deserialiser)
    (o_Container : list (K * M))
  : St Deserialiser * list (K * M) * Outcome :=
  match n with
  | O => (d, o_Container, Normal)
  | S n' =>
      match a_KeyFunctor d key_initialised with
      | (d1, Key, Normal) =>
          match a_ValueFunctor d1 mapped_initialised with
          | (d2, Value, Normal) =>
              emplace_pair_loop n' d2 (emplace (Key, Value) o_Container)
          | (d2, _, Thrown) => (d2, o_Container, Thrown)
          end
      | (d1, _, Thrown) => (d1, o_Container, Thrown)
      end
  end.

Definition DeserialiseAsContainer_map_like
  : Functor Deserialiser (list (K * M)) :=
  fun d o_Container =>
    let '(d1, Size_bytes) := DeserialiseAsMemory sizeof_size_t d in
    let Size := N.to_nat (le_value Size_bytes) in
    emplace_pair_loop Size d1 o_Container.
End DeserialiserMaps.

Section DeserialiserAssociative.
Context {K M : Type}.
Variable key_initialised : K.
Variable mapped_initialised : M.
Variable less_K equal_to_K : K -> K -> bool.
Variable a_KeyFunctor : Functor Deserialiser K.
Variable a_ValueFunctor : Functor Deserialiser M.

Definition DeserialiseAsContainer_map :=
  DeserialiseAsContainer_map_like key_initialised mapped_initialised
    a_KeyFunctor a_ValueFunctor
    (emplace_ordered_unique (@fst K M) less_K).

Definition DeserialiseAsContainer_multimap :=
  DeserialiseAsContainer_map_like key_initialised mapped_initialised
    a_KeyFunctor a_ValueFunctor
    (emplace_ordered_multi (@fst K M) less_K).

Definition DeserialiseAsContainer_unordered_map :=
  DeserialiseAsContainer_map_like key_initialised mapped_initialised
    a_KeyFunctor a_ValueFunctor
    (emplace_unordered_unique (@fst K M) equal_to_K).

Definition DeserialiseAsContainer_unordered_multimap :=
  DeserialiseAsContainer_map_like key_initialised mapped_initialised
    a_KeyFunctor a_ValueFunctor
    (@emplace_unordered_multi (K * M)).

Definition DeserialiseAsContainer_set :=
  DeserialiseAsContainer_set_like key_initialised a_KeyFunctor
    (emplace_ordered_unique (fun x : K => x) less_K).

Definition DeserialiseAsContainer_multiset :=
  DeserialiseAsContainer_set_like key_initialised a_KeyFunctor
    (emplace_ordered_multi (fun x : K => x) less_K).

Definition DeserialiseAsContainer_unordered_set :=
  DeserialiseAsContainer_set_like key_initialised a_KeyFunctor
    (emplace_unordered_unique (fun x : K => x) equal_to_K).

Definition DeserialiseAsContainer_unordered_multiset :=
  DeserialiseAsContainer_set_like key_initialised a_KeyFunctor
    (@emplace_unordered_multi K).
End DeserialiserAssociative.

(** *** [class Sizer]: the [AddSizeOfContainer] overloads *)

Definition AddSizeOfContainer_pair {A B : Type}
    (plus_first : Functor Sizer A) (plus_second : Functor Sizer B)
  : Functor Sizer (A * B) :=
  for_both plus_first plus_second.

(** [sizeof( a_Container.length() )], then
    [sizeof( *a_Container.data() ) * a_Container.length()]. *)
Definition AddSizeOfContainer_basic_string (char_size : nat)
  : Functor Sizer (list N) :=
  fun z a_Container =>
    let z := AddSizeOfMemory (N.of_nat sizeof_size_t) z in
    let z := AddSizeOfMemory
               (N.of_nat char_size * container_size a_Container) z in
    (z, a_Container, Normal).

Section SizerOverloads.
Context {V : Type}.
Variable a_Functor : Functor Sizer V.

(** [T( & )[ N ]]: [sizeof( N )] is the size of a [size_t]. *)
Definition AddSizeOfContainer_c_array (N : nat)
  : Functor Sizer (list V) :=
  fun z a_Container =>
    let z := AddSizeOfMemory (N.of_nat sizeof_size_t) z in
    for_each a_Functor z a_Container.

Definition AddSizeOfContainer_array (N : nat)
  : Functor Sizer (list V) :=
  fun z a_Container =>
    let z := AddSizeOfMemory (N.of_nat sizeof_size_t) z in
    for_each a_Functor z a_Container.

Definition AddSizeOfContainer_vector : Functor Sizer (list V) :=
  fun z a_Container =>
    let z := AddSizeOfMemory (N.of_nat sizeof_size_t) z in
    for_each a_Functor z a_Container.

Definition AddSizeOfContainer_list : Functor Sizer (list V) :=
  fun z a_Container =>
    let z := AddSizeOfMemory (N.of_nat sizeof_size_t) z in
    for_each a_Functor z a_Container.

(** [sizeof( std::distance( ... ) )] is the size of a [ptrdiff_t]. *)
Definition AddSizeOfContainer_forward_list : Functor Sizer (list V) :=
  fun z a_Container =>
    let z := AddSizeOfMemory (N.of_nat sizeof_ptrdiff_t) z in
    for_each a_Functor z a_Container.

Definition AddSizeOfContainer_deque : Functor Sizer (list V) :=
  fun z a_Container =>
    let z := AddSizeOfMemory (N.of_nat sizeof_size_t) z in
    for_each a_Functor z a_Container.

Definition AddSizeOfContainer_queue : Functor Sizer (list V) :=
  fun z a_Container => AddSizeOfContainer_deque z a_Container.

(** The measured queue is moved into [Helper] through a [const_cast],
    its heap is measured, and the helper is moved back; left empty when
    the traversal throws. *)
Definition AddSizeOfContainer_priority_queue : Functor Sizer (list V) :=
  fun z a_Container =>
    let Helper_Heap := a_Container in
    let moved_from : list V := [] in
    match AddSizeOfContainer_vector z Helper_Heap with
    | (z1, Heap, Normal) => (z1, Heap, Normal)
    | (z1, _, Thrown) => (z1, moved_from, Thrown)
    end.

Definition AddSizeOfContainer_stack : Functor Sizer (list V) :=
  fun z a_Container => AddSizeOfContainer_deque z a_Container.

(** The four set overloads share one body. *)
Definition AddSizeOfContainer_set : Functor Sizer (list V) :=
  fun z a_Container =>
    let z := AddSizeOfMemory (N.of_nat sizeof_size_t) z in
    for_each a_Functor z a_Container.

Definition AddSizeOfContainer_multiset := AddSizeOfContainer_set.
Definition AddSizeOfContainer_unordered_set := AddSizeOfContainer_set.
Definition AddSizeOfContainer_unordered_multiset := AddSizeOfContainer_set.
End SizerOverloads.

Section SizerMaps.
Context {K M : Type}.
Variable a_KeyFunctor : Functor Sizer K.
Variable a_ValueFunctor : Functor Sizer M.

(** The four map overloads: the key functor on [std::get< 0 >( Object )],
    the value functor on [std::get< 1 >( Object )]. *)
Definition AddSizeOfContainer_map : Functor Sizer (list (K * M)) :=
  fun z a_Container =>
    let z := AddSizeOfMemory (N.of_nat sizeof_size_t) z in
    for_each (for_both a_KeyFunctor a_ValueFunctor) z a_Container.

Definition AddSizeOfContainer_multimap := AddSizeOfContainer_map.
Definition AddSizeOfContainer_unordered_map := AddSizeOfContainer_map.
Definition AddSizeOfContainer_unordered_multimap := AddSizeOfContainer_map.
End SizerMaps.

(** *** The three operators *)

(** The bodies of the user's core hooks are not part of the file; they are
    taken as in its introductory example, where each of [OnSerialise],
    [OnDeserialise] and [OnSize] streams every member in declaration order
    ([a_Serialiser << String << Int << Float << Vector]).  The bodies of
    the before and after hooks only show in the trace. *)
Definition on_members {C A B : Type} (stream : Functor C B)
  : Functor C (A * B) :=
  fun s a_Object =>
    let '(s1, members, o) := stream s (snd a_Object) in
    (s1, (fst a_Object, members), o).

Definition skip {C V : Type} : Functor C V := fun s v => (s, v, Normal).

(** [Serialiser::operator<<]: [SerialiseAsContainer] picks the overload of
    the type; the generic overload hands over to
    [Serialisation::Serialise]. *)
Fixpoint operator_shl (t : Ty) : Functor Serialiser (Val t) :=
  match t return Functor Serialiser (Val t) with
  | TLeaf n =>
      Serialisation_Serialise EmptyString no_hooks n (fun raw => raw) skip
  | TObject cls h n ms =>
      Serialisation_Serialise cls h n (@fst (list byte) (Vals ms))
        (on_members (SerialiseVariadic ms))
  | TPair a b => SerialiseAsContainer_pair (operator_shl a) (operator_shl b)
  | TTuple ts => SerialiseVariadic ts
  | TString cs => SerialiseAsContainer_basic_string cs
  | TFixed c_array n t => SerialiseAsContainer_c_array (operator_shl t) n
  | TFixed std_array n t => SerialiseAsContainer_array (operator_shl t) n
  | TSeq std_vector t => SerialiseAsContainer_vector (operator_shl t)
  | TSeq std_list t => SerialiseAsContainer_list (operator_shl t)
  | TSeq std_forward_list t =>
      SerialiseAsContainer_forward_list (operator_shl t)
  | TSeq std_deque t => SerialiseAsContainer_deque (operator_shl t)
  | TSeq std_queue t => SerialiseAsContainer_queue (operator_shl t)
  | TSeq std_priority_queue t =>
      SerialiseAsContainer_priority_queue (operator_shl t)
  | TSeq std_stack t => SerialiseAsContainer_stack (operator_shl t)
  | TMap std_map k v =>
      SerialiseAsContainer_map
        (SerialiseAsContainer_pair (operator_shl k) (operator_shl v))
  | TMap std_multimap k v =>
      SerialiseAsContainer_multimap
        (SerialiseAsContainer_pair (operator_shl k) (operator_shl v))
  | TMap std_unordered_map k v =>
      SerialiseAsContainer_unordered_map
        (SerialiseAsContainer_pair (operator_shl k) (operator_shl v))
  | TMap std_unordered_multimap k v =>
      SerialiseAsContainer_unordered_multimap
        (SerialiseAsContainer_pair (operator_shl k) (operator_shl v))
  | TSet std_set t => SerialiseAsContainer_set (operator_shl t)
  | TSet std_multiset t => SerialiseAsContainer_multiset (operator_shl t)
  | TSet std_unordered_set t =>
      SerialiseAsContainer_unordered_set (operator_shl t)
  | TSet std_unordered_multiset t =>
      SerialiseAsContainer_unordered_multiset (operator_shl t)
  end
with SerialiseVariadic (ts : TyList) : Functor Serialiser (Vals ts) :=
  match ts return Functor Serialiser (Vals ts) with
  | TNil => skip
  | TCons t ts' => for_both (operator_shl t) (SerialiseVariadic ts')
  end.

(** [Deserialiser::operator>>] *)
Fixpoint operator_shr (t : Ty) : Functor Deserialiser (Val t) :=
  match t return Functor Deserialiser (Val t) with
  | TLeaf n =>
      Serialisation_Deserialise EmptyString no_hooks n
        (fun _ bytes => bytes) skip
  | TObject cls h n ms =>
      Serialisation_Deserialise cls h n
        (fun (o_Object : list byte * Vals ms) bytes =>
           (bytes, snd o_Object))
        (on_members (DeserialiseVariadic ms))
  | TPair a b =>
      DeserialiseAsContainer_pair (operator_shr a) (operator_shr b)
  | TTuple ts => DeserialiseVariadic ts
  | TString cs => DeserialiseAsContainer_basic_string cs
  | TFixed c_array n t => DeserialiseAsContainer_c_array (operator_shr t) n
  | TFixed std_array n t => DeserialiseAsContainer_array (operator_shr t) n
  | TSeq std_vector t =>
      DeserialiseAsContainer_vector (default_value t) (operator_shr t)
  | TSeq std_list t =>
      DeserialiseAsContainer_list (default_value t) (operator_shr t)
  | TSeq std_forward_list t =>
      DeserialiseAsContainer_forward_list (default_value t) (operator_shr t)
  | TSeq std_deque t =>
      DeserialiseAsContainer_deque (default_value t) (operator_shr t)
  | TSeq std_queue t =>
      DeserialiseAsContainer_queue (default_value t) (operator_shr t)
  | TSeq std_priority_queue t =>
      DeserialiseAsContainer_priority_queue (default_value t)
        (operator_shr t)
  | TSeq std_stack t =>
      DeserialiseAsContainer_stack (default_value t) (operator_shr t)
  | TMap std_map k v =>
      DeserialiseAsContainer_map (default_value k) (default_value v)
        (less k) (operator_shr k) (operator_shr v)
  | TMap std_multimap k v =>
      DeserialiseAsContainer_multimap (default_value k) (default_value v)
        (less k) (operator_shr k) (operator_shr v)
  | TMap std_unordered_map k v =>
      DeserialiseAsContainer_unordered_map (default_value k)
        (default_value v) (equal_to k) (operator_shr k) (operator_shr v)
  | TMap std_unordered_multimap k v =>
      DeserialiseAsContainer_unordered_multimap (default_value k)
        (default_value v) (operator_shr k) (operator_shr v)
  | TSet std_set t =>
      DeserialiseAsContainer_set (default_value t) (less t) (operator_shr t)
  | TSet std_multiset t =>
      DeserialiseAsContainer_multiset (default_value t) (less t)
        (operator_shr t)
  | TSet std_unordered_set t =>
      DeserialiseAsContainer_unordered_set (default_value t) (equal_to t)
        (operator_shr t)
  | TSet std_unordered_multiset t =>
      DeserialiseAsContainer_unordered_multiset (default_value t)
        (operator_shr t)
  end
with DeserialiseVariadic (ts : TyList) : Functor Deserialiser (Vals ts) :=
  match ts return Functor Deserialiser (Vals ts) with
  | TNil => skip
  | TCons t ts' => for_both (operator_shr t) (DeserialiseVariadic ts')
  end.

(** [Sizer::operator+] *)
Fixpoint operator_plus (t : Ty) : Functor Sizer (Val t) :=
  match t return Functor Sizer (Val t) with
  | TLeaf n => Serialisation_SizeOf EmptyString no_hooks n skip
  | TObject cls h n ms =>
      Serialisation_SizeOf cls h n
        (@on_members Sizer (list byte) (Vals ms) (SizeOfVariadic ms))
  | TPair a b => AddSizeOfContainer_pair (operator_plus a) (operator_plus b)
  | TTuple ts => SizeOfVariadic ts
  | TString cs => AddSizeOfContainer_basic_string cs
  | TFixed c_array n t => AddSizeOfContainer_c_array (operator_plus t) n
  | TFixed std_array n t => AddSizeOfContainer_array (operator_plus t) n
  | TSeq std_vector t => AddSizeOfContainer_vector (operator_plus t)
  | TSeq std_list t => AddSizeOfContainer_list (operator_plus t)
  | TSeq std_forward_list t =>
      AddSizeOfContainer_forward_list (operator_plus t)
  | TSeq std_deque t => AddSizeOfContainer_deque (operator_plus t)
  | TSeq std_queue t => AddSizeOfContainer_queue (operator_plus t)
  | TSeq std_priority_queue t =>
      AddSizeOfContainer_priority_queue (operator_plus t)
  | TSeq std_stack t => AddSizeOfContainer_stack (operator_plus t)
  | TMap std_map k v =>
      AddSizeOfContainer_map (operator_plus k) (operator_plus v)
  | TMap std_multimap k v =>
      AddSizeOfContainer_multimap (operator_plus k) (operator_plus v)
  | TMap std_unordered_map k v =>
      AddSizeOfContainer_unordered_map (operator_plus k) (operator_plus v)
  | TMap std_unordered_multimap k v =>
      AddSizeOfContainer_unordered_multimap (operator_plus k)
        (operator_plus v)
  | TSet std_set t => AddSizeOfContainer_set (operator_plus t)
  | TSet std_multiset t => AddSizeOfContainer_multiset (operator_plus t)
  | TSet std_unordered_set t =>
      AddSizeOfContainer_unordered_set (operator_plus t)
  | TSet std_unordered_multiset t =>
      AddSizeOfContainer_unordered_multiset (operator_plus t)
  end
with SizeOfVariadic (ts : TyList) : Functor Sizer (Vals ts) :=
  match ts return Functor Sizer (Vals ts) with
  | TNil => skip
  | TCons t ts' => for_both (operator_plus t) (SizeOfVariadic ts')
  end.

(** ** The wire format and the byte counts, as functions of the value *)

(** The header of a variable-length sequence, as its writer stores it. *)
Definition count_repr (k : SeqKind) {V : Type} (l : list V) : list byte :=
  match k with
  | std_forward_list => ptrdiff_t_repr (std_distance l)
  | _ => size_t_repr (container_size l)
  end.

(** [wire t v]: the bytes of section 6 of the specification for [v],
    with the core hook of an object deciding between the streamed members
    and the raw copy. *)
Fixpoint wire (t : Ty) : Val t -> list byte :=
  match t return Val t -> list byte with
  | TLeaf n => fun v => object_representation n v
  | TObject _ h n ms => fun v =>
      if HasOnSerialise h then wires ms (snd v)
      else object_representation n (fst v)
  | TPair a b => fun v => wire a (fst v) ++ wire b (snd v)
  | TTuple ts => wires ts
  | TString cs => fun v =>
      size_t_repr (container_size v) ++ flat_map (le_bytes cs) v
  | TFixed _ n t => fun v =>
      size_t_repr (N.of_nat n) ++ flat_map (wire t) v
  | TSeq k t => fun v => count_repr k v ++ flat_map (wire t) v
  | TMap _ k m => fun v =>
      size_t_repr (container_size v)
      ++ flat_map (fun e => wire k (fst e) ++ wire m (snd e)) v
  | TSet _ t => fun v =>
      size_t_repr (container_size v) ++ flat_map (wire t) v
  end
with wires (ts : TyList) : Vals ts -> list byte :=
  match ts return Vals ts -> list byte with
  | TNil => fun _ => []
  | TCons t ts' => fun v => wire t (fst v) ++ wires ts' (snd v)
  end.

Definition sum_N {V : Type} (f : V -> N) (l : list V) : N :=
  fold_right (fun x acc => f x + acc)%N 0%N l.

(** The width of the header the Sizer counts for a sequence. *)
Definition count_width (k : SeqKind) : nat :=
  match k with
  | std_forward_list => sizeof_ptrdiff_t
  | _ => sizeof_size_t
  end.

(** [measure t v]: the bytes the Sizer counts for [v], before any
    wrap-around of its tally. *)
Fixpoint measure (t : Ty) : Val t -> N :=
  match t return Val t -> N with
  | TLeaf n => fun _ => N.of_nat n
  | TObject _ h n ms => fun v =>
      if HasOnSize h then measures ms (snd v) else N.of_nat n
  | TPair a b => fun v => measure a (fst v) + measure b (snd v)
  | TTuple ts => measures ts
  | TString cs => fun v =>
      N.of_nat sizeof_size_t + N.of_nat cs * container_size v
  | TFixed _ _ t => fun v => N.of_nat sizeof_size_t + sum_N (measure t) v
  | TSeq k t => fun v => N.of_nat (count_width k) + sum_N (measure t) v
  | TMap _ k m => fun v =>
      N.of_nat sizeof_size_t
      + sum_N (fun e => measure k (fst e) + measure m (snd e)) v
  | TSet _ t => fun v => N.of_nat sizeof_size_t + sum_N (measure t) v
  end%N
with measures (ts : TyList) : Vals ts -> N :=
  match ts return Vals ts -> N with
  | TNil => fun _ => 0
  | TCons t ts' => fun v => measure t (fst v) + measures ts' (snd v)
  end%N.

(** Every class in [t] declares [OnSize] exactly when it declares
    [OnSerialise]. *)
Fixpoint size_hook_matches (t : Ty) : bool :=
  match t with
  | TLeaf _ => true
  | TObject _ h _ ms =>
      Bool.eqb (HasOnSize h) (HasOnSerialise h) && size_hooks_match ms
  | TPair a b => size_hook_matches a && size_hook_matches b
  | TTuple ts => size_hooks_match ts
  | TString _ => true
  | TFixed _ _ t => size_hook_matches t
  | TSeq _ t => size_hook_matches t
  | TMap _ k m => size_hook_matches k && size_hook_matches m
  | TSet _ t => size_hook_matches t
  end
with size_hooks_match (ts : TyList) : bool :=
  match ts with
  | TNil => true
  | TCons t ts' => size_hook_matches t && size_hooks_match ts'
  end.

(** [r x y] for every [x] that comes before [y] in [l]. *)
Fixpoint pairwise {A : Type} (r : A -> A -> bool) (l : list A) : bool :=
  match l with
  | [] => true
  | x :: l' => forallb (r x) l' && pairwise r l'
  end.

(** The order in which a container of each kind iterates. *)
Definition map_order (k : MapKind) {K M : Type}
    (less_K equal_to_K : K -> K -> bool) (l : list (K * M)) : bool :=
  match k with
  | std_map =>
      pairwise (fun x y => less_K (fst x) (fst y)
                           && negb (less_K (fst y) (fst x))) l
  | std_multimap => pairwise (fun x y => negb (less_K (fst y) (fst x))) l
  | std_unordered_map =>
      pairwise (fun x y => negb (equal_to_K (fst x) (fst y))) l
  | std_unordered_multimap => true
  end.

Definition set_order (k : SetKind) {K : Type}
    (less_K equal_to_K : K -> K -> bool) (l : list K) : bool :=
  match k with
  | std_set => pairwise (fun x y => less_K x y && negb (less_K y x)) l
  | std_multiset => pairwise (fun x y => negb (less_K y x)) l
  | std_unordered_set => pairwise (fun x y => negb (equal_to_K x y)) l
  | std_unordered_multiset => true
  end.

(** [well_formed t v]: [v] is a value a program can hold at type [t]: a
    leaf has [sizeof( T )] bytes, a fixed-size container its [N] elements,
    a character fits its width, an element count fits a [size_t], and an
    associative container iterates in its order. *)
Fixpoint well_formed (t : Ty) : Val t -> bool :=
  match t return Val t -> bool with
  | TLeaf n => fun v => Nat.eqb (length v) n
  | TObject _ _ n ms => fun v =>
      Nat.eqb (length (fst v)) n && well_formeds ms (snd v)
  | TPair a b => fun v => well_formed a (fst v) && well_formed b (snd v)
  | TTuple ts => well_formeds ts
  | TString cs => fun v =>
      N.ltb (container_size v) size_t_max
      && forallb (fun c => N.ltb c (256 ^ N.of_nat cs)) v
  | TFixed _ n t => fun v =>
      Nat.eqb (length v) n && N.ltb (N.of_nat n) size_t_max
      && forallb (well_formed t) v
  | TSeq _ t => fun v =>
      N.ltb (container_size v) size_t_max && forallb (well_formed t) v
  | TMap k a b => fun v =>
      N.ltb (container_size v) size_t_max
      && forallb (fun e => well_formed a (fst e) && well_formed b (snd e)) v
      && map_order k (less a) (equal_to a) v
  | TSet k t => fun v =>
      N.ltb (container_size v) size_t_max && forallb (well_formed t) v
      && set_order k (less t) (equal_to t) v
  end
with well_formeds (ts : TyList) : Vals ts -> bool :=
  match ts return Vals ts -> bool with
  | TNil => fun _ => true
  | TCons t ts' => fun v => well_formed t (fst v) && well_formeds ts' (snd v)
  end.

(** Every class in [t] declares [OnDeserialise] exactly when it declares
    [OnSerialise], and the two hooks carry the state of the object: a
    class without them has no members beside its bytes, a class with them
    has its bytes as freshly constructed. *)
Fixpoint streams_whole_state (t : Ty) : Val t -> bool :=
  match t return Val t -> bool with
  | TLeaf _ => fun _ => true
  | TObject _ h _ ms => fun v =>
      Bool.eqb (HasOnSerialise h) (HasOnDeserialise h)
      && (if HasOnSerialise h
          then forallb (Byte.eqb Byte.x00) (fst v)
               && stream_whole_states ms (snd v)
          else match ms with TNil => true | TCons _ _ => false end)
  | TPair a b => fun v =>
      streams_whole_state a (fst v) && streams_whole_state b (snd v)
  | TTuple ts => stream_whole_states ts
  | TString _ => fun _ => true
  | TFixed _ _ t => forallb (streams_whole_state t)
  | TSeq _ t => forallb (streams_whole_state t)
  | TMap _ k m =>
      forallb (fun e => streams_whole_state k (fst e)
                        && streams_whole_state m (snd e))
  | TSet _ t => forallb (streams_whole_state t)
  end
with stream_whole_states (ts : TyList) : Vals ts -> bool :=
  match ts return Vals ts -> bool with
  | TNil => fun _ => true
  | TCons t ts' => fun v =>
      streams_whole_state t (fst v) && stream_whole_states ts' (snd v)
  end.

(** Every [std::forward_list] in [t] has its count written ([ptrdiff_t]) as
    wide as it is read ([size_t]). *)
Fixpoint count_widths_agree (t : Ty) : bool :=
  match t with
  | TLeaf _ => true
  | TObject _ _ _ ms => counts_widths_agree ms
  | TPair a b => count_widths_agree a && count_widths_agree b
  | TTuple ts => counts_widths_agree ts
  | TString _ => true
  | TFixed _ _ t => count_widths_agree t
  | TSeq k t =>
      match k with
      | std_forward_list => Nat.eqb sizeof_ptrdiff_t sizeof_size_t
      | _ => true
      end && count_widths_agree t
  | TMap _ a b => count_widths_agree a && count_widths_agree b
  | TSet _ t => count_widths_agree t
  end
with counts_widths_agree (ts : TyList) : bool :=
  match ts with
  | TNil => true
  | TCons t ts' => count_widths_agree t && counts_widths_agree ts'
  end.

(** The state a Serialiser reaches by writing [bytes], a Deserialiser by
    reading [n] bytes, a Sizer by counting [n] bytes; [lg] is what the
    trace gains. *)
Definition wrote (s : St Serialiser) (bytes : list byte) (lg : list Event)
  : St Serialiser :=
  mkSt (mkStream (m_Data (ctx s))
                 (m_Head (ctx s) + N.of_nat (length bytes)))
       (memcpy_to (mem s) (m_Head (ctx s)) bytes)
       (log s ++ lg).

Definition consumed (d : St Deserialiser) (n : nat) (lg : list Event)
  : St Deserialiser :=
  mkSt (mkStream (m_Data (ctx d)) (m_Head (ctx d) + N.of_nat n))
       (mem d)
       (log d ++ lg).

Definition counted (z : St Sizer) (n : N) (lg : list Event) : St Sizer :=
  mkSt (mkSizer ((m_Size (ctx z) + n) mod size_t_max))
       (mem z)
       (log z ++ lg).

(** The bytes under the head of a Deserialiser. *)
Definition holds (d : St Deserialiser) (bytes : list byte) : Prop :=
  memcpy_from (mem d) (m_Head (ctx d)) (length bytes) = bytes.
(** [exact act valid F f]: from a valid context the functor [F] returns
    normally, leaves the element as it is, and moves the context by [f] of
    the element. *)
Definition exact {C X V : Type} (act : St C -> X -> list Event -> St C)
    (valid : St C -> Prop) (F : Functor C V) (f : V -> X) : Prop :=
  forall s v, valid s -> exists lg, F s v = (act s (f v) lg, v, Normal).

Definition writes {V : Type} (F : Functor Serialiser V)
    (f : V -> list byte) : Prop :=
  exact wrote (fun _ => True) F f.

(** The tally of a Sizer is a [size_t]. *)
Definition tally_in_range (z : St Sizer) : Prop :=
  (m_Size (ctx z) < size_t_max)%N.

Definition counts {V : Type} (F : Functor Sizer V) (f : V -> N) : Prop :=
  exact counted tally_in_range F f.

(** [Sizer()], [Serialiser( a_Data )] and [Deserialiser( a_Data )]. *)
Definition new_Sizer (m : Memory) : St Sizer := mkSt (mkSizer 0) m [].

Definition new_Serialiser (a_Data : N) (m : Memory) : St Serialiser :=
  mkSt (mkStream a_Data a_Data) m [].

Definition new_Deserialiser (a_Data : N) (m : Memory) : St Deserialiser :=
  mkSt (mkStream a_Data a_Data) m [].

(** [reads F dst bytes v]: with [bytes] under the head, the functor [F]
    handed the destination [dst] returns normally, leaves [v] in it, and
    moves the head past [bytes]. *)
Definition reads {V : Type} (F : Functor Deserialiser V) (dst : V)
    (bytes : list byte) (v : V) : Prop :=
  forall d, holds d bytes ->
    exists lg, F d dst = (consumed d (length bytes) lg, v, Normal).

(** [advances d d']: [d'] is [d] further on: same start of stream, same
    memory, head no earlier, trace extended. *)
Definition advances (d d' : St Deserialiser) : Prop :=
  m_Data (ctx d') = m_Data (ctx d)
  /\ (m_Head (ctx d) <= m_Head (ctx d'))%N
  /\ mem d' = mem d
  /\ exists lg, log d' = log d ++ lg.

(** [steady F]: whatever the memory holds, [F] returns normally and only
    advances. *)
Definition steady {V : Type} (F : Functor Deserialiser V) : Prop :=
  forall d v, advances d (fst (fst (F d v))) /\ snd (F d v) = Normal.

(** [emplace] of each associative container. *)
Definition emplace_map (k : MapKind) {K M : Type}
    (less_K equal_to_K : K -> K -> bool)
  : K * M -> list (K * M) -> list (K * M) :=
  match k with
  | std_map => emplace_ordered_unique (@fst K M) less_K
  | std_multimap => emplace_ordered_multi (@fst K M) less_K
  | std_unordered_map => emplace_unordered_unique (@fst K M) equal_to_K
  | std_unordered_multimap => @emplace_unordered_multi (K * M)
  end.

Definition emplace_set (k : SetKind) {K : Type}
    (less_K equal_to_K : K -> K -> bool) : K -> list K -> list K :=
  match k with
  | std_set => emplace_ordered_unique (fun x : K => x) less_K
  | std_multiset => emplace_ordered_multi (fun x : K => x) less_K
  | std_unordered_set => emplace_unordered_unique (fun x : K => x) equal_to_K
  | std_unordered_multiset => @emplace_unordered_multi K
  end.

(** The containers that reject a second element with the same key, and
    whether a container of such a kind already has the key [x]. *)
Definition unique_keys_map (k : MapKind) : bool :=
  match k with
  | std_map | std_unordered_map => true
  | std_multimap | std_unordered_multimap => false
  end.

Definition unique_keys_set (k : SetKind) : bool :=
  match k with
  | std_set | std_unordered_set => true
  | std_multiset | std_unordered_multiset => false
  end.

Definition has_key {E K : Type} (ordered : bool) (key : E -> K)
    (less_K equal_to_K : K -> K -> bool) (x : K) (c : list E) : bool :=
  if ordered
  then existsb (fun y => equivalent less_K (key y) x) c
  else existsb (fun y => equal_to_K (key y) x) c.

Definition ordered_map (k : MapKind) : bool :=
  match k with
  | std_map | std_multimap => true
  | std_unordered_map | std_unordered_multimap => false
  end.

Definition ordered_set (k : SetKind) : bool :=
  match k with
  | std_set | std_multiset => true
  | std_unordered_set | std_unordered_multiset => false
  end.

(** [element_preserving F]: the functor leaves the element it is handed as
    it is, as the functors of a write and of a measure do. *)
Definition element_preserving {C V : Type} (F : Functor C V) : Prop :=
  forall s x, snd (fst (F s x)) = x.

(** The calls a host makes on one instance, and the instance after them. *)
Inductive SerialiserCall :=
| call_SerialiseAsMemory (a_Data : list byte)
| call_shl (t : Ty) (a_Object : Val t).

Inductive DeserialiserCall :=
| call_DeserialiseAsMemory (a_Size : nat)
| call_shr (t : Ty) (o_Object : Val t).

Inductive SizerCall :=
| call_AddSizeOfMemory (a_Size : N)
| call_plus (t : Ty) (a_Object : Val t).

Definition Serialiser_after (s : St Serialiser) (c : SerialiserCall)
  : St Serialiser :=
  match c with
  | call_SerialiseAsMemory a_Data => SerialiseAsMemory a_Data s
  | call_shl t a_Object => fst (fst (operator_shl t s a_Object))
  end.

Definition Deserialiser_after (d : St Deserialiser) (c : DeserialiserCall)
  : St Deserialiser :=
  match c with
  | call_DeserialiseAsMemory a_Size => fst (DeserialiseAsMemory a_Size d)
  | call_shr t o_Object => fst (fst (operator_shr t d o_Object))
  end.

Definition Sizer_after (z : St Sizer) (c : SizerCall) : St Sizer :=
  match c with
  | call_AddSizeOfMemory a_Size => AddSizeOfMemory a_Size z
  | call_plus t a_Object => fst (fst (operator_plus t z a_Object))
  end.

(** The bytes a call asks the Sizer to count. *)
Definition asked (c : SizerCall) : N :=
  match c with
  | call_AddSizeOfMemory a_Size => a_Size
  | call_plus t a_Object => measure t a_Object
  end.

(** The bytes a call asks the Serialiser to write. *)
Definition written (c : SerialiserCall) : list byte :=
  match c with
  | call_SerialiseAsMemory a_Data => a_Data
  | call_shl t a_Object => wire t a_Object
  end.

(** The types whose read leaves nothing of what the destination held:
    those built without [std::list], [std::forward_list] and the
    associative containers, whose readers add to the destination. *)
Fixpoint overwritten (t : Ty) : bool :=
  match t with
  | TLeaf _ => true
  | TObject _ _ _ ms => overwrittens ms
  | TPair a b => overwritten a && overwritten b
  | TTuple ts => overwrittens ts
  | TString _ => true
  | TFixed _ _ t => overwritten t
  | TSeq k t =>
      match k with
      | std_list | std_forward_list => false
      | _ => true
      end && overwritten t
  | TMap _ _ _ => false
  | TSet _ _ => false
  end
with overwrittens (ts : TyList) : bool :=
  match ts with
  | TNil => true
  | TCons t ts' => overwritten t && overwrittens ts'
  end.

(** The [n] objects of [size] bytes each that lie in memory from the
    address [a] on. *)
Fixpoint objects_at (m : Memory) (a : N) (size n : nat)
  : list (list byte) :=
  match n with
  | O => []
  | S n' =>
      memcpy_from m a size :: objects_at m (a + N.of_nat size) size n'
  end.

(** The event of a hook that runs when the class declares it. *)
Definition when_declared (declared : bool) (cls : string) (h : Hook)
  : list Event :=
  if declared then [EvHook cls h] else [].

(** [trace_shl t v]: the hooks a write of [v] runs and the raw copies it
    makes, in order. *)
Fixpoint trace_shl (t : Ty) : Val t -> list Event :=
  match t return Val t -> list Event with
  | TLeaf n => fun _ => [EvAsMemory (N.of_nat n)]
  | TObject cls h n ms => fun v =>
      when_declared (HasOnBeforeSerialise h) cls OnBeforeSerialise
      ++ (if HasOnSerialise h
          then EvHook cls OnSerialise :: traces_shl ms (snd v)
          else [EvAsMemory (N.of_nat n)])
      ++ when_declared (HasOnAfterSerialise h) cls OnAfterSerialise
  | TPair a b => fun v => trace_shl a (fst v) ++ trace_shl b (snd v)
  | TTuple ts => traces_shl ts
  | TString cs => fun v =>
      [EvAsMemory (N.of_nat sizeof_size_t);
       EvAsMemory (N.of_nat cs * container_size v)]
  | TFixed _ _ t => fun v =>
      EvAsMemory (N.of_nat sizeof_size_t) :: flat_map (trace_shl t) v
  | TSeq k t => fun v =>
      EvAsMemory (N.of_nat (count_width k)) :: flat_map (trace_shl t) v
  | TMap _ k m => fun v =>
      EvAsMemory (N.of_nat sizeof_size_t)
      :: flat_map (fun e => trace_shl k (fst e) ++ trace_shl m (snd e)) v
  | TSet _ t => fun v =>
      EvAsMemory (N.of_nat sizeof_size_t) :: flat_map (trace_shl t) v
  end
with traces_shl (ts : TyList) : Vals ts -> list Event :=
  match ts return Vals ts -> list Event with
  | TNil => fun _ => []
  | TCons t ts' => fun v => trace_shl t (fst v) ++ traces_shl ts' (snd v)
  end.

(** [trace_plus t v]: the hooks a measure of [v] runs and the sizes it
    adds, in order. *)
Fixpoint trace_plus (t : Ty) : Val t -> list Event :=
  match t return Val t -> list Event with
  | TLeaf n => fun _ => [EvAsMemory (N.of_nat n)]
  | TObject cls h n ms => fun v =>
      if HasOnSize h
      then EvHook cls OnSize :: traces_plus ms (snd v)
      else [EvAsMemory (N.of_nat n)]
  | TPair a b => fun v => trace_plus a (fst v) ++ trace_plus b (snd v)
  | TTuple ts => traces_plus ts
  | TString cs => fun v =>
      [EvAsMemory (N.of_nat sizeof_size_t);
       EvAsMemory (N.of_nat cs * container_size v)]
  | TFixed _ _ t => fun v =>
      EvAsMemory (N.of_nat sizeof_size_t) :: flat_map (trace_plus t) v
  | TSeq k t => fun v =>
      EvAsMemory (N.of_nat (count_width k)) :: flat_map (trace_plus t) v
  | TMap _ k m => fun v =>
      EvAsMemory (N.of_nat sizeof_size_t)
      :: flat_map (fun e => trace_plus k (fst e) ++ trace_plus m (snd e)) v
  | TSet _ t => fun v =>
      EvAsMemory (N.of_nat sizeof_size_t) :: flat_map (trace_plus t) v
  end
with traces_plus (ts : TyList) : Vals ts -> list Event :=
  match ts return Vals ts -> list Event with
  | TNil => fun _ => []
  | TCons t ts' => fun v => trace_plus t (fst v) ++ traces_plus ts' (snd v)
  end.

(** The events of a measure: the core hook of the Sizer and the sizes. *)
Definition of_a_measure (e : Event) : bool :=
  match e with
  | EvHook _ OnSize => true
  | EvHook _ _ => false
  | EvAsMemory _ => true
  end.

(** [traced F ev]: the functor returns normally and adds [ev] of the
    element to the trace, whatever the context. *)
Definition traced {C V : Type} (F : Functor C V) (ev : V -> list Event)
  : Prop :=
  forall s v, log (fst (fst (F s v))) = log s ++ ev v
              /\ snd (F s v) = Normal.

(** The bytes that lie between the head of [s] and the head of [s'] in the
    memory of [s']: what the calls that led from [s] to [s'] put into the
    stream. *)
Definition bytes_written (s s' : St Serialiser) : list byte :=
  memcpy_from (mem s') (m_Head (ctx s))
              (N.to_nat (m_Head (ctx s') - m_Head (ctx s))).

(** * Properties *)

(** ** Bytes *)

Lemma to_N_byte_of_N (n : N) : Byte.to_N (byte_of_N n) = (n mod 256)%N.
Proof.
  unfold byte_of_N.
  destruct (Byte.of_N (n mod 256)) as [b|] eqn:E.
  - now apply Byte.to_of_N.
  - apply Byte.of_N_None_iff in E.
    pose proof (N.mod_upper_bound n 256). lia.
Qed.

Lemma length_le_bytes (w : nat) (n : N) : length (le_bytes w n) = w.
Proof.
  revert n. induction w as [|w IH]; intros n; simpl; [reflexivity|].
  now rewrite IH.
Qed.

Lemma le_value_le_bytes (w : nat) (n : N) :
  le_value (le_bytes w n) = (n mod 256 ^ N.of_nat w)%N.
Proof.
  revert n. induction w as [|w IH]; intros n.
  - simpl. now rewrite N.mod_1_r.
  - cbn [le_bytes le_value]. rewrite to_N_byte_of_N, IH.
    rewrite Nat2N.inj_succ, N.pow_succ_r'.
    rewrite N.Div0.mod_mul_r. lia.
Qed.

Lemma le_value_le_bytes_small (w : nat) (n : N) :
  (n < 256 ^ N.of_nat w)%N -> le_value (le_bytes w n) = n.
Proof.
  intros H. rewrite le_value_le_bytes. now apply N.mod_small.
Qed.

Lemma length_object_representation (size : nat) (raw : list byte) :
  length (object_representation size raw) = size.
Proof.
  unfold object_representation.
  rewrite length_app, length_firstn, repeat_length. lia.
Qed.

Lemma object_representation_exact (size : nat) (raw : list byte) :
  length raw = size -> object_representation size raw = raw.
Proof.
  intros <-. unfold object_representation.
  rewrite firstn_all, Nat.sub_diag. simpl. apply app_nil_r.
Qed.

(** ** Memory *)

Lemma memcpy_to_app (m : Memory) (a : N) (l1 l2 : list byte) :
  memcpy_to m a (l1 ++ l2)
  = memcpy_to (memcpy_to m a l1) (a + N.of_nat (length l1)) l2.
Proof.
  revert m a. induction l1 as [|b l1 IH]; intros m a.
  - simpl. now rewrite N.add_0_r.
  - cbn [app memcpy_to length]. rewrite IH. f_equal. lia.
Qed.

Lemma memcpy_to_outside (m : Memory) (a : N) (l : list byte) (x : N) :
  (x < a \/ a + N.of_nat (length l) <= x)%N -> memcpy_to m a l x = m x.
Proof.
  revert m a. induction l as [|b l IH]; intros m a H; simpl; [reflexivity|].
  rewrite IH by (cbn [length] in H; lia).
  destruct (N.eqb_spec x a); [cbn [length] in H; lia | reflexivity].
Qed.

Lemma memcpy_from_app (m : Memory) (a : N) (n1 n2 : nat) :
  memcpy_from m a (n1 + n2)
  = memcpy_from m a n1 ++ memcpy_from m (a + N.of_nat n1) n2.
Proof.
  revert a. induction n1 as [|n1 IH]; intros a.
  - simpl. now rewrite N.add_0_r.
  - cbn [Nat.add memcpy_from app]. rewrite IH. do 3 f_equal. lia.
Qed.

Lemma length_memcpy_from (m : Memory) (a : N) (n : nat) :
  length (memcpy_from m a n) = n.
Proof.
  revert a. induction n as [|n IH]; intros a; simpl; [reflexivity|].
  now rewrite IH.
Qed.

Lemma memcpy_from_ext (m m' : Memory) (a : N) (n : nat) :
  (forall x, (a <= x < a + N.of_nat n)%N -> m x = m' x) ->
  memcpy_from m a n = memcpy_from m' a n.
Proof.
  revert a. induction n as [|n IH]; intros a H; simpl; [reflexivity|].
  rewrite H by lia. f_equal. apply IH. intros x Hx. apply H. lia.
Qed.

Lemma memcpy_from_to (m : Memory) (a : N) (l : list byte) :
  memcpy_from (memcpy_to m a l) a (length l) = l.
Proof.
  revert m a. induction l as [|b l IH]; intros m a; simpl; [reflexivity|].
  f_equal.
  - rewrite memcpy_to_outside by lia. now rewrite N.eqb_refl.
  - apply IH.
Qed.

(** ** Functors that move the context by a computed amount *)

Section Exact.
Context {C X : Type}.
Variable act : St C -> X -> list Event -> St C.
Variable valid : St C -> Prop.
Variable op : X -> X -> X.
Variable e : X.
Hypothesis act_e : forall s, valid s -> act s e [] = s.
Hypothesis act_act : forall s x1 l1 x2 l2,
  act (act s x1 l1) x2 l2 = act s (op x1 x2) (l1 ++ l2).
Hypothesis act_valid : forall s x l, valid s -> valid (act s x l).

Lemma exact_skip {V : Type} : exact act valid (@skip C V) (fun _ => e).
Proof. intros s v Hs. exists []. unfold skip. now rewrite act_e. Qed.

Lemma exact_for_both {A B : Type} (F : Functor C A) (G : Functor C B) f g :
  exact act valid F f -> exact act valid G g ->
  exact act valid (for_both F G) (fun v => op (f (fst v)) (g (snd v))).
Proof.
  intros HF HG s [a b] Hs. unfold for_both. cbn [fst snd].
  destruct (HF s a Hs) as [l1 ->].
  destruct (HG (act s (f a) l1) b (act_valid _ _ Hs)) as [l2 ->].
  exists (l1 ++ l2). now rewrite act_act.
Qed.

Lemma exact_on_members {A B : Type} (G : Functor C B) g :
  exact act valid G g ->
  exact act valid (@on_members C A B G) (fun v => g (snd v)).
Proof.
  intros HG s [a b] Hs. unfold on_members. cbn [fst snd].
  destruct (HG s b Hs) as [l ->]. now exists l.
Qed.

Lemma exact_for_each {V : Type} (F : Functor C V) f :
  exact act valid F f ->
  exact act valid (for_each F) (fold_right (fun v acc => op (f v) acc) e).
Proof.
  intros HF s l. revert s. induction l as [|x l IH]; intros s Hs.
  - exists []. simpl. now rewrite act_e.
  - cbn [for_each fold_right]. destruct (HF s x Hs) as [l1 ->].
    destruct (IH (act s (f x) l1) (act_valid _ _ Hs)) as [l2 ->].
    exists (l1 ++ l2). now rewrite act_act.
Qed.

Lemma exact_ext {V : Type} (F : Functor C V) f g :
  (forall v, f v = g v) -> exact act valid F f -> exact act valid F g.
Proof.
  intros H HF s v Hs. destruct (HF s v Hs) as [l ->]. exists l.
  now rewrite H.
Qed.
End Exact.

(** ** What a write does *)

Lemma wrote_nil (s : St Serialiser) : wrote s [] [] = s.
Proof.
  destruct s as [[d h] m l]. unfold wrote. cbn.
  now rewrite N.add_0_r, app_nil_r.
Qed.

Lemma wrote_wrote (s : St Serialiser) b1 l1 b2 l2 :
  wrote (wrote s b1 l1) b2 l2 = wrote s (b1 ++ b2) (l1 ++ l2).
Proof.
  unfold wrote. cbn [ctx mem log m_Data m_Head].
  rewrite memcpy_to_app, length_app, Nat2N.inj_add, N.add_assoc, app_assoc.
  reflexivity.
Qed.

Lemma SerialiseAsMemory_wrote (a_Data : list byte) (s : St Serialiser) :
  SerialiseAsMemory a_Data s
  = wrote s a_Data [EvAsMemory (N.of_nat (length a_Data))].
Proof. reflexivity. Qed.

Lemma run_hook_wrote cls h (s : St Serialiser) :
  run_hook cls h s = wrote s [] [EvHook cls h].
Proof.
  unfold run_hook, log_event, wrote. destruct s as [[d hd] m l]. cbn.
  now rewrite N.add_0_r.
Qed.

Lemma flat_map_fold_right {A B : Type} (f : A -> list B) (l : list A) :
  fold_right (fun v acc => f v ++ acc) [] l = flat_map f l.
Proof. induction l as [|x l IH]; simpl; congruence. Qed.

Lemma writes_for_each {V : Type} (F : Functor Serialiser V) f :
  writes F f -> writes (for_each F) (flat_map f).
Proof.
  intros H. eapply exact_ext; [apply flat_map_fold_right|].
  apply (@exact_for_each _ _ wrote (fun _ => True) (@app byte) []);
    auto using wrote_nil, wrote_wrote.
Qed.

Lemma writes_skip {V : Type} : writes (@skip Serialiser V) (fun _ => []).
Proof. apply (@exact_skip _ _ wrote (fun _ => True) []). auto using wrote_nil. Qed.

Lemma writes_for_both {A B : Type} (F : Functor Serialiser A)
    (G : Functor Serialiser B) f g :
  writes F f -> writes G g ->
  writes (for_both F G) (fun v => f (fst v) ++ g (snd v)).
Proof. apply (@exact_for_both _ _ wrote (fun _ => True) (@app byte)); auto using wrote_wrote. Qed.

Lemma writes_on_members {A B : Type} (G : Functor Serialiser B) g :
  writes G g -> writes (@on_members Serialiser A B G) (fun v => g (snd v)).
Proof. apply (@exact_on_members _ _ wrote). Qed.

Lemma writes_sized {V : Type} (F : Functor Serialiser V) f (hdr : list V -> list byte) :
  writes F f ->
  writes (fun s a_Container =>
            for_each F (SerialiseAsMemory (hdr a_Container) s) a_Container)
         (fun l => hdr l ++ flat_map f l).
Proof.
  intros H s l _. rewrite SerialiseAsMemory_wrote.
  pose proof (writes_for_each H) as Hl.
  destruct (Hl (wrote s (hdr l) [EvAsMemory (N.of_nat (length (hdr l)))]) l I)
    as [lg ->].
  eexists. now rewrite wrote_wrote.
Qed.

Lemma writes_Serialise {V : Type} cls h n (repr : V -> list byte) body f :
  writes body f ->
  writes (Serialisation_Serialise cls h n repr body)
         (fun v => if HasOnSerialise h then f v
                   else object_representation n (repr v)).
Proof.
  intros H s v _. unfold Serialisation_Serialise.
  set (s0 := if HasOnBeforeSerialise h then _ else _).
  assert (E0 : exists l0, s0 = wrote s [] l0).
  { subst s0. destruct (HasOnBeforeSerialise h).
    - eexists. apply run_hook_wrote.
    - exists []. now rewrite wrote_nil. }
  destruct E0 as [l0 ->].
  destruct (HasOnSerialise h).
  - rewrite run_hook_wrote, wrote_wrote.
    destruct (H (wrote s ([] ++ []) (l0 ++ [EvHook cls OnSerialise])) v I)
      as [l1 ->].
    rewrite wrote_wrote. cbn [app].
    destruct (HasOnAfterSerialise h).
    + rewrite run_hook_wrote, wrote_wrote, app_nil_r. eexists. reflexivity.
    + eexists. reflexivity.
  - rewrite SerialiseAsMemory_wrote, wrote_wrote. cbn [app].
    destruct (HasOnAfterSerialise h).
    + rewrite run_hook_wrote, wrote_wrote, app_nil_r. eexists. reflexivity.
    + eexists. reflexivity.
Qed.

Lemma writes_priority_queue {V : Type} (F : Functor Serialiser V) f :
  writes F f ->
  writes (SerialiseAsContainer_priority_queue F)
         (fun l => size_t_repr (container_size l) ++ flat_map f l).
Proof.
  intros H s l _. unfold SerialiseAsContainer_priority_queue.
  pose proof (writes_sized (fun l => size_t_repr (container_size l)) H) as Hv.
  destruct (Hv s l I) as [lg E].
  unfold SerialiseAsContainer_vector. rewrite E. now exists lg.
Qed.

Theorem shl_spec :
  (forall t, writes (operator_shl t)
                    (wire t))
  /\ (forall ts, writes (SerialiseVariadic ts)
                        (wires ts)).
Proof.
  apply Ty_TyList_ind.
  - (* TLeaf *) intros n. cbn [operator_shl wire].
    apply (writes_Serialise EmptyString no_hooks n (fun raw => raw)
             (f := fun _ => [])).
    apply writes_skip.
  - (* TObject *) intros cls h n ms IH. cbn [operator_shl wire].
    apply (writes_Serialise cls h n (@fst (list byte) (Vals ms))).
    now apply writes_on_members.
  - (* TPair *) intros a IHa b IHb. cbn [operator_shl wire].
    apply (writes_for_both IHa IHb).
  - (* TTuple *) intros ts IH. exact IH.
  - (* TString *) intros cs s v _. cbn [operator_shl wire].
    unfold SerialiseAsContainer_basic_string.
    rewrite !SerialiseAsMemory_wrote, wrote_wrote. eexists. reflexivity.
  - (* TFixed *) intros k n t IH. destruct k; cbn [operator_shl wire];
      apply (writes_sized (fun _ => size_t_repr (N.of_nat n)) IH).
  - (* TSeq *) intros k t IH. destruct k; cbn [operator_shl wire count_repr];
      try apply (writes_sized (fun l => size_t_repr (container_size l)) IH);
      try apply (writes_sized (fun l => ptrdiff_t_repr (std_distance l)) IH).
    now apply writes_priority_queue.
  - (* TMap *) intros k a IHa b IHb.
    pose proof (writes_for_both IHa IHb) as Hp.
    destruct k; cbn [operator_shl wire];
      apply (writes_sized (fun l => size_t_repr (container_size l)) Hp).
  - (* TSet *) intros k t IH. destruct k; cbn [operator_shl wire];
      apply (writes_sized (fun l => size_t_repr (container_size l)) IH).
  - (* TNil *) apply writes_skip.
  - (* TCons *) intros t IHt ts IHts. cbn [SerialiseVariadic wires].
    apply (writes_for_both IHt IHts).
Qed.

(** ** What a measure does *)

Lemma size_t_max_nonzero : size_t_max <> 0%N.
Proof. unfold size_t_max. apply N.pow_nonzero. discriminate. Qed.

Lemma counted_zero (z : St Sizer) :
  tally_in_range z -> counted z 0 [] = z.
Proof.
  unfold tally_in_range. intros H. destruct z as [[n] m l].
  unfold counted. cbn in *.
  now rewrite N.add_0_r, N.mod_small, app_nil_r.
Qed.

Lemma counted_counted (z : St Sizer) n1 l1 n2 l2 :
  counted (counted z n1 l1) n2 l2 = counted z (n1 + n2) (l1 ++ l2).
Proof.
  unfold counted. cbn [ctx mem log m_Size].
  rewrite N.Div0.add_mod_idemp_l, N.add_assoc, app_assoc. reflexivity.
Qed.

Lemma counted_in_range (z : St Sizer) n l :
  tally_in_range z -> tally_in_range (counted z n l).
Proof.
  intros _. unfold tally_in_range, counted. cbn.
  apply N.mod_upper_bound, size_t_max_nonzero.
Qed.

Lemma AddSizeOfMemory_counted (a_Size : N) (z : St Sizer) :
  AddSizeOfMemory a_Size z = counted z a_Size [EvAsMemory a_Size].
Proof. reflexivity. Qed.

Lemma run_hook_counted cls h (z : St Sizer) :
  tally_in_range z -> run_hook cls h z = counted z 0 [EvHook cls h].
Proof.
  unfold tally_in_range, run_hook, log_event, counted. intros H.
  destruct z as [[n] m l]. cbn in *.
  now rewrite N.add_0_r, N.mod_small.
Qed.

Lemma counts_skip {V : Type} : counts (@skip Sizer V) (fun _ => 0%N).
Proof.
  apply (@exact_skip _ _ counted tally_in_range 0%N). apply counted_zero.
Qed.

Lemma counts_for_both {A B : Type} (F : Functor Sizer A)
    (G : Functor Sizer B) f g :
  counts F f -> counts G g ->
  counts (for_both F G) (fun v => f (fst v) + g (snd v))%N.
Proof.
  apply (@exact_for_both _ _ counted tally_in_range N.add);
    auto using counted_counted, counted_in_range.
Qed.

Lemma counts_on_members {A B : Type} (G : Functor Sizer B) g :
  counts G g -> counts (@on_members Sizer A B G) (fun v => g (snd v)).
Proof. apply (@exact_on_members _ _ counted). Qed.

Lemma counts_for_each {V : Type} (F : Functor Sizer V) f :
  counts F f -> counts (for_each F) (sum_N f).
Proof.
  apply (@exact_for_each _ _ counted tally_in_range N.add 0%N);
    auto using counted_zero, counted_counted, counted_in_range.
Qed.

Lemma counts_sized {V : Type} (F : Functor Sizer V) f (w : N) :
  counts F f ->
  counts (fun z a_Container => for_each F (AddSizeOfMemory w z) a_Container)
         (fun l => w + sum_N f l)%N.
Proof.
  intros H z l Hz. rewrite AddSizeOfMemory_counted.
  pose proof (counts_for_each H) as Hl.
  destruct (Hl (counted z w [EvAsMemory w]) l (counted_in_range _ _ Hz))
    as [lg ->].
  eexists. now rewrite counted_counted.
Qed.

Lemma counts_SizeOf {V : Type} cls h n (body : Functor Sizer V) f :
  counts body f ->
  counts (Serialisation_SizeOf cls h n body)
         (fun v => if HasOnSize h then f v else N.of_nat n).
Proof.
  intros H z v Hz. unfold Serialisation_SizeOf. destruct (HasOnSize h).
  - rewrite run_hook_counted by assumption.
    destruct (H (counted z 0 [EvHook cls OnSize]) v (counted_in_range _ _ Hz))
      as [lg ->].
    rewrite counted_counted. eexists. reflexivity.
  - rewrite AddSizeOfMemory_counted. eexists. reflexivity.
Qed.

Lemma counts_priority_queue {V : Type} (F : Functor Sizer V) f :
  counts F f ->
  counts (AddSizeOfContainer_priority_queue F)
         (fun l => N.of_nat sizeof_size_t + sum_N f l)%N.
Proof.
  intros H z l Hz. unfold AddSizeOfContainer_priority_queue.
  pose proof (counts_sized (N.of_nat sizeof_size_t) H) as Hv.
  destruct (Hv z l Hz) as [lg E].
  unfold AddSizeOfContainer_vector. rewrite E. now exists lg.
Qed.

Theorem plus_spec :
  (forall t, counts (operator_plus t) (measure t))
  /\ (forall ts, counts (SizeOfVariadic ts) (measures ts)).
Proof.
  apply Ty_TyList_ind.
  - (* TLeaf *) intros n. cbn [operator_plus measure].
    apply (counts_SizeOf EmptyString no_hooks n (f := fun _ => 0%N)).
    apply counts_skip.
  - (* TObject *) intros cls h n ms IH. cbn [operator_plus measure].
    apply (counts_SizeOf cls h n). now apply counts_on_members.
  - (* TPair *) intros a IHa b IHb. cbn [operator_plus measure].
    apply (counts_for_both IHa IHb).
  - (* TTuple *) intros ts IH. exact IH.
  - (* TString *) intros cs z v Hz. cbn [operator_plus measure].
    unfold AddSizeOfContainer_basic_string.
    rewrite !AddSizeOfMemory_counted, counted_counted. eexists. reflexivity.
  - (* TFixed *) intros k n t IH. destruct k; cbn [operator_plus measure];
      apply (counts_sized (N.of_nat sizeof_size_t) IH).
  - (* TSeq *) intros k t IH.
    destruct k; cbn [operator_plus measure count_width];
      try apply (counts_sized (N.of_nat sizeof_size_t) IH);
      try apply (counts_sized (N.of_nat sizeof_ptrdiff_t) IH).
    now apply counts_priority_queue.
  - (* TMap *) intros k a IHa b IHb.
    pose proof (counts_for_both IHa IHb) as Hp.
    destruct k; cbn [operator_plus measure];
      apply (counts_sized (N.of_nat sizeof_size_t) Hp).
  - (* TSet *) intros k t IH. destruct k; cbn [operator_plus measure];
      apply (counts_sized (N.of_nat sizeof_size_t) IH).
  - (* TNil *) apply counts_skip.
  - (* TCons *) intros t IHt ts IHts. cbn [SizeOfVariadic measures].
    apply (counts_for_both IHt IHts).
Qed.

(** ** The measure is the length of the wire *)

Lemma length_flat_map_sum {V : Type} (f : V -> list byte) (l : list V) :
  N.of_nat (length (flat_map f l)) = sum_N (fun x => N.of_nat (length (f x))) l.
Proof.
  induction l as [|x l IH]; cbn [flat_map sum_N fold_right length].
  - reflexivity.
  - rewrite length_app, Nat2N.inj_add. unfold sum_N in IH. now rewrite IH.
Qed.

Lemma sum_N_ext {V : Type} (f g : V -> N) (l : list V) :
  (forall x, f x = g x) -> sum_N f l = sum_N g l.
Proof.
  intros H. induction l as [|x l IH]; cbn [sum_N fold_right]; [reflexivity|].
  unfold sum_N in IH. now rewrite H, IH.
Qed.

Lemma length_chars (cs : nat) (l : list N) :
  N.of_nat (length (flat_map (le_bytes cs) l))
  = (N.of_nat cs * container_size l)%N.
Proof.
  unfold container_size.
  induction l as [|c l IH]; cbn [flat_map length].
  - lia.
  - rewrite length_app, length_le_bytes, Nat2N.inj_add, IH. lia.
Qed.

Lemma length_count_repr (k : SeqKind) {V : Type} (l : list V) :
  length (count_repr k l) = count_width k.
Proof.
  destruct k; cbn [count_repr count_width];
    unfold size_t_repr, ptrdiff_t_repr; apply length_le_bytes.
Qed.

Lemma measure_wire :
  (forall t, size_hook_matches t = true ->
     forall v, measure t v = N.of_nat (length (wire t v)))
  /\ (forall ts, size_hooks_match ts = true ->
        forall v, measures ts v = N.of_nat (length (wires ts v))).
Proof.
  apply Ty_TyList_ind.
  - intros n _ v. cbn [measure wire].
    now rewrite length_object_representation.
  - intros cls h n ms IH H v. cbn [measure wire size_hook_matches] in *.
    apply andb_prop in H. destruct H as [Hh Hm].
    apply Bool.eqb_prop in Hh. rewrite Hh.
    destruct (HasOnSerialise h).
    + now apply IH.
    + now rewrite length_object_representation.
  - intros a IHa b IHb H v. cbn [measure wire size_hook_matches] in *.
    apply andb_prop in H. destruct H as [Ha Hb].
    rewrite length_app, Nat2N.inj_add, IHa, IHb by assumption. reflexivity.
  - intros ts IH H v. now apply IH.
  - intros cs _ v. cbn [measure wire].
    rewrite length_app, Nat2N.inj_add, length_chars.
    unfold size_t_repr. now rewrite length_le_bytes.
  - intros k n t IH H v. cbn [measure wire size_hook_matches] in *.
    rewrite length_app, Nat2N.inj_add, length_flat_map_sum.
    unfold size_t_repr. rewrite length_le_bytes. f_equal.
    apply sum_N_ext. intros x. now apply IH.
  - intros k t IH H v. cbn [measure wire size_hook_matches] in *.
    rewrite length_app, Nat2N.inj_add, length_flat_map_sum, length_count_repr.
    f_equal. apply sum_N_ext. intros x. now apply IH.
  - intros k a IHa b IHb H v. cbn [measure wire size_hook_matches] in *.
    apply andb_prop in H. destruct H as [Ha Hb].
    rewrite length_app, Nat2N.inj_add, length_flat_map_sum.
    unfold size_t_repr. rewrite length_le_bytes. f_equal.
    apply sum_N_ext. intros x.
    rewrite length_app, Nat2N.inj_add, IHa, IHb by assumption. reflexivity.
  - intros k t IH H v. cbn [measure wire size_hook_matches] in *.
    rewrite length_app, Nat2N.inj_add, length_flat_map_sum.
    unfold size_t_repr. rewrite length_le_bytes. f_equal.
    apply sum_N_ext. intros x. now apply IH.
  - intros _ v. reflexivity.
  - intros t IHt ts IHts H v. cbn [measures wires size_hooks_match] in *.
    apply andb_prop in H. destruct H as [Ha Hb].
    rewrite length_app, Nat2N.inj_add, IHt, IHts by assumption. reflexivity.
Qed.

Lemma new_Sizer_in_range (m : Memory) : tally_in_range (new_Sizer m).
Proof.
  unfold tally_in_range, new_Sizer. cbn.
  pose proof size_t_max_nonzero. lia.
Qed.

(** C1, as amended.  When every class of the type declares [OnSize] exactly
    when it declares [OnSerialise], the tally a fresh Sizer reaches by
    measuring a value is the byte count a fresh Serialiser reports after
    writing it. *)
Theorem size_exactness (t : Ty) (v : Val t) (a_Data : N) (m m' : Memory) :
  size_hook_matches t = true ->
  operator_size_t (fst (fst (operator_plus t (new_Sizer m') v)))
  = GetBytesWritten (fst (fst (operator_shl t (new_Serialiser a_Data m) v))).
Proof.
  intros H.
  destruct (proj1 plus_spec t (new_Sizer m') v (new_Sizer_in_range m'))
    as [lz ->].
  destruct (proj1 shl_spec t (new_Serialiser a_Data m) v I) as [ls ->].
  unfold operator_size_t, GetBytesWritten, counted, wrote. cbn.
  rewrite (proj1 measure_wire t H v). f_equal. lia.
Qed.

(** ** What a read does *)

Lemma consumed_zero (d : St Deserialiser) : consumed d 0 [] = d.
Proof.
  destruct d as [[a h] m l]. unfold consumed. cbn.
  now rewrite N.add_0_r, app_nil_r.
Qed.

Lemma consumed_consumed (d : St Deserialiser) n1 l1 n2 l2 :
  consumed (consumed d n1 l1) n2 l2 = consumed d (n1 + n2) (l1 ++ l2).
Proof.
  unfold consumed. cbn [ctx mem log m_Data m_Head].
  rewrite Nat2N.inj_add, N.add_assoc, app_assoc. reflexivity.
Qed.

Lemma run_hook_consumed cls h (d : St Deserialiser) :
  run_hook cls h d = consumed d 0 [EvHook cls h].
Proof.
  unfold run_hook, log_event, consumed. destruct d as [[a hd] m l]. cbn.
  now rewrite N.add_0_r.
Qed.

Lemma app_same_length {A : Type} (l1 l2 k1 k2 : list A) :
  length l1 = length k1 -> l1 ++ l2 = k1 ++ k2 -> l1 = k1 /\ l2 = k2.
Proof.
  revert k1. induction l1 as [|x l1 IH]; intros [|y k1] HL H;
    try discriminate; cbn in *.
  - now split.
  - injection H as -> H. injection HL as HL.
    destruct (IH k1 HL H) as [-> ->]. now split.
Qed.

Lemma holds_app (d : St Deserialiser) (b1 b2 : list byte) lg :
  holds d (b1 ++ b2) <->
  holds d b1 /\ holds (consumed d (length b1) lg) b2.
Proof.
  unfold holds, consumed. cbn [ctx mem m_Head].
  rewrite length_app, memcpy_from_app. split.
  - intros H. apply app_same_length in H; [exact H|].
    apply length_memcpy_from.
  - intros [-> ->]. reflexivity.
Qed.

Lemma DeserialiseAsMemory_holds (d : St Deserialiser) (bytes : list byte) :
  holds d bytes ->
  DeserialiseAsMemory (length bytes) d
  = (consumed d (length bytes) [EvAsMemory (N.of_nat (length bytes))], bytes).
Proof. intros H. unfold DeserialiseAsMemory. now rewrite H. Qed.

(** Reading the element count. *)
Lemma read_size (d : St Deserialiser) (c : N) (rest : list byte) :
  (c < size_t_max)%N ->
  holds d (size_t_repr c ++ rest) ->
  DeserialiseAsMemory sizeof_size_t d
  = (consumed d sizeof_size_t [EvAsMemory (N.of_nat sizeof_size_t)],
     size_t_repr c)
  /\ le_value (size_t_repr c) = c
  /\ holds (consumed d sizeof_size_t [EvAsMemory (N.of_nat sizeof_size_t)])
           rest.
Proof.
  intros Hc H.
  apply (holds_app d (size_t_repr c) rest
           [EvAsMemory (N.of_nat sizeof_size_t)]) in H.
  destruct H as [H1 H2].
  pose proof (DeserialiseAsMemory_holds H1) as E.
  unfold size_t_repr in *. rewrite length_le_bytes in *.
  repeat split; [exact E | | exact H2].
  apply le_value_le_bytes_small. exact Hc.
Qed.

Lemma reads_skip {V : Type} (v : V) : reads (@skip Deserialiser V) v [] v.
Proof. intros d _. exists []. unfold skip. cbn. now rewrite consumed_zero. Qed.

Lemma reads_for_both {A B : Type} (F : Functor Deserialiser A)
    (G : Functor Deserialiser B) da db ba bb a b :
  reads F da ba a -> reads G db bb b ->
  reads (for_both F G) (da, db) (ba ++ bb) (a, b).
Proof.
  intros HF HG d H. unfold for_both. cbn [fst snd].
  destruct (HF d) as [l1 E1].
  { now apply (holds_app d ba bb []) in H. }
  rewrite E1.
  destruct (HG (consumed d (length ba) l1)) as [l2 E2].
  { now apply (holds_app d ba bb l1) in H. }
  rewrite E2, consumed_consumed, length_app. now exists (l1 ++ l2).
Qed.

Lemma reads_on_members {A B : Type} (G : Functor Deserialiser B)
    (raw : A) db bb b :
  reads G db bb b -> reads (on_members G) (raw, db) bb (raw, b).
Proof.
  intros HG d H. unfold on_members. cbn [fst snd].
  destruct (HG d H) as [l ->]. now exists l.
Qed.

Lemma nth_error_middle {V : Type} (pre : list V) x post :
  nth_error (pre ++ x :: post) (length pre) = Some x.
Proof. induction pre as [|y pre IH]; cbn; [reflexivity | exact IH]. Qed.

Lemma assign_middle {V : Type} (pre : list V) x post y :
  assign (pre ++ x :: post) (length pre) y = pre ++ y :: post.
Proof. induction pre as [|z pre IH]; cbn; [reflexivity | now rewrite IH]. Qed.

(** One element read off the front of the stream. *)
Lemma reads_head {V : Type} (F : Functor Deserialiser V) (dflt : V)
    (bytes : list byte) (v : V) (rest : list byte) (d : St Deserialiser) :
  reads F dflt bytes v -> holds d (bytes ++ rest) ->
  exists lg, F d dflt = (consumed d (length bytes) lg, v, Normal)
             /\ holds (consumed d (length bytes) lg) rest.
Proof.
  intros Hv H.
  destruct (Hv d) as [lg E].
  { now apply (holds_app d bytes rest []) in H. }
  exists lg. split; [exact E|].
  now apply (holds_app d bytes rest lg) in H.
Qed.

Section ReadLoops.
Context {V : Type}.
Variable F : Functor Deserialiser V.
Variable dflt : V.
Variable f : V -> list byte.

Lemma reads_for_index (vs : list V) :
  Forall (fun v => reads F dflt (f v) v) vs ->
  forall pre post d, holds d (flat_map f vs) ->
    exists lg,
      for_index F (length vs) (length pre) d
                (pre ++ repeat dflt (length vs) ++ post)
      = (consumed d (length (flat_map f vs)) lg, pre ++ vs ++ post, Normal).
Proof.
  induction 1 as [|v vs Hv _ IH]; intros pre post d H.
  - exists []. cbn. now rewrite consumed_zero.
  - cbn [length repeat app for_index flat_map] in *.
    rewrite nth_error_middle.
    destruct (@reads_head _ _ _ _ _ _ _ Hv H) as [l1 [E1 H1]]. rewrite E1, assign_middle.
    destruct (IH (pre ++ [v]) post _ H1) as [l2 E2].
    rewrite length_app in E2. cbn [length] in E2.
    rewrite Nat.add_1_r, <- !app_assoc in E2. cbn [app] in E2.
    rewrite E2, consumed_consumed, length_app. now exists (l1 ++ l2).
Qed.

Lemma reads_emplace_back (vs : list V) :
  Forall (fun v => reads F dflt (f v) v) vs ->
  forall c d, holds d (flat_map f vs) ->
    exists lg,
      emplace_back_loop dflt F (length vs) d c
      = (consumed d (length (flat_map f vs)) lg, c ++ vs, Normal).
Proof.
  induction 1 as [|v vs Hv _ IH]; intros c d H.
  - exists []. cbn. now rewrite consumed_zero, app_nil_r.
  - cbn [length emplace_back_loop flat_map] in *.
    destruct (@reads_head _ _ _ _ _ _ _ Hv H) as [l1 [E1 H1]]. rewrite E1.
    destruct (IH (c ++ [v]) _ H1) as [l2 E2].
    rewrite <- app_assoc in E2. cbn [app] in E2.
    rewrite E2, consumed_consumed, length_app. now exists (l1 ++ l2).
Qed.

Lemma reads_emplace_after (vs : list V) :
  Forall (fun v => reads F dflt (f v) v) vs ->
  forall pre c d, holds d (flat_map f vs) ->
    exists lg,
      emplace_after_loop dflt F (length vs) (length pre) d (pre ++ c)
      = (consumed d (length (flat_map f vs)) lg, pre ++ vs ++ c, Normal).
Proof.
  induction 1 as [|v vs Hv _ IH]; intros pre c d H.
  - exists []. cbn. now rewrite consumed_zero.
  - cbn [length emplace_after_loop flat_map] in *.
    destruct (@reads_head _ _ _ _ _ _ _ Hv H) as [l1 [E1 H1]]. rewrite E1.
    rewrite firstn_app, firstn_all, Nat.sub_diag, firstn_O, app_nil_r.
    rewrite skipn_app, skipn_all, Nat.sub_diag, skipn_O. cbn [app].
    destruct (IH (pre ++ [v]) c _ H1) as [l2 E2].
    rewrite length_app in E2. cbn [length] in E2.
    rewrite Nat.add_1_r, <- !app_assoc in E2. cbn [app] in E2.
    rewrite E2, consumed_consumed, length_app. now exists (l1 ++ l2).
Qed.

Lemma reads_emplace_value (emplace : V -> list V -> list V) (vs : list V) :
  Forall (fun v => reads F dflt (f v) v) vs ->
  forall c d, holds d (flat_map f vs) ->
    exists lg,
      emplace_value_loop dflt F emplace (length vs) d c
      = (consumed d (length (flat_map f vs)) lg,
         fold_left (fun c e => emplace e c) vs c, Normal).
Proof.
  induction 1 as [|v vs Hv _ IH]; intros c d H.
  - exists []. cbn. now rewrite consumed_zero.
  - cbn [length emplace_value_loop flat_map fold_left] in *.
    destruct (@reads_head _ _ _ _ _ _ _ Hv H) as [l1 [E1 H1]]. rewrite E1.
    destruct (IH (emplace v c) _ H1) as [l2 E2].
    rewrite E2, consumed_consumed, length_app. now exists (l1 ++ l2).
Qed.
End ReadLoops.

Lemma reads_emplace_pair {K M : Type} (FK : Functor Deserialiser K)
    (FM : Functor Deserialiser M) dk dm fk fm
    (emplace : K * M -> list (K * M) -> list (K * M)) (es : list (K * M)) :
  Forall (fun e => reads FK dk (fk (fst e)) (fst e)
                   /\ reads FM dm (fm (snd e)) (snd e)) es ->
  forall c d, holds d (flat_map (fun e => fk (fst e) ++ fm (snd e)) es) ->
    exists lg,
      emplace_pair_loop dk dm FK FM emplace (length es) d c
      = (consumed d
           (length (flat_map (fun e => fk (fst e) ++ fm (snd e)) es)) lg,
         fold_left (fun c e => emplace e c) es c, Normal).
Proof.
  induction 1 as [|[k m] es [Hk Hm] _ IH]; intros c d H.
  - exists []. cbn. now rewrite consumed_zero.
  - cbn [length emplace_pair_loop flat_map fold_left fst snd] in *.
    rewrite <- app_assoc in H.
    destruct (@reads_head _ _ _ _ _ _ _ Hk H) as [l1 [E1 H1]]. rewrite E1.
    destruct (@reads_head _ _ _ _ _ _ _ Hm H1) as [l2 [E2 H2]]. rewrite E2.
    destruct (IH (emplace (k, m) c) _ H2) as [l3 E3].
    rewrite E3, !consumed_consumed, !length_app.
    exists (l1 ++ l2 ++ l3). do 3 f_equal. lia.
Qed.

(** ** Rebuilding a container by insertion *)

Lemma pairwise_middle {A : Type} (r : A -> A -> bool) (c : list A) e rest :
  pairwise r (c ++ e :: rest) = true -> forallb (fun x => r x e) c = true.
Proof.
  induction c as [|x c IH]; cbn [app pairwise forallb]; [reflexivity|].
  intros H. apply andb_prop in H. destruct H as [Hx Hc].
  rewrite forallb_app in Hx. apply andb_prop in Hx. destruct Hx as [_ Hx].
  cbn [forallb] in Hx. apply andb_prop in Hx. destruct Hx as [Hx _].
  now rewrite Hx, IH.
Qed.

Lemma fold_emplace_append {E : Type} (r : E -> E -> bool)
    (emplace : E -> list E -> list E) :
  (forall e c, forallb (fun x => r x e) c = true -> emplace e c = c ++ [e]) ->
  forall es c, pairwise r (c ++ es) = true ->
    fold_left (fun c e => emplace e c) es c = c ++ es.
Proof.
  intros Hemp es. induction es as [|e es IH]; intros c H; cbn [fold_left].
  - now rewrite app_nil_r.
  - rewrite (Hemp e c) by (eapply pairwise_middle; exact H).
    rewrite IH; rewrite <- app_assoc; [reflexivity | exact H].
Qed.

Section EmplaceAtEnd.
Context {E K : Type}.
Variable key : E -> K.
Variable less_K equal_to_K : K -> K -> bool.

Lemma insert_ordered_last (e : E) (c : list E) :
  forallb (fun x => negb (less_K (key e) (key x))) c = true ->
  insert_ordered key less_K e c = c ++ [e].
Proof.
  induction c as [|x c IH]; cbn [forallb insert_ordered app]; [reflexivity|].
  intros H. apply andb_prop in H. destruct H as [Hx Hc].
  apply negb_true_iff in Hx. now rewrite Hx, IH.
Qed.

Lemma emplace_ordered_unique_last (e : E) (c : list E) :
  forallb (fun x => less_K (key x) (key e)
                    && negb (less_K (key e) (key x))) c = true ->
  emplace_ordered_unique key less_K e c = c ++ [e].
Proof.
  intros H. unfold emplace_ordered_unique.
  assert (Hex : existsb (fun x => equivalent less_K (key x) (key e)) c
                = false).
  { induction c as [|x c IH]; cbn [existsb forallb] in *; [reflexivity|].
    apply andb_prop in H. destruct H as [Hx Hc].
    apply andb_prop in Hx. destruct Hx as [Hx _].
    unfold equivalent at 1. rewrite Hx. cbn. now apply IH. }
  rewrite Hex. apply insert_ordered_last.
  clear Hex. induction c as [|x c IH]; cbn [forallb] in *; [reflexivity|].
  apply andb_prop in H. destruct H as [Hx Hc].
  apply andb_prop in Hx. destruct Hx as [_ Hx].
  now rewrite Hx, IH.
Qed.

Lemma emplace_unordered_unique_last (e : E) (c : list E) :
  forallb (fun x => negb (equal_to_K (key x) (key e))) c = true ->
  emplace_unordered_unique key equal_to_K e c = c ++ [e].
Proof.
  intros H. unfold emplace_unordered_unique.
  assert (Hex : existsb (fun x => equal_to_K (key x) (key e)) c = false).
  { induction c as [|x c IH]; cbn [existsb forallb] in *; [reflexivity|].
    apply andb_prop in H. destruct H as [Hx Hc].
    apply negb_true_iff in Hx. rewrite Hx. now apply IH. }
  now rewrite Hex.
Qed.
End EmplaceAtEnd.

Lemma pairwise_true {A : Type} (l : list A) :
  pairwise (fun _ _ => true) l = true.
Proof.
  induction l as [|x l IH]; cbn [pairwise]; [reflexivity|].
  rewrite IH, andb_true_r. now apply forallb_forall.
Qed.

(** Reading back the entries of a map, in the order it iterates, rebuilds
    it. *)
Lemma map_rebuilt (k : MapKind) {K M : Type}
    (less_K equal_to_K : K -> K -> bool) (v : list (K * M)) :
  map_order k less_K equal_to_K v = true ->
  fold_left
    (fun c e =>
       match k with
       | std_map => emplace_ordered_unique (@fst K M) less_K e c
       | std_multimap => emplace_ordered_multi (@fst K M) less_K e c
       | std_unordered_map =>
           emplace_unordered_unique (@fst K M) equal_to_K e c
       | std_unordered_multimap => emplace_unordered_multi e c
       end) v []
  = v.
Proof.
  intros H. destruct k; cbn [map_order] in H.
  - apply (fold_emplace_append _ _ (emplace_ordered_unique_last _ _) v [] H).
  - apply (fold_emplace_append _ _ (insert_ordered_last _ _) v [] H).
  - apply (fold_emplace_append _ _ (emplace_unordered_unique_last _ _) v [] H).
  - apply (fold_emplace_append (fun _ _ => true) _ (fun e c _ => eq_refl) v []).
    apply pairwise_true.
Qed.

Lemma set_rebuilt (k : SetKind) {K : Type}
    (less_K equal_to_K : K -> K -> bool) (v : list K) :
  set_order k less_K equal_to_K v = true ->
  fold_left
    (fun c e =>
       match k with
       | std_set => emplace_ordered_unique (fun x : K => x) less_K e c
       | std_multiset => emplace_ordered_multi (fun x : K => x) less_K e c
       | std_unordered_set =>
           emplace_unordered_unique (fun x : K => x) equal_to_K e c
       | std_unordered_multiset => emplace_unordered_multi e c
       end) v []
  = v.
Proof.
  intros H. destruct k; cbn [set_order] in H.
  - apply (fold_emplace_append _ _
             (emplace_ordered_unique_last (fun x : K => x) _) v [] H).
  - apply (fold_emplace_append _ _
             (insert_ordered_last (fun x : K => x) _) v [] H).
  - apply (fold_emplace_append _ _
             (emplace_unordered_unique_last (fun x : K => x) _) v [] H).
  - apply (fold_emplace_append (fun _ _ => true) _ (fun e c _ => eq_refl) v []).
    apply pairwise_true.
Qed.

(** ** Characters, zeroed bytes, and the two count types *)

Lemma firstn_exact {A : Type} (n : nat) (l1 l2 : list A) :
  length l1 = n -> firstn n (l1 ++ l2) = l1.
Proof.
  intros <-. rewrite firstn_app, firstn_all, Nat.sub_diag, firstn_O.
  apply app_nil_r.
Qed.

Lemma skipn_exact {A : Type} (n : nat) (l1 l2 : list A) :
  length l1 = n -> skipn n (l1 ++ l2) = l2.
Proof.
  intros <-. now rewrite skipn_app, skipn_all, Nat.sub_diag, skipn_O.
Qed.

Lemma chars_of_bytes_chars (cs : nat) (v : list N) :
  forallb (fun c => N.ltb c (256 ^ N.of_nat cs)) v = true ->
  chars_of_bytes cs (length v) (flat_map (le_bytes cs) v) = v.
Proof.
  induction v as [|c v IH]; cbn [forallb length flat_map chars_of_bytes];
    [reflexivity|].
  intros H. apply andb_prop in H. destruct H as [Hc Hv].
  apply N.ltb_lt in Hc.
  rewrite firstn_exact, skipn_exact by apply length_le_bytes.
  rewrite le_value_le_bytes_small by exact Hc.
  now rewrite IH.
Qed.

Lemma zeroed_bytes (n : nat) (raw : list byte) :
  length raw = n -> forallb (Byte.eqb Byte.x00) raw = true ->
  raw = repeat Byte.x00 n.
Proof.
  intros <-. induction raw as [|b raw IH]; cbn [forallb length repeat];
    [reflexivity|].
  intros H. apply andb_prop in H. destruct H as [Hb Hr].
  apply Byte.byte_dec_bl in Hb. subst b. now rewrite <- IH.
Qed.

Lemma ptrdiff_t_repr_size_t_repr {V : Type} (l : list V) :
  sizeof_ptrdiff_t = sizeof_size_t ->
  (container_size l < size_t_max)%N ->
  ptrdiff_t_repr (std_distance l) = size_t_repr (container_size l).
Proof.
  unfold ptrdiff_t_repr, size_t_repr, std_distance, container_size,
    size_t_max.
  intros -> H. f_equal.
  rewrite Z.mod_small.
  - now rewrite <- nat_N_Z, N2Z.id.
  - split; [lia|].
    apply N2Z.inj_lt in H. rewrite N2Z.inj_pow, !nat_N_Z in H.
    exact H.
Qed.

(** ** Reading a container back *)

Unset Implicit Arguments.

Ltac read_header H c :=
  let E := fresh "E" in
  let Hv := fresh "Hv" in
  let Hr := fresh "Hr" in
  destruct (@read_size _ c _ ltac:(assumption) H) as [E [Hv Hr]];
  rewrite E; cbv zeta; cbn [fst snd]; rewrite Hv.

Ltac finish_read E :=
  rewrite E, consumed_consumed, length_app;
  unfold size_t_repr; rewrite length_le_bytes;
  eexists; reflexivity.

Section ReadContainers.
Context {V : Type}.
Variable F : Functor Deserialiser V.
Variable dflt : V.
Variable f : V -> list byte.
Variable vs : list V.
Hypothesis element_reads : Forall (fun v => reads F dflt (f v) v) vs.
Hypothesis size_fits : (container_size vs < size_t_max)%N.

Lemma reads_vector :
  reads (DeserialiseAsContainer_vector dflt F) []
        (size_t_repr (container_size vs) ++ flat_map f vs) vs.
Proof.
  intros d H. unfold DeserialiseAsContainer_vector.
  read_header H (container_size vs).
  unfold container_size, resize. rewrite Nat2N.id, firstn_nil, Nat.sub_0_r.
  destruct (@reads_for_index V F dflt f vs element_reads [] [] _ Hr)
    as [lg E'].
  cbn [app length] in E'. rewrite app_nil_r in E'. rewrite app_nil_r in E'.
  cbn [app]. finish_read E'.
Qed.

Lemma reads_deque :
  reads (DeserialiseAsContainer_deque dflt F) []
        (size_t_repr (container_size vs) ++ flat_map f vs) vs.
Proof. exact reads_vector. Qed.

Lemma reads_priority_queue :
  reads (DeserialiseAsContainer_priority_queue dflt F) []
        (size_t_repr (container_size vs) ++ flat_map f vs) vs.
Proof.
  intros d H. unfold DeserialiseAsContainer_priority_queue.
  destruct (reads_vector d H) as [lg ->]. now exists lg.
Qed.

Lemma reads_list (c : list V) :
  reads (DeserialiseAsContainer_list dflt F) c
        (size_t_repr (container_size vs) ++ flat_map f vs) (c ++ vs).
Proof.
  intros d H. unfold DeserialiseAsContainer_list.
  read_header H (container_size vs).
  unfold container_size. rewrite Nat2N.id.
  destruct (@reads_emplace_back V F dflt f vs element_reads c _ Hr)
    as [lg E'].
  finish_read E'.
Qed.

Lemma reads_forward_list (c : list V) :
  reads (DeserialiseAsContainer_forward_list dflt F) c
        (size_t_repr (container_size vs) ++ flat_map f vs) (vs ++ c).
Proof.
  intros d H. unfold DeserialiseAsContainer_forward_list.
  read_header H (container_size vs).
  unfold container_size. rewrite Nat2N.id.
  destruct (@reads_emplace_after V F dflt f vs element_reads [] c _ Hr)
    as [lg E'].
  cbn [app length] in E'. finish_read E'.
Qed.

Lemma reads_set_like (emplace : V -> list V -> list V) (c : list V) :
  reads (DeserialiseAsContainer_set_like dflt F emplace) c
        (size_t_repr (container_size vs) ++ flat_map f vs)
        (fold_left (fun c e => emplace e c) vs c).
Proof.
  intros d H. unfold DeserialiseAsContainer_set_like.
  read_header H (container_size vs).
  unfold container_size. rewrite Nat2N.id.
  destruct (@reads_emplace_value V F dflt f emplace vs element_reads c _ Hr)
    as [lg E'].
  finish_read E'.
Qed.

Lemma reads_fixed (N : nat) :
  length vs = N ->
  reads (DeserialiseAsContainer_c_array F N) (repeat dflt N)
        (size_t_repr (N.of_nat N) ++ flat_map f vs) vs
  /\ reads (DeserialiseAsContainer_array F N) (repeat dflt N)
           (size_t_repr (N.of_nat N) ++ flat_map f vs) vs.
Proof.
  intros HN.
  assert (Hfit : (N.of_nat N < size_t_max)%N).
  { rewrite <- HN. exact size_fits. }
  assert (Hboth : forall d,
             holds d (size_t_repr (N.of_nat N) ++ flat_map f vs) ->
             exists lg,
               (let '(d1, Size_bytes) := DeserialiseAsMemory sizeof_size_t d in
                let Size := le_value Size_bytes in
                let Size := if (N.of_nat N <? Size)%N
                            then N.of_nat N else Size in
                for_index F (N.to_nat Size) 0 d1 (repeat dflt N))
               = (consumed d
                    (length (size_t_repr (N.of_nat N) ++ flat_map f vs)) lg,
                  vs, Normal)).
  { intros d H. read_header H (N.of_nat N).
    rewrite N.ltb_irrefl, Nat2N.id.
    destruct (@reads_for_index V F dflt f vs element_reads [] [] _ Hr)
      as [lg E'].
    cbn [app length] in E'. rewrite !app_nil_r, HN in E'.
    finish_read E'. }
  split; intros d H; apply (Hboth d H).
Qed.
End ReadContainers.

Lemma reads_map_like {K M : Type} (FK : Functor Deserialiser K)
    (FM : Functor Deserialiser M) dk dm fk fm
    (emplace : K * M -> list (K * M) -> list (K * M))
    (es c : list (K * M)) :
  Forall (fun e => reads FK dk (fk (fst e)) (fst e)
                   /\ reads FM dm (fm (snd e)) (snd e)) es ->
  (container_size es < size_t_max)%N ->
  reads (DeserialiseAsContainer_map_like dk dm FK FM emplace) c
        (size_t_repr (container_size es)
         ++ flat_map (fun e => fk (fst e) ++ fm (snd e)) es)
        (fold_left (fun c e => emplace e c) es c).
Proof.
  intros Hes Hfit d H. unfold DeserialiseAsContainer_map_like.
  read_header H (container_size es).
  unfold container_size. rewrite Nat2N.id.
  destruct (@reads_emplace_pair K M FK FM dk dm fk fm emplace es Hes c _ Hr)
    as [lg E'].
  finish_read E'.
Qed.

Lemma reads_basic_string (cs : nat) (v : list N) :
  (container_size v < size_t_max)%N ->
  forallb (fun c => N.ltb c (256 ^ N.of_nat cs)) v = true ->
  reads (DeserialiseAsContainer_basic_string cs) []
        (size_t_repr (container_size v) ++ flat_map (le_bytes cs) v) v.
Proof.
  intros Hfit Hchars d H. unfold DeserialiseAsContainer_basic_string.
  read_header H (container_size v).
  unfold container_size, resize in *.
  rewrite Nat2N.id, firstn_nil, Nat.sub_0_r. cbn [app].
  rewrite repeat_length.
  assert (Hlen : length (flat_map (le_bytes cs) v) = cs * length v).
  { clear. induction v as [|c v IH]; cbn [flat_map length]; [lia|].
    rewrite length_app, length_le_bytes, IH. lia. }
  rewrite <- Hlen, (@DeserialiseAsMemory_holds _ _ Hr).
  rewrite chars_of_bytes_chars by exact Hchars.
  rewrite consumed_consumed, length_app.
  unfold size_t_repr. rewrite length_le_bytes.
  eexists. reflexivity.
Qed.

Lemma holds_consumed_zero (d : St Deserialiser) (lg : list Event)
    (bytes : list byte) :
  holds (consumed d 0 lg) bytes <-> holds d bytes.
Proof.
  unfold holds, consumed. cbn [ctx mem m_Head]. now rewrite N.add_0_r.
Qed.

Lemma before_hook_consumed (b : bool) cls h (d : St Deserialiser) :
  exists l0, (if b then run_hook cls h d else d) = consumed d 0 l0.
Proof.
  destruct b.
  - eexists. apply run_hook_consumed.
  - exists []. now rewrite consumed_zero.
Qed.

Lemma after_hook_consumed (b : bool) cls h (d : St Deserialiser) n lg :
  exists l1,
    (if b then run_hook cls h (consumed d n lg) else consumed d n lg)
    = consumed d n l1.
Proof.
  destruct b.
  - rewrite run_hook_consumed, consumed_consumed, Nat.add_0_r.
    eexists. reflexivity.
  - now exists lg.
Qed.

Lemma reads_Deserialise_hooked {V : Type} cls h n
    (store : V -> list byte -> V) (body : Functor Deserialiser V)
    dst bytes v :
  HasOnDeserialise h = true ->
  reads body dst bytes v ->
  reads (Serialisation_Deserialise cls h n store body) dst bytes v.
Proof.
  intros Hh Hb d H. unfold Serialisation_Deserialise. rewrite Hh.
  destruct (before_hook_consumed (HasOnBeforeDeserialise h) cls
              OnBeforeDeserialise d) as [l0 ->].
  rewrite run_hook_consumed, consumed_consumed.
  destruct (Hb (consumed d (0 + 0) (l0 ++ [EvHook cls OnDeserialise])))
    as [l1 ->].
  { now apply holds_consumed_zero. }
  rewrite consumed_consumed. cbn [Nat.add].
  destruct (after_hook_consumed (HasOnAfterDeserialise h) cls
              OnAfterDeserialise d (length bytes)
              ((l0 ++ [EvHook cls OnDeserialise]) ++ l1)) as [l2 ->].
  now exists l2.
Qed.

Lemma reads_Deserialise_raw {V : Type} cls h n
    (store : V -> list byte -> V) (body : Functor Deserialiser V)
    dst bytes v :
  HasOnDeserialise h = false ->
  length bytes = n -> store dst bytes = v ->
  reads (Serialisation_Deserialise cls h n store body) dst bytes v.
Proof.
  intros Hh Hn Hs d H. unfold Serialisation_Deserialise. rewrite Hh.
  destruct (before_hook_consumed (HasOnBeforeDeserialise h) cls
              OnBeforeDeserialise d) as [l0 ->].
  subst n. rewrite (@DeserialiseAsMemory_holds (consumed d 0 l0) bytes)
    by now apply holds_consumed_zero.
  rewrite consumed_consumed, Hs. cbn [Nat.add].
  destruct (after_hook_consumed (HasOnAfterDeserialise h) cls
              OnAfterDeserialise d (length bytes)
              (l0 ++ [EvAsMemory (N.of_nat (length bytes))])) as [l2 ->].
  now exists l2.
Qed.

Lemma Forall_forallb2 {A : Type} (p q : A -> bool) (P : A -> Prop)
    (l : list A) :
  (forall x, p x = true -> q x = true -> P x) ->
  forallb p l = true -> forallb q l = true -> Forall P l.
Proof.
  intros H. induction l as [|x l IH]; cbn [forallb]; intros Hp Hq.
  - constructor.
  - apply andb_prop in Hp. apply andb_prop in Hq.
    destruct Hp as [Hp1 Hp2]. destruct Hq as [Hq1 Hq2].
    constructor; auto.
Qed.

Ltac split_and H :=
  repeat match goal with
         | H' : (_ && _ = true) |- _ =>
             let H1 := fresh "Ha" in
             let H2 := fresh "Hb" in
             apply andb_prop in H'; destruct H' as [H1 H2]
         end.

Ltac to_props :=
  repeat match goal with
         | H : (Nat.eqb _ _ = true) |- _ => apply Nat.eqb_eq in H
         | H : (N.ltb _ _ = true) |- _ => apply N.ltb_lt in H
         | H : (Bool.eqb _ _ = true) |- _ => apply Bool.eqb_prop in H
         end.

Theorem shr_spec :
  (forall t, count_widths_agree t = true ->
     forall v, well_formed t v = true -> streams_whole_state t v = true ->
       reads (operator_shr t) (default_value t) (wire t v) v)
  /\ (forall ts, counts_widths_agree ts = true ->
        forall v, well_formeds ts v = true ->
          stream_whole_states ts v = true ->
          reads (DeserialiseVariadic ts) (default_values ts) (wires ts v) v).
Proof.
  apply Ty_TyList_ind.
  - (* TLeaf *) intros n _ v Hwf _. cbn [operator_shr default_value wire] in *.
    apply Nat.eqb_eq in Hwf.
    rewrite object_representation_exact by exact Hwf.
    now apply reads_Deserialise_raw.
  - (* TObject *) intros cls h n ms IH Hw [raw members] Hwf Hs.
    cbn [operator_shr default_value wire well_formed streams_whole_state
         count_widths_agree fst snd] in *.
    apply andb_prop in Hwf. destruct Hwf as [Hlen Hwf].
    apply andb_prop in Hs. destruct Hs as [Hsym Hs].
    to_props. destruct (HasOnSerialise h).
    + apply andb_prop in Hs. destruct Hs as [Hz Hs].
      rewrite (@zeroed_bytes n raw Hlen Hz).
      apply reads_Deserialise_hooked; [now symmetry|].
      apply reads_on_members. now apply IH.
    + destruct ms; [|discriminate]. destruct members.
      rewrite object_representation_exact by exact Hlen.
      apply reads_Deserialise_raw; [now symmetry | exact Hlen | reflexivity].
  - (* TPair *) intros a IHa b IHb Hw [x y] Hwf Hs.
    cbn [operator_shr default_value wire well_formed streams_whole_state
         count_widths_agree fst snd] in *.
    split_and Hwf.
    apply reads_for_both; [now apply IHa | now apply IHb].
  - (* TTuple *) intros ts IH Hw v Hwf Hs. now apply IH.
  - (* TString *) intros cs _ v Hwf _.
    cbn [operator_shr default_value wire well_formed] in *.
    apply andb_prop in Hwf. destruct Hwf as [Hfit Hchars]. to_props.
    now apply reads_basic_string.
  - (* TFixed *) intros k n t IH Hw v Hwf Hs.
    cbn [operator_shr default_value wire well_formed streams_whole_state
         count_widths_agree] in *. specialize (IH Hw).
    apply andb_prop in Hwf. destruct Hwf as [Hwf Hall].
    apply andb_prop in Hwf. destruct Hwf as [Hlen Hn]. to_props.
    assert (Hel : Forall (fun x => reads (operator_shr t) (default_value t)
                                     (wire t x) x) v).
    { apply (Forall_forallb2 _ _ _ _ (IH) Hall Hs). }
    assert (Hfit : (container_size v < size_t_max)%N).
    { unfold container_size. now rewrite Hlen. }
    destruct (reads_fixed (operator_shr t) (default_value t) (wire t) v
                Hel Hfit n Hlen) as [Hc Ha].
    destruct k; assumption.
  - (* TSeq *) intros k t IH Hw v Hwf Hs.
    cbn [operator_shr default_value wire well_formed streams_whole_state
         count_widths_agree] in *.
    apply andb_prop in Hw. destruct Hw as [Hk Hw]. specialize (IH Hw).
    apply andb_prop in Hwf. destruct Hwf as [Hfit Hall]. to_props.
    assert (Hel : Forall (fun x => reads (operator_shr t) (default_value t)
                                     (wire t x) x) v).
    { apply (Forall_forallb2 _ _ _ _ (IH) Hall Hs). }
    destruct k; cbn [count_repr].
    + now apply reads_vector.
    + apply (reads_list _ _ _ _ Hel Hfit []).
    + apply Nat.eqb_eq in Hk.
      rewrite ptrdiff_t_repr_size_t_repr by assumption.
      rewrite <- (app_nil_r v) at 3.
      apply (reads_forward_list _ _ _ _ Hel Hfit []).
    + now apply reads_deque.
    + now apply reads_deque.
    + now apply reads_priority_queue.
    + now apply reads_deque.
  - (* TMap *) intros k a IHa b IHb Hw v Hwf Hs.
    cbn [operator_shr default_value wire well_formed streams_whole_state
         count_widths_agree] in *.
    apply andb_prop in Hw. destruct Hw as [Hwa Hwb].
    specialize (IHa Hwa). specialize (IHb Hwb).
    apply andb_prop in Hwf. destruct Hwf as [Hwf Hord].
    apply andb_prop in Hwf. destruct Hwf as [Hfit Hall]. to_props.
    assert (Hel : Forall (fun e =>
                reads (operator_shr a) (default_value a) (wire a (fst e))
                      (fst e)
                /\ reads (operator_shr b) (default_value b) (wire b (snd e))
                         (snd e)) v).
    { apply (Forall_forallb2 _ _ _ _ (fun e Hp Hq =>
               match andb_prop _ _ Hp, andb_prop _ _ Hq with
               | conj p1 p2, conj q1 q2 =>
                   conj (IHa (fst e) p1 q1) (IHb (snd e) p2 q2)
               end) Hall Hs). }
    pose proof (@map_rebuilt k _ _ (less a) (equal_to a) v Hord) as Hre.
    destruct k; rewrite <- Hre at 3;
      apply (reads_map_like _ _ _ _ _ _ _ v [] Hel Hfit).
  - (* TSet *) intros k t IH Hw v Hwf Hs.
    cbn [operator_shr default_value wire well_formed streams_whole_state
         count_widths_agree] in *. specialize (IH Hw).
    apply andb_prop in Hwf. destruct Hwf as [Hwf Hord].
    apply andb_prop in Hwf. destruct Hwf as [Hfit Hall]. to_props.
    assert (Hel : Forall (fun x => reads (operator_shr t) (default_value t)
                                     (wire t x) x) v).
    { apply (Forall_forallb2 _ _ _ _ (IH) Hall Hs). }
    pose proof (@set_rebuilt k _ (less t) (equal_to t) v Hord) as Hre.
    destruct k; rewrite <- Hre at 3;
      apply (reads_set_like _ _ _ _ Hel Hfit _ []).
  - (* TNil *) intros _ [] _ _. apply reads_skip.
  - (* TCons *) intros t IHt ts IHts Hw [x xs] Hwf Hs.
    cbn [DeserialiseVariadic default_values wires well_formeds
         stream_whole_states counts_widths_agree fst snd] in *.
    split_and Hwf.
    apply reads_for_both; [now apply IHt | now apply IHts].
Qed.

(** C2, as amended.  A well-formed value whose classes declare
    [OnDeserialise] exactly when they declare [OnSerialise] (the hooks
    carrying the state of the object), and whose forward lists have their
    count written as wide as it is read, is read back, from the buffer a
    fresh Serialiser wrote it to, into a freshly constructed destination:
    the destination then equals the value, the read returns normally, and
    its head stands where the write's head stood. *)
Theorem round_trip (t : Ty) (v : Val t) (a_Data : N) (m : Memory) :
  count_widths_agree t = true ->
  well_formed t v = true ->
  streams_whole_state t v = true ->
  let s := fst (fst (operator_shl t (new_Serialiser a_Data m) v)) in
  let r := operator_shr t (new_Deserialiser a_Data (mem s))
                        (default_value t) in
  snd (fst r) = v /\ snd r = Normal
  /\ m_Head (ctx (fst (fst r))) = m_Head (ctx s).
Proof.
  intros Hw Hwf Hs.
  destruct (proj1 shl_spec t (new_Serialiser a_Data m) v I) as [ls E].
  rewrite E. cbn [fst snd].
  assert (H : holds (new_Deserialiser a_Data
                       (mem (wrote (new_Serialiser a_Data m) (wire t v) ls)))
                    (wire t v)).
  { unfold holds, wrote, new_Deserialiser, new_Serialiser.
    cbn [ctx mem m_Head]. apply memcpy_from_to. }
  destruct (proj1 shr_spec t Hw v Hwf Hs _ H) as [ld E'].
  rewrite E'. cbn. auto.
Qed.

(** ** A read only advances, whatever it reads *)

Lemma advances_refl (d : St Deserialiser) : advances d d.
Proof.
  unfold advances. repeat split; try reflexivity.
  exists []. now rewrite app_nil_r.
Qed.

Lemma advances_trans (d1 d2 d3 : St Deserialiser) :
  advances d1 d2 -> advances d2 d3 -> advances d1 d3.
Proof.
  intros (Ha & Hb & Hc & l1 & Hd) (Ha' & Hb' & Hc' & l2 & Hd').
  unfold advances. repeat split.
  - congruence.
  - lia.
  - congruence.
  - exists (l1 ++ l2). now rewrite Hd', Hd, app_assoc.
Qed.

Lemma advances_run_hook cls h (d : St Deserialiser) :
  advances d (run_hook cls h d).
Proof.
  unfold advances, run_hook, log_event. cbn. repeat split; try reflexivity.
  now eexists.
Qed.

Lemma advances_DeserialiseAsMemory (n : nat) (d : St Deserialiser) :
  advances d (fst (DeserialiseAsMemory n d)).
Proof.
  unfold advances, DeserialiseAsMemory. cbn. repeat split; try reflexivity.
  - lia.
  - now eexists.
Qed.

Lemma steady_skip {V : Type} : steady (@skip Deserialiser V).
Proof. intros d v. split; [apply advances_refl | reflexivity]. Qed.

Lemma steady_for_both {A B : Type} (F : Functor Deserialiser A)
    (G : Functor Deserialiser B) :
  steady F -> steady G -> steady (for_both F G).
Proof.
  intros HF HG d [a b]. unfold for_both. cbn [fst snd].
  destruct (HF d a) as [A1 O1].
  destruct (F d a) as [[d1 a'] o1]. cbn [fst snd] in *. subst o1.
  destruct (HG d1 b) as [A2 O2].
  destruct (G d1 b) as [[d2 b'] o2]. cbn [fst snd] in *. subst o2.
  split; [eapply advances_trans; eassumption | reflexivity].
Qed.

Lemma steady_on_members {A B : Type} (G : Functor Deserialiser B) :
  steady G -> steady (@on_members Deserialiser A B G).
Proof.
  intros HG d [a b]. unfold on_members. cbn [fst snd].
  destruct (HG d b) as [A2 O2].
  destruct (G d b) as [[d2 b'] o2]. cbn [fst snd] in *. now split.
Qed.

Section SteadyLoops.
Context {V : Type}.
Variable F : Functor Deserialiser V.
Hypothesis HF : steady F.

Lemma steady_for_each : steady (for_each F).
Proof.
  intros d l. revert d. induction l as [|x l IH]; intros d.
  - cbn. split; [apply advances_refl | reflexivity].
  - cbn [for_each]. destruct (HF d x) as [A1 O1].
    destruct (F d x) as [[d1 x'] o1]. cbn [fst snd] in *. subst o1.
    destruct (IH d1) as [A2 O2].
    destruct (for_each F d1 l) as [[d2 l'] o2]. cbn [fst snd] in *.
    split; [eapply advances_trans; eassumption | exact O2].
Qed.

Lemma steady_for_index (n i : nat) : steady (for_index F n i).
Proof.
  revert i. induction n as [|n IH]; intros i d l.
  - cbn. split; [apply advances_refl | reflexivity].
  - cbn [for_index]. destruct (nth_error l i) as [x|].
    + destruct (HF d x) as [A1 O1].
      destruct (F d x) as [[d1 x'] o1]. cbn [fst snd] in *. subst o1.
      destruct (IH (S i) d1 (assign l i x')) as [A2 O2].
      split; [eapply advances_trans; eassumption | exact O2].
    + cbn. split; [apply advances_refl | reflexivity].
Qed.

Lemma steady_emplace_back (dflt : V) (n : nat) :
  steady (emplace_back_loop dflt F n).
Proof.
  induction n as [|n IH]; intros d l.
  - cbn. split; [apply advances_refl | reflexivity].
  - cbn [emplace_back_loop]. destruct (HF d dflt) as [A1 O1].
    destruct (F d dflt) as [[d1 x'] o1]. cbn [fst snd] in *. subst o1.
    destruct (IH d1 (l ++ [x'])) as [A2 O2].
    split; [eapply advances_trans; eassumption | exact O2].
Qed.

Lemma steady_emplace_after (dflt : V) (n pos : nat) :
  steady (emplace_after_loop dflt F n pos).
Proof.
  revert pos. induction n as [|n IH]; intros pos d l.
  - cbn. split; [apply advances_refl | reflexivity].
  - cbn [emplace_after_loop]. destruct (HF d dflt) as [A1 O1].
    destruct (F d dflt) as [[d1 x'] o1]. cbn [fst snd] in *. subst o1.
    destruct (IH (S pos) d1 (firstn pos l ++ x' :: skipn pos l)) as [A2 O2].
    split; [eapply advances_trans; eassumption | exact O2].
Qed.

Lemma steady_emplace_value (dflt : V) (emplace : V -> list V -> list V)
    (n : nat) :
  steady (emplace_value_loop dflt F emplace n).
Proof.
  induction n as [|n IH]; intros d l.
  - cbn. split; [apply advances_refl | reflexivity].
  - cbn [emplace_value_loop]. destruct (HF d dflt) as [A1 O1].
    destruct (F d dflt) as [[d1 x'] o1]. cbn [fst snd] in *. subst o1.
    destruct (IH d1 (emplace x' l)) as [A2 O2].
    split; [eapply advances_trans; eassumption | exact O2].
Qed.
End SteadyLoops.

Lemma steady_emplace_pair {K M : Type} (FK : Functor Deserialiser K)
    (FM : Functor Deserialiser M) (dk : K) (dm : M)
    (emplace : K * M -> list (K * M) -> list (K * M)) (n : nat) :
  steady FK -> steady FM ->
  steady (emplace_pair_loop dk dm FK FM emplace n).
Proof.
  intros HK HM. induction n as [|n IH]; intros d l.
  - cbn. split; [apply advances_refl | reflexivity].
  - cbn [emplace_pair_loop]. destruct (HK d dk) as [A1 O1].
    destruct (FK d dk) as [[d1 k'] o1]. cbn [fst snd] in *. subst o1.
    destruct (HM d1 dm) as [A2 O2].
    destruct (FM d1 dm) as [[d2 m'] o2]. cbn [fst snd] in *. subst o2.
    destruct (IH d2 (emplace (k', m') l)) as [A3 O3].
    split; [|exact O3].
    eapply advances_trans; [eassumption|].
    eapply advances_trans; eassumption.
Qed.

Ltac steady_header d :=
  let A0 := fresh "A0" in
  let d1 := fresh "d" in
  let Size_bytes := fresh "Size_bytes" in
  pose proof (advances_DeserialiseAsMemory sizeof_size_t d) as A0;
  destruct (DeserialiseAsMemory sizeof_size_t d) as [d1 Size_bytes];
  cbn [fst] in A0; cbv zeta.

Ltac steady_loop L :=
  let A := fresh "A" in
  let O := fresh "O" in
  destruct L as [A O];
  split; [eapply advances_trans; eassumption | exact O].

Section SteadyOverloads.
Context {V : Type}.
Variable F : Functor Deserialiser V.
Variable dflt : V.
Hypothesis HF : steady F.

Lemma steady_c_array (N : nat) : steady (DeserialiseAsContainer_c_array F N).
Proof.
  intros d l. unfold DeserialiseAsContainer_c_array. steady_header d.
  steady_loop (steady_for_index F HF
                 (N.to_nat (if (N.of_nat N <? le_value Size_bytes)%N
                            then N.of_nat N else le_value Size_bytes))
                 0 d0 l).
Qed.

Lemma steady_array (N : nat) : steady (DeserialiseAsContainer_array F N).
Proof. exact (steady_c_array N). Qed.

Lemma steady_vector : steady (DeserialiseAsContainer_vector dflt F).
Proof.
  intros d l. unfold DeserialiseAsContainer_vector. steady_header d.
  steady_loop (steady_for_index F HF (N.to_nat (le_value Size_bytes)) 0 d0
                 (resize (N.to_nat (le_value Size_bytes)) dflt l)).
Qed.

Lemma steady_deque : steady (DeserialiseAsContainer_deque dflt F).
Proof. exact steady_vector. Qed.

Lemma steady_priority_queue :
  steady (DeserialiseAsContainer_priority_queue dflt F).
Proof.
  intros d l. unfold DeserialiseAsContainer_priority_queue.
  destruct (steady_vector d l) as [A O].
  destruct (DeserialiseAsContainer_vector dflt F d l) as [[d1 l'] o].
  cbn [fst snd] in *. subst o. now split.
Qed.

Lemma steady_list : steady (DeserialiseAsContainer_list dflt F).
Proof.
  intros d l. unfold DeserialiseAsContainer_list. steady_header d.
  steady_loop (steady_emplace_back F HF dflt
                 (N.to_nat (le_value Size_bytes)) d0 l).
Qed.

Lemma steady_forward_list :
  steady (DeserialiseAsContainer_forward_list dflt F).
Proof.
  intros d l. unfold DeserialiseAsContainer_forward_list. steady_header d.
  steady_loop (steady_emplace_after F HF dflt
                 (N.to_nat (le_value Size_bytes)) 0 d0 l).
Qed.

Lemma steady_set_like (emplace : V -> list V -> list V) :
  steady (DeserialiseAsContainer_set_like dflt F emplace).
Proof.
  intros d l. unfold DeserialiseAsContainer_set_like. steady_header d.
  steady_loop (steady_emplace_value F HF dflt emplace
                 (N.to_nat (le_value Size_bytes)) d0 l).
Qed.
End SteadyOverloads.

Lemma steady_map_like {K M : Type} (FK : Functor Deserialiser K)
    (FM : Functor Deserialiser M) (dk : K) (dm : M)
    (emplace : K * M -> list (K * M) -> list (K * M)) :
  steady FK -> steady FM ->
  steady (DeserialiseAsContainer_map_like dk dm FK FM emplace).
Proof.
  intros HK HM d l. unfold DeserialiseAsContainer_map_like. steady_header d.
  steady_loop (steady_emplace_pair FK FM dk dm emplace
                 (N.to_nat (le_value Size_bytes)) HK HM d0 l).
Qed.

Lemma steady_basic_string (cs : nat) :
  steady (DeserialiseAsContainer_basic_string cs).
Proof.
  intros d l. unfold DeserialiseAsContainer_basic_string. steady_header d.
  pose proof (advances_DeserialiseAsMemory
                (cs * N.to_nat (le_value Size_bytes)) d0) as A1.
  destruct (DeserialiseAsMemory (cs * N.to_nat (le_value Size_bytes)) d0)
    as [d2 data].
  cbn [fst snd] in *. split; [|reflexivity].
  eapply advances_trans; eassumption.
Qed.

Lemma steady_Deserialise {V : Type} cls h n (store : V -> list byte -> V)
    (body : Functor Deserialiser V) :
  steady body -> steady (Serialisation_Deserialise cls h n store body).
Proof.
  intros Hb d v. unfold Serialisation_Deserialise.
  set (d0 := if HasOnBeforeDeserialise h then _ else d).
  assert (A0 : advances d d0).
  { subst d0. destruct (HasOnBeforeDeserialise h);
      [apply advances_run_hook | apply advances_refl]. }
  clearbody d0.
  assert (Hcore : exists d1 v1,
             (if HasOnDeserialise h
              then body (run_hook cls OnDeserialise d0) v
              else let '(d', bytes) := DeserialiseAsMemory n d0 in
                   (d', store v bytes, Normal))
             = (d1, v1, Normal) /\ advances d0 d1).
  { destruct (HasOnDeserialise h).
    - destruct (Hb (run_hook cls OnDeserialise d0) v) as [A O].
      destruct (body (run_hook cls OnDeserialise d0) v) as [[d1 v1] o].
      cbn [fst snd] in *. subst o. exists d1, v1. split; [reflexivity|].
      eapply advances_trans; [apply advances_run_hook | exact A].
    - pose proof (advances_DeserialiseAsMemory n d0) as A.
      destruct (DeserialiseAsMemory n d0) as [d1 bytes]. cbn [fst] in A.
      now exists d1, (store v bytes). }
  destruct Hcore as (d1 & v1 & -> & A1). cbn [fst snd].
  split; [|reflexivity].
  eapply advances_trans; [exact A0|].
  eapply advances_trans; [exact A1|].
  destruct (HasOnAfterDeserialise h);
    [apply advances_run_hook | apply advances_refl].
Qed.

Theorem shr_steady :
  (forall t, steady (operator_shr t))
  /\ (forall ts, steady (DeserialiseVariadic ts)).
Proof.
  apply Ty_TyList_ind.
  - intros n. cbn [operator_shr]. apply steady_Deserialise, steady_skip.
  - intros cls h n ms IH. cbn [operator_shr].
    apply steady_Deserialise. now apply steady_on_members.
  - intros a IHa b IHb. cbn [operator_shr]. now apply steady_for_both.
  - intros ts IH. exact IH.
  - intros cs. cbn [operator_shr]. apply steady_basic_string.
  - intros k n t IH. destruct k; cbn [operator_shr];
      [now apply steady_c_array | now apply steady_array].
  - intros k t IH. destruct k; cbn [operator_shr].
    + now apply steady_vector.
    + now apply steady_list.
    + now apply steady_forward_list.
    + now apply steady_deque.
    + now apply steady_deque.
    + now apply steady_priority_queue.
    + now apply steady_deque.
  - intros k a IHa b IHb. destruct k; cbn [operator_shr];
      now apply steady_map_like.
  - intros k t IH. destruct k; cbn [operator_shr];
      now apply steady_set_like.
  - apply steady_skip.
  - intros t IHt ts IHts. cbn [DeserialiseVariadic].
    now apply steady_for_both.
Qed.

(** ** Fixed-size containers *)

Lemma skipn_past {A : Type} (n : nat) (l1 l2 : list A) :
  skipn (length l1 + n) (l1 ++ l2) = skipn n l2.
Proof. induction l1 as [|x l1 IH]; cbn; [reflexivity | exact IH]. Qed.

(** The index loop over [n] slots from [i] is the range loop over those
    slots; the other slots are not touched. *)
Lemma for_index_for_each {C V : Type} (F : Functor C V) (n : nat) :
  forall (i : nat) (s : St C) (l : list V),
    i + n <= length l ->
    for_index F n i s l
    = (let '(s', slots, o) := for_each F s (firstn n (skipn i l)) in
       (s', firstn i l ++ slots ++ skipn (i + n) l, o)).
Proof.
  induction n as [|n IH]; intros i s l Hlen.
  - cbn [for_index firstn for_each app]. rewrite Nat.add_0_r.
    now rewrite firstn_skipn.
  - cbn [for_index].
    destruct (nth_error l i) as [x|] eqn:Hx.
    2:{ apply nth_error_None in Hx. lia. }
    apply nth_error_split in Hx. destruct Hx as (pre & post & -> & Hi).
    subst i.
    rewrite (@skipn_exact V (length pre) pre (x :: post) eq_refl).
    rewrite (@firstn_exact V (length pre) pre (x :: post) eq_refl).
    cbn [firstn for_each].
    rewrite skipn_past. cbn [skipn].
    destruct (F s x) as [[s1 x'] [|]];
      rewrite (@assign_middle V pre x post).
    + rewrite IH.
      2:{ rewrite length_app in *. cbn [length] in *. lia. }
      replace (S (length pre)) with (length (pre ++ [x']))
        by (rewrite length_app; cbn; lia).
      replace (pre ++ x' :: post) with ((pre ++ [x']) ++ post)
        by now rewrite <- app_assoc.
      rewrite (@skipn_exact V _ (pre ++ [x']) post eq_refl).
      rewrite (@firstn_exact V _ (pre ++ [x']) post eq_refl).
      rewrite skipn_past.
      destruct (for_each F s1 (firstn n post)) as [[s2 slots] o].
      now rewrite <- app_assoc.
    + cbn [app]. now rewrite firstn_skipn.
Qed.

Lemma truncated_count (N : nat) (Size : BinNums.N) :
  N.to_nat (if (N.of_nat N <? Size)%N then N.of_nat N else Size)
  = Nat.min N (N.to_nat Size).
Proof.
  destruct (N.ltb_spec (N.of_nat N) Size); lia.
Qed.

Lemma shr_leaf (sz : nat) (d : St Deserialiser) (x : list byte) :
  operator_shr (TLeaf sz) d x
  = (consumed d sz [EvAsMemory (N.of_nat sz)],
     memcpy_from (mem d) (m_Head (ctx d)) sz, Normal).
Proof. reflexivity. Qed.

(** A range loop over leaves moves the head by their size each. *)
Lemma for_each_leaves (sz : nat) (l : list (list byte))
    (d : St Deserialiser) :
  exists lg l',
    for_each (operator_shr (TLeaf sz)) d l
    = (consumed d (sz * length l) lg, l', Normal).
Proof.
  revert d. induction l as [|x l IH]; intros d.
  - exists [], []. cbn. now rewrite Nat.mul_0_r, consumed_zero.
  - cbn [for_each length]. rewrite shr_leaf.
    destruct (IH (consumed d sz [EvAsMemory (N.of_nat sz)]))
      as (lg & l' & ->).
    rewrite consumed_consumed.
    replace (sz + sz * length l) with (sz * S (length l)) by lia.
    eexists. eexists. reflexivity.
Qed.

(** C3.  Reading into a fixed-size container of capacity [N] (a built-in
    array or a [std::array]) first reads the stored count, then applies the
    element read to exactly the first [min( N, stored count )] slots, in
    order: the call ends where those element reads end, with their outcome,
    and the slots from [min( N, stored count )] on are as they were.  With
    leaves of [sz] bytes as elements the head therefore ends
    [sizeof( size_t ) + sz * min( N, stored count )] bytes on, short of the
    remaining stored elements when the stored count exceeds [N]. *)
Theorem fixed_size_read (k : FixedKind) (N : nat) (t : Ty)
    (d : St Deserialiser) (o_Container : Val (TFixed k N t)) :
  length o_Container = N ->
  let header := DeserialiseAsMemory sizeof_size_t d in
  let stored_count := N.to_nat (le_value (snd header)) in
  let n := Nat.min N stored_count in
  operator_shr (TFixed k N t) d o_Container
  = (let '(d', slots, o) :=
       for_each (operator_shr t) (fst header) (firstn n o_Container) in
     (d', slots ++ skipn n o_Container, o))
  /\ (forall sz, t = TLeaf sz ->
        m_Head (ctx (fst (fst (operator_shr (TFixed k N t) d o_Container))))
        = (m_Head (ctx d) + N.of_nat sizeof_size_t + N.of_nat (sz * n))%N).
Proof.
  intros Hlen header stored_count n.
  assert (E : operator_shr (TFixed k N t) d o_Container
              = (let '(d', slots, o) :=
                   for_each (operator_shr t) (fst header)
                            (firstn n o_Container) in
                 (d', slots ++ skipn n o_Container, o))).
  { subst header stored_count n.
    destruct k; cbn [operator_shr];
      unfold DeserialiseAsContainer_c_array, DeserialiseAsContainer_array;
      destruct (DeserialiseAsMemory sizeof_size_t d) as [d1 Size_bytes];
      cbv zeta; cbn [fst snd];
      rewrite truncated_count.
    all: rewrite for_index_for_each
      by (cbn [Nat.add]; etransitivity;
          [apply Nat.le_min_l
          | apply Nat.eq_le_incl; symmetry; exact Hlen]).
    all: reflexivity. }
  split; [exact E|].
  intros sz ->. rewrite E.
  destruct (for_each_leaves sz (firstn n o_Container) (fst header))
    as (lg & l' & ->).
  cbn [fst snd ctx consumed m_Head]. subst header.
  unfold DeserialiseAsMemory. cbn [fst ctx m_Head].
  rewrite length_firstn. subst n stored_count.
  replace (Nat.min (Nat.min N _) (length o_Container)) with (Nat.min N
    (N.to_nat (le_value (snd (DeserialiseAsMemory sizeof_size_t d))))) by lia.
  unfold DeserialiseAsMemory. cbn [snd]. reflexivity.
Qed.

(** ** Destinations that already hold elements *)

Lemma element_reads (t : Ty) (Hw : count_widths_agree t = true)
    (vs : list (Val t)) :
  forallb (well_formed t) vs = true ->
  forallb (streams_whole_state t) vs = true ->
  Forall (fun x => reads (operator_shr t) (default_value t) (wire t x) x) vs.
Proof.
  apply Forall_forallb2. intros x. now apply (proj1 shr_spec).
Qed.

(** C10.  Reading into a [std::list] or a [std::forward_list] does not clear
    the destination.  With the stored count and the stored elements [vs]
    under the head, a list [c] ends as [c] followed by [vs], a forward list
    [c] as [vs] followed by [c]; the read returns normally with its head
    past the stored elements. *)
Theorem list_destination_kept (t : Ty) (vs c : list (Val t))
    (d : St Deserialiser) :
  count_widths_agree t = true ->
  (container_size vs < size_t_max)%N ->
  forallb (well_formed t) vs = true ->
  forallb (streams_whole_state t) vs = true ->
  let stored := size_t_repr (container_size vs) ++ flat_map (wire t) vs in
  holds d stored ->
  (exists lg, operator_shr (TSeq std_list t) d c
              = (consumed d (length stored) lg, c ++ vs, Normal))
  /\ (exists lg, operator_shr (TSeq std_forward_list t) d c
                 = (consumed d (length stored) lg, vs ++ c, Normal)).
Proof.
  intros Hw Hfit Hwf Hs stored H.
  pose proof (element_reads t Hw vs Hwf Hs) as Hel.
  split; cbn [operator_shr].
  - apply (reads_list _ _ _ _ Hel Hfit c d H).
  - apply (reads_forward_list _ _ _ _ Hel Hfit c d H).
Qed.

(** ** Unique keys *)

Lemma emplace_map_present (k : MapKind) {K M : Type}
    (less_K equal_to_K : K -> K -> bool) (e : K * M) (c : list (K * M)) :
  unique_keys_map k = true ->
  has_key (ordered_map k) (@fst K M) less_K equal_to_K (fst e) c = true ->
  emplace_map k less_K equal_to_K e c = c.
Proof.
  destruct k; try discriminate; intros _ H;
    cbn [emplace_map has_key ordered_map] in *;
    unfold emplace_ordered_unique, emplace_unordered_unique, has_key in *;
    now rewrite H.
Qed.

Lemma emplace_set_present (k : SetKind) {K : Type}
    (less_K equal_to_K : K -> K -> bool) (e : K) (c : list K) :
  unique_keys_set k = true ->
  has_key (ordered_set k) (fun x : K => x) less_K equal_to_K e c = true ->
  emplace_set k less_K equal_to_K e c = c.
Proof.
  destruct k; try discriminate; intros _ H;
    cbn [emplace_set has_key ordered_set] in *;
    unfold emplace_ordered_unique, emplace_unordered_unique, has_key in *;
    now rewrite H.
Qed.

Lemma shr_map_emplaces (k : MapKind) (a b : Ty)
    (es c : list (Val a * Val b)) (d : St Deserialiser) :
  count_widths_agree a = true -> count_widths_agree b = true ->
  (container_size es < size_t_max)%N ->
  forallb (fun e => well_formed a (fst e) && well_formed b (snd e)) es
  = true ->
  forallb (fun e => streams_whole_state a (fst e)
                    && streams_whole_state b (snd e)) es = true ->
  let stored := size_t_repr (container_size es)
                ++ flat_map (fun e => wire a (fst e) ++ wire b (snd e)) es in
  holds d stored ->
  exists lg,
    operator_shr (TMap k a b) d c
    = (consumed d (length stored) lg,
       fold_left (fun c e => emplace_map k (less a) (equal_to a) e c) es c,
       Normal).
Proof.
  intros Hwa Hwb Hfit Hwf Hs stored H.
  assert (Hel : Forall (fun e =>
              reads (operator_shr a) (default_value a) (wire a (fst e))
                    (fst e)
              /\ reads (operator_shr b) (default_value b) (wire b (snd e))
                       (snd e)) es).
  { apply (Forall_forallb2 _ _ _ _ (fun e Hp Hq =>
             match andb_prop _ _ Hp, andb_prop _ _ Hq with
             | conj p1 p2, conj q1 q2 =>
                 conj (proj1 shr_spec a Hwa (fst e) p1 q1)
                      (proj1 shr_spec b Hwb (snd e) p2 q2)
             end) Hwf Hs). }
  destruct k; cbn [operator_shr emplace_map];
    apply (reads_map_like _ _ _ _ _ _ _ es c Hel Hfit d H).
Qed.

Lemma shr_set_emplaces (k : SetKind) (t : Ty) (es c : list (Val t))
    (d : St Deserialiser) :
  count_widths_agree t = true ->
  (container_size es < size_t_max)%N ->
  forallb (well_formed t) es = true ->
  forallb (streams_whole_state t) es = true ->
  let stored := size_t_repr (container_size es) ++ flat_map (wire t) es in
  holds d stored ->
  exists lg,
    operator_shr (TSet k t) d c
    = (consumed d (length stored) lg,
       fold_left (fun c e => emplace_set k (less t) (equal_to t) e c) es c,
       Normal).
Proof.
  intros Hw Hfit Hwf Hs stored H.
  pose proof (element_reads t Hw es Hwf Hs) as Hel.
  destruct k; cbn [operator_shr emplace_set];
    apply (reads_set_like _ _ _ _ Hel Hfit _ c d H).
Qed.

(** C7.  Reading into a container with unique keys ([std::map],
    [std::unordered_map], [std::set], [std::unordered_set]) emplaces the
    stored elements one after the other in stored order, into what the
    destination already holds; the read returns normally with its head past
    all the stored elements.  A stored element whose key is already in the
    container when its turn comes leaves the container as it is: the result
    is the one of the same stream without that element. *)
Theorem unique_keys_read :
  (forall (k : MapKind) (a b : Ty) (es1 es2 c : list (Val a * Val b))
          (e : Val a * Val b) (d : St Deserialiser),
     let es := es1 ++ e :: es2 in
     let emplace := fun c e => emplace_map k (less a) (equal_to a) e c in
     let stored := size_t_repr (container_size es)
                   ++ flat_map (fun e => wire a (fst e) ++ wire b (snd e))
                               es in
     unique_keys_map k = true ->
     count_widths_agree a = true -> count_widths_agree b = true ->
     (container_size es < size_t_max)%N ->
     forallb (fun e => well_formed a (fst e) && well_formed b (snd e)) es
     = true ->
     forallb (fun e => streams_whole_state a (fst e)
                       && streams_whole_state b (snd e)) es = true ->
     holds d stored ->
     (exists lg, operator_shr (TMap k a b) d c
                 = (consumed d (length stored) lg, fold_left emplace es c,
                    Normal))
     /\ (has_key (ordered_map k) (@fst (Val a) (Val b)) (less a) (equal_to a)
                 (fst e) (fold_left emplace es1 c) = true ->
         fold_left emplace es c = fold_left emplace (es1 ++ es2) c))
  /\ (forall (k : SetKind) (t : Ty) (es1 es2 c : list (Val t)) (e : Val t)
             (d : St Deserialiser),
        let es := es1 ++ e :: es2 in
        let emplace := fun c e => emplace_set k (less t) (equal_to t) e c in
        let stored := size_t_repr (container_size es)
                      ++ flat_map (wire t) es in
        unique_keys_set k = true ->
        count_widths_agree t = true ->
        (container_size es < size_t_max)%N ->
        forallb (well_formed t) es = true ->
        forallb (streams_whole_state t) es = true ->
        holds d stored ->
        (exists lg, operator_shr (TSet k t) d c
                    = (consumed d (length stored) lg, fold_left emplace es c,
                       Normal))
        /\ (has_key (ordered_set k) (fun x : Val t => x) (less t)
                    (equal_to t) e (fold_left emplace es1 c) = true ->
            fold_left emplace es c = fold_left emplace (es1 ++ es2) c)).
Proof.
  split.
  - intros k a b es1 es2 c e d es emplace stored Hk Hwa Hwb Hfit Hwf Hs H.
    split.
    + apply (shr_map_emplaces k a b es c d Hwa Hwb Hfit Hwf Hs H).
    + intros Hkey. subst es emplace. rewrite !fold_left_app.
      cbn [fold_left]. now rewrite emplace_map_present.
  - intros k t es1 es2 c e d es emplace stored Hk Hw Hfit Hwf Hs H. split.
    + apply (shr_set_emplaces k t es c d Hw Hfit Hwf Hs H).
    + intros Hkey. subst es emplace. rewrite !fold_left_app.
      cbn [fold_left]. now rewrite emplace_set_present.
Qed.

(** ** Hooks *)




(** ** Adapters *)

Lemma for_each_preserving {C V : Type} (F : Functor C V) :
  element_preserving F -> element_preserving (for_each F).
Proof.
  intros HF s l. revert s. induction l as [|x l IH]; intros s.
  - reflexivity.
  - cbn [for_each]. pose proof (HF s x) as Hx.
    destruct (F s x) as [[s1 x'] [|]]; cbn [fst snd] in *; subst x'.
    + pose proof (IH s1) as Hl.
      destruct (for_each F s1 l) as [[s2 l'] o]. cbn [fst snd] in *.
      now subst l'.
    + reflexivity.
Qed.

(** C6, as amended.  A stack and a queue are not unwrapped: their backing
    sequence is traversed in place, so a write or a measure whose element
    functor leaves the elements alone leaves the adapter as it was, whether
    the traversal returns or throws.  A priority queue is moved into a
    helper and moved back after the traversal: when the traversal returns,
    the queue holds its heap again; when the traversal throws, the move back
    is skipped and the queue is left empty, on a write, a measure and a read
    alike. *)
Theorem adapter_after_traversal {V : Type} :
  (forall (F : Functor Serialiser V) s q,
     element_preserving F ->
     snd (fst (SerialiseAsContainer_stack F s q)) = q
     /\ snd (fst (SerialiseAsContainer_queue F s q)) = q
     /\ (snd (SerialiseAsContainer_priority_queue F s q) = Normal ->
         snd (fst (SerialiseAsContainer_priority_queue F s q)) = q))
  /\ (forall (F : Functor Sizer V) z q,
        element_preserving F ->
        snd (fst (AddSizeOfContainer_stack F z q)) = q
        /\ snd (fst (AddSizeOfContainer_queue F z q)) = q
        /\ (snd (AddSizeOfContainer_priority_queue F z q) = Normal ->
            snd (fst (AddSizeOfContainer_priority_queue F z q)) = q))
  /\ (forall (F : Functor Serialiser V) s q,
        snd (SerialiseAsContainer_priority_queue F s q) = Thrown ->
        snd (fst (SerialiseAsContainer_priority_queue F s q)) = [])
  /\ (forall (F : Functor Sizer V) z q,
        snd (AddSizeOfContainer_priority_queue F z q) = Thrown ->
        snd (fst (AddSizeOfContainer_priority_queue F z q)) = [])
  /\ (forall (F : Functor Deserialiser V) dflt d q,
        (snd (DeserialiseAsContainer_priority_queue dflt F d q) = Normal ->
         snd (fst (DeserialiseAsContainer_priority_queue dflt F d q))
         = snd (fst (DeserialiseAsContainer_vector dflt F d q)))
        /\ (snd (DeserialiseAsContainer_priority_queue dflt F d q) = Thrown ->
            snd (fst (DeserialiseAsContainer_priority_queue dflt F d q))
            = [])).
Proof.
  split; [|split; [|split; [|split]]].
  - intros F s q H. split; [|split].
    + apply (for_each_preserving F H).
    + apply (for_each_preserving F H).
    + unfold SerialiseAsContainer_priority_queue, SerialiseAsContainer_vector.
      pose proof (for_each_preserving F H
                    (SerialiseAsMemory (size_t_repr (container_size q)) s) q)
        as Hq.
      destruct (for_each F _ q) as [[s1 q'] [|]]; cbn [fst snd] in *;
        [intros _; exact Hq | discriminate].
  - intros F z q H. split; [|split].
    + apply (for_each_preserving F H).
    + apply (for_each_preserving F H).
    + unfold AddSizeOfContainer_priority_queue, AddSizeOfContainer_vector.
      pose proof (for_each_preserving F H
                    (AddSizeOfMemory (N.of_nat sizeof_size_t) z) q) as Hq.
      destruct (for_each F _ q) as [[z1 q'] [|]]; cbn [fst snd] in *;
        [intros _; exact Hq | discriminate].
  - intros F s q. unfold SerialiseAsContainer_priority_queue.
    destruct (SerialiseAsContainer_vector F s q) as [[s1 q'] [|]];
      cbn [fst snd]; [discriminate | reflexivity].
  - intros F z q. unfold AddSizeOfContainer_priority_queue.
    destruct (AddSizeOfContainer_vector F z q) as [[z1 q'] [|]];
      cbn [fst snd]; [discriminate | reflexivity].
  - intros F dflt d q. unfold DeserialiseAsContainer_priority_queue.
    destruct (DeserialiseAsContainer_vector dflt F d q) as [[d1 q'] [|]];
      cbn [fst snd]; split; try discriminate; reflexivity.
Qed.

(** C5, as amended.  A Sizer holds its tally and nothing else.  Measuring a
    value with [operator+] returns normally, leaves the value as it was and
    the memory untouched, and only moves the tally.  The value is written to
    on the way when it is a priority queue, which is moved out and back:
    when the element functor of [AddSizeOfContainer] throws, the measured
    queue is left empty. *)
Theorem measure_frame :
  (forall (t : Ty) (v : Val t) (z : St Sizer),
     tally_in_range z ->
     snd (fst (operator_plus t z v)) = v
     /\ mem (fst (fst (operator_plus t z v))) = mem z
     /\ snd (operator_plus t z v) = Normal
     /\ operator_size_t (fst (fst (operator_plus t z v)))
        = ((operator_size_t z + measure t v) mod size_t_max)%N)
  /\ (forall (V : Type) (F : Functor Sizer V) (z : St Sizer) (q : list V),
        snd (AddSizeOfContainer_priority_queue F z q) = Thrown ->
        snd (fst (AddSizeOfContainer_priority_queue F z q)) = []).
Proof.
  split.
  - intros t v z Hz. destruct (proj1 plus_spec t z v Hz) as [lg ->].
    cbn. auto.
  - intros V F z q. unfold AddSizeOfContainer_priority_queue.
    destruct (AddSizeOfContainer_vector F z q) as [[z1 q'] [|]];
      cbn [fst snd]; [discriminate | reflexivity].
Qed.

(** ** One instance over many calls *)

Lemma Serialiser_after_forward (s : St Serialiser) (c : SerialiserCall) :
  m_Data (ctx (Serialiser_after s c)) = m_Data (ctx s)
  /\ (m_Head (ctx s) <= m_Head (ctx (Serialiser_after s c)))%N.
Proof.
  destruct c as [a_Data | t v]; cbn [Serialiser_after].
  - unfold SerialiseAsMemory. cbn. split; [reflexivity | lia].
  - destruct (proj1 shl_spec t s v I) as [lg ->]. cbn.
    split; [reflexivity | lia].
Qed.

Lemma Deserialiser_after_forward (d : St Deserialiser)
    (c : DeserialiserCall) :
  m_Data (ctx (Deserialiser_after d c)) = m_Data (ctx d)
  /\ (m_Head (ctx d) <= m_Head (ctx (Deserialiser_after d c)))%N.
Proof.
  destruct c as [a_Size | t v]; cbn [Deserialiser_after].
  - unfold DeserialiseAsMemory. cbn. split; [reflexivity | lia].
  - destruct (proj1 shr_steady t d v) as [(Ha & Hb & _) _]. now split.
Qed.

Lemma Sizer_after_counted (z : St Sizer) (c : SizerCall) :
  tally_in_range z ->
  tally_in_range (Sizer_after z c)
  /\ m_Size (ctx (Sizer_after z c))
     = ((m_Size (ctx z) + asked c) mod size_t_max)%N.
Proof.
  intros Hz. destruct c as [a_Size | t v]; cbn [Sizer_after asked].
  - rewrite AddSizeOfMemory_counted.
    split; [now apply counted_in_range | reflexivity].
  - destruct (proj1 plus_spec t z v Hz) as [lg ->]. cbn [fst].
    split; [now apply counted_in_range | reflexivity].
Qed.

(** C9, as amended.  Over any sequence of calls on one instance, the start
    of the stream of a Serialiser and of a Deserialiser stays where it was
    and the head never moves back; the count of bytes written or read,
    which is the distance between the two as a [size_t], does not decrease
    as long as that distance fits a [size_t].  The tally of a Sizer is a
    [size_t]: it is the sum of what the calls asked to count as long as
    that sum fits a [size_t], so it does not decrease up to there. *)
Theorem forward_only :
  (forall (calls : list SerialiserCall) (s : St Serialiser),
     let s' := fold_left Serialiser_after calls s in
     m_Data (ctx s') = m_Data (ctx s)
     /\ (m_Head (ctx s) <= m_Head (ctx s'))%N
     /\ ((m_Data (ctx s) <= m_Head (ctx s))%N ->
         (m_Head (ctx s') - m_Data (ctx s') < size_t_max)%N ->
         (GetBytesWritten s <= GetBytesWritten s')%N))
  /\ (forall (calls : list DeserialiserCall) (d : St Deserialiser),
        let d' := fold_left Deserialiser_after calls d in
        m_Data (ctx d') = m_Data (ctx d)
        /\ (m_Head (ctx d) <= m_Head (ctx d'))%N
        /\ ((m_Data (ctx d) <= m_Head (ctx d))%N ->
            (m_Head (ctx d') - m_Data (ctx d') < size_t_max)%N ->
            (GetBytesRead d <= GetBytesRead d')%N))
  /\ (forall (calls : list SizerCall) (z : St Sizer),
        let z' := fold_left Sizer_after calls z in
        tally_in_range z ->
        (operator_size_t z + sum_N asked calls < size_t_max)%N ->
        operator_size_t z' = (operator_size_t z + sum_N asked calls)%N
        /\ (operator_size_t z <= operator_size_t z')%N).
Proof.
  assert (HS : forall calls s,
             m_Data (ctx (fold_left Serialiser_after calls s))
             = m_Data (ctx s)
             /\ (m_Head (ctx s)
                 <= m_Head (ctx (fold_left Serialiser_after calls s)))%N).
  { induction calls as [|c calls IH]; intros s; cbn [fold_left].
    - split; [reflexivity | lia].
    - destruct (IH (Serialiser_after s c)) as [Ha Hb].
      destruct (Serialiser_after_forward s c) as [Hc Hd].
      split; [congruence | lia]. }
  assert (HD : forall calls d,
             m_Data (ctx (fold_left Deserialiser_after calls d))
             = m_Data (ctx d)
             /\ (m_Head (ctx d)
                 <= m_Head (ctx (fold_left Deserialiser_after calls d)))%N).
  { induction calls as [|c calls IH]; intros d; cbn [fold_left].
    - split; [reflexivity | lia].
    - destruct (IH (Deserialiser_after d c)) as [Ha Hb].
      destruct (Deserialiser_after_forward d c) as [Hc Hd].
      split; [congruence | lia]. }
  split; [|split].
  - intros calls s s'. destruct (HS calls s) as [Ha Hb]. fold s' in Ha, Hb.
    split; [exact Ha|]. split; [exact Hb|].
    intros Hv Hfit. unfold GetBytesWritten. rewrite Ha in *.
    rewrite (N.mod_small (m_Head (ctx s') - m_Data (ctx s))) by exact Hfit.
    rewrite N.mod_small by lia. lia.
  - intros calls d d'. destruct (HD calls d) as [Ha Hb]. fold d' in Ha, Hb.
    split; [exact Ha|]. split; [exact Hb|].
    intros Hv Hfit. unfold GetBytesRead. rewrite Ha in *.
    rewrite (N.mod_small (m_Head (ctx d') - m_Data (ctx d))) by exact Hfit.
    rewrite N.mod_small by lia. lia.
  - intros calls z z' Hz Hfit. subst z'. unfold operator_size_t in *.
    assert (E : m_Size (ctx (fold_left Sizer_after calls z))
                = (m_Size (ctx z) + sum_N asked calls)%N).
    { revert z Hz Hfit. induction calls as [|c calls IH]; intros z Hz Hfit;
        cbn [fold_left sum_N fold_right] in *.
      - lia.
      - destruct (Sizer_after_counted z c Hz) as [Hz' E].
        fold (sum_N asked calls) in *.
        rewrite N.mod_small in E by lia.
        rewrite (IH (Sizer_after z c) Hz') by (rewrite E; lia).
        rewrite E. lia. }
    rewrite E. split; [reflexivity | lia].
Qed.

(** ** The buffer after a write *)

Lemma wrote_frame (s : St Serialiser) (bytes : list byte) (lg : list Event) :
  memcpy_from (mem (wrote s bytes lg)) (m_Head (ctx s)) (length bytes)
  = bytes
  /\ (forall x,
        (x < m_Head (ctx s) \/ m_Head (ctx (wrote s bytes lg)) <= x)%N ->
        mem (wrote s bytes lg) x = mem s x).
Proof.
  unfold wrote. cbn [ctx mem m_Head]. split.
  - apply memcpy_from_to.
  - intros x Hx. apply memcpy_to_outside. exact Hx.
Qed.

Lemma calls_wrote (calls : list SerialiserCall) :
  forall s, exists lg,
    fold_left Serialiser_after calls s
    = wrote s (flat_map written calls) lg.
Proof.
  induction calls as [|c calls IH]; intros s.
  - exists []. cbn. now rewrite wrote_nil.
  - cbn [fold_left flat_map].
    assert (Hc : exists l1, Serialiser_after s c = wrote s (written c) l1).
    { destruct c as [a_Data | t v]; cbn [Serialiser_after written].
      - eexists. apply SerialiseAsMemory_wrote.
      - destruct (proj1 shl_spec t s v I) as [l1 ->]. now exists l1. }
    destruct Hc as [l1 ->].
    destruct (IH (wrote s (written c) l1)) as [l2 ->].
    rewrite wrote_wrote. now exists (l1 ++ l2).
Qed.

(** X1.  Writing a value with [operator<<] returns normally and leaves the
    value as it was.  The start of the stream stays, the head moves on by the
    length of the encoding of the value, the bytes from the old head to the
    new one are that encoding, and no other byte of the memory changes. *)
Theorem write_layout (t : Ty) (s : St Serialiser) (v : Val t) :
  let r := operator_shl t s v in
  let s' := fst (fst r) in
  let n := length (wire t v) in
  snd r = Normal
  /\ snd (fst r) = v
  /\ m_Data (ctx s') = m_Data (ctx s)
  /\ m_Head (ctx s') = (m_Head (ctx s) + N.of_nat n)%N
  /\ memcpy_from (mem s') (m_Head (ctx s)) n = wire t v
  /\ (forall x, (x < m_Head (ctx s) \/ m_Head (ctx s') <= x)%N ->
        mem s' x = mem s x).
Proof.
  cbv zeta. destruct (proj1 shl_spec t s v I) as [lg ->]. cbn [fst snd].
  destruct (wrote_frame s (wire t v) lg) as [Hin Hout].
  repeat split; try assumption.
Qed.

(** X2.  Over any sequence of calls on one Serialiser ([SerialiseAsMemory] and
    [operator<<] in any mix) the stream is the concatenation of what each call
    writes, in call order: the head ends that many bytes on, the bytes from
    the first head on are that concatenation, and no byte outside them
    changes. *)
Theorem writes_concatenate (calls : list SerialiserCall)
    (s : St Serialiser) :
  let s' := fold_left Serialiser_after calls s in
  let bytes := flat_map written calls in
  m_Head (ctx s') = (m_Head (ctx s) + N.of_nat (length bytes))%N
  /\ memcpy_from (mem s') (m_Head (ctx s)) (length bytes) = bytes
  /\ (forall x, (x < m_Head (ctx s) \/ m_Head (ctx s') <= x)%N ->
        mem s' x = mem s x).
Proof.
  cbv zeta. destruct (calls_wrote calls s) as [lg ->].
  destruct (wrote_frame s (flat_map written calls) lg) as [Hin Hout].
  repeat split; assumption.
Qed.

(** X3.  A buffer of the size a fresh Sizer reports for a value takes the
    write of that value: when every class of the type declares [OnSize]
    exactly when it declares [OnSerialise] and the measure fits a [size_t], a
    fresh Serialiser on the buffer ends its write exactly at the end of the
    buffer, and no byte before or after the buffer changes. *)
Theorem measured_buffer_suffices (t : Ty) (v : Val t) (a_Data : N)
    (m m' : Memory) :
  size_hook_matches t = true ->
  (measure t v < size_t_max)%N ->
  let size := operator_size_t (fst (fst (operator_plus t (new_Sizer m') v))) in
  let s' := fst (fst (operator_shl t (new_Serialiser a_Data m) v)) in
  m_Head (ctx s') = (a_Data + size)%N
  /\ (forall x, (x < a_Data \/ a_Data + size <= x)%N -> mem s' x = m x).
Proof.
  intros Hh Hfit. cbv zeta.
  destruct (proj1 plus_spec t (new_Sizer m') v (new_Sizer_in_range m'))
    as [lz ->].
  destruct (proj1 shl_spec t (new_Serialiser a_Data m) v I) as [ls ->].
  cbn [fst]. unfold operator_size_t, counted. cbn [ctx m_Size new_Sizer].
  rewrite N.add_0_l, N.mod_small by exact Hfit.
  rewrite (proj1 measure_wire t Hh v).
  destruct (wrote_frame (new_Serialiser a_Data m) (wire t v) ls)
    as [_ Hout].
  split; [reflexivity|].
  intros x Hx. apply Hout. exact Hx.
Qed.

(** ** The tally of a Sizer *)

Lemma sum_N_permutation {V : Type} (f : V -> N) (l l' : list V) :
  Permutation l l' -> sum_N f l = sum_N f l'.
Proof.
  unfold sum_N. induction 1; cbn [fold_right]; lia.
Qed.

Lemma tally_after (calls : list SizerCall) :
  forall z, tally_in_range z ->
    m_Size (ctx (fold_left Sizer_after calls z))
    = ((m_Size (ctx z) + sum_N asked calls) mod size_t_max)%N.
Proof.
  induction calls as [|c calls IH]; intros z Hz.
  - cbn. rewrite N.add_0_r. symmetry. apply N.mod_small. exact Hz.
  - cbn [fold_left]. destruct (Sizer_after_counted z c Hz) as [Hz' E].
    rewrite (IH _ Hz'), E. unfold sum_N. cbn [fold_right].
    rewrite N.Div0.add_mod_idemp_l. f_equal. lia.
Qed.

(** X4.  Whatever calls a Sizer receives ([AddSizeOfMemory] and [operator+] in
    any mix), its tally ends as the earlier tally plus the sum of what the
    calls ask to count, reduced modulo [2 ^ ( 8 * sizeof( size_t ) )]; so two
    sequences of the same calls in different orders end with the same tally. *)
Theorem tally_is_modular_sum (z : St Sizer) :
  tally_in_range z ->
  (forall calls,
     operator_size_t (fold_left Sizer_after calls z)
     = ((operator_size_t z + sum_N asked calls) mod size_t_max)%N)
  /\ (forall calls calls',
        Permutation calls calls' ->
        operator_size_t (fold_left Sizer_after calls z)
        = operator_size_t (fold_left Sizer_after calls' z)).
Proof.
  intros Hz. unfold operator_size_t. split.
  - intros calls. now apply tally_after.
  - intros calls calls' Hp. rewrite !tally_after by exact Hz.
    now rewrite (sum_N_permutation asked calls calls' Hp).
Qed.

(** ** Reading into a destination that is in use *)

Lemma length_resize {V : Type} (n : nat) (d : V) (l : list V) :
  length (resize n d l) = n.
Proof.
  unfold resize. rewrite length_app, length_firstn, repeat_length. lia.
Qed.

Lemma Forall_resize {V : Type} (P : V -> Prop) (n : nat) (d : V)
    (l : list V) :
  Forall P l -> (length l < n -> P d) -> Forall P (resize n d l).
Proof.
  intros Hl Hd. unfold resize. apply Forall_app. split.
  - clear Hd. revert l Hl. induction n as [|n IH]; intros [|x l] Hl;
      cbn [firstn]; try constructor.
    + now inversion Hl.
    + apply IH. now inversion Hl.
  - destruct (Nat.ltb_spec (length l) n) as [Hlt | Hge].
    + apply Forall_forall. intros x Hx. apply repeat_spec in Hx.
      subst x. now apply Hd.
    + replace (n - length l) with 0 by lia. constructor.
Qed.

Lemma Forall2_of_Forall {A B : Type} (P : A -> Prop) (Q : B -> Prop)
    (R : A -> B -> Prop) :
  (forall x y, P x -> Q y -> R x y) ->
  forall l1 l2, length l1 = length l2 ->
    Forall P l1 -> Forall Q l2 -> Forall2 R l1 l2.
Proof.
  intros H. induction l1 as [|x l1 IH]; intros [|y l2] Hlen H1 H2;
    try discriminate; constructor.
  - apply H; [now inversion H1 | now inversion H2].
  - apply IH; [now injection Hlen | now inversion H1 | now inversion H2].
Qed.

Section ReadInto.
Context {V : Type}.
Variable F : Functor Deserialiser V.
Variable f : V -> list byte.

(** The index loop over slots that hold anything. *)
Lemma reads_for_index_into (vs ds : list V) :
  Forall2 (fun v dst => reads F dst (f v) v) vs ds ->
  forall pre post rest d, holds d (flat_map f vs ++ rest) ->
    exists lg,
      for_index F (length vs) (length pre) d (pre ++ ds ++ post)
      = (consumed d (length (flat_map f vs)) lg, pre ++ vs ++ post, Normal)
      /\ holds (consumed d (length (flat_map f vs)) lg) rest.
Proof.
  induction 1 as [|v dst vs ds Hv _ IH]; intros pre post rest d H.
  - exists []. cbn. rewrite consumed_zero. now split.
  - cbn [length app for_index flat_map] in *.
    rewrite nth_error_middle. rewrite <- app_assoc in H.
    destruct (@reads_head _ _ _ _ _ _ _ Hv H) as [l1 [E1 H1]].
    rewrite E1, assign_middle.
    destruct (IH (pre ++ [v]) post rest _ H1) as [l2 [E2 H2]].
    rewrite length_app in E2. cbn [length] in E2.
    rewrite Nat.add_1_r, <- !app_assoc in E2. cbn [app] in E2.
    rewrite consumed_consumed in H2.
    rewrite E2, consumed_consumed, length_app. now exists (l1 ++ l2).
Qed.

Lemma reads_vector_into (dflt : V) (vs c : list V) :
  Forall2 (fun v dst => reads F dst (f v) v) vs
          (resize (length vs) dflt c) ->
  (container_size vs < size_t_max)%N ->
  reads (DeserialiseAsContainer_vector dflt F) c
        (size_t_repr (container_size vs) ++ flat_map f vs) vs.
Proof.
  intros Hel Hfit d H. unfold DeserialiseAsContainer_vector.
  read_header H (container_size vs).
  unfold container_size. rewrite Nat2N.id.
  rewrite <- (app_nil_r (flat_map f vs)) in Hr.
  destruct (reads_for_index_into vs _ Hel [] [] [] _ Hr) as [lg [E' _]].
  cbn [app length] in E'. rewrite !app_nil_r in E'.
  finish_read E'.
Qed.

(** The fixed-size readers at a stored count [count], with [vs] the first
    [min( N, count )] stored elements. *)
Lemma reads_fixed_into (N : nat) (count : BinNums.N)
    (vs ds post : list V) (rest : list byte) (d : St Deserialiser) :
  Forall2 (fun v dst => reads F dst (f v) v) vs ds ->
  length vs = Nat.min N (N.to_nat count) ->
  (count < size_t_max)%N ->
  holds d (size_t_repr count ++ flat_map f vs ++ rest) ->
  exists lg,
    DeserialiseAsContainer_c_array F N d (ds ++ post)
    = (consumed d (sizeof_size_t + length (flat_map f vs)) lg,
       vs ++ post, Normal)
    /\ DeserialiseAsContainer_array F N d (ds ++ post)
       = (consumed d (sizeof_size_t + length (flat_map f vs)) lg,
          vs ++ post, Normal).
Proof.
  intros Hel Hlen Hfit H.
  unfold DeserialiseAsContainer_c_array, DeserialiseAsContainer_array.
  read_header H count. rewrite truncated_count, <- Hlen.
  destruct (reads_for_index_into vs ds Hel [] post rest _ Hr)
    as [lg [E' _]].
  cbn [app length] in E'.
  rewrite E', consumed_consumed. eexists. split; reflexivity.
Qed.
End ReadInto.

Lemma reads_basic_string_into (cs : nat) (v c : list N) :
  (container_size v < size_t_max)%N ->
  forallb (fun c => N.ltb c (256 ^ N.of_nat cs)) v = true ->
  reads (DeserialiseAsContainer_basic_string cs) c
        (size_t_repr (container_size v) ++ flat_map (le_bytes cs) v) v.
Proof.
  intros Hfit Hchars d H. unfold DeserialiseAsContainer_basic_string.
  read_header H (container_size v).
  unfold container_size in *. rewrite Nat2N.id, length_resize.
  assert (Hlen : length (flat_map (le_bytes cs) v) = cs * length v).
  { clear. induction v as [|x v IH]; cbn [flat_map length]; [lia|].
    rewrite length_app, length_le_bytes, IH. lia. }
  rewrite <- Hlen, (@DeserialiseAsMemory_holds _ _ Hr).
  rewrite chars_of_bytes_chars by exact Hchars.
  rewrite consumed_consumed, length_app.
  unfold size_t_repr. rewrite length_le_bytes.
  eexists. reflexivity.
Qed.

Lemma forallb_repeat {A : Type} (p : A -> bool) (x : A) (n : nat) :
  (0 < n -> p x = true) -> forallb p (repeat x n) = true.
Proof.
  intros H. induction n as [|n IH]; cbn [repeat forallb]; [reflexivity|].
  rewrite H by lia. apply IH. intros _. apply H. lia.
Qed.

Lemma empty_fits : (0 <? size_t_max)%N = true.
Proof. apply N.ltb_lt. pose proof size_t_max_nonzero. lia. Qed.

(** A freshly constructed value is well formed and carries its state
    through its hooks as soon as some value of its type is and does. *)
Lemma default_well_formed :
  (forall t v, well_formed t v = true ->
     well_formed t (default_value t) = true)
  /\ (forall ts v, well_formeds ts v = true ->
        well_formeds ts (default_values ts) = true).
Proof.
  apply Ty_TyList_ind.
  - intros n v _. cbn. rewrite repeat_length. apply Nat.eqb_refl.
  - intros cls h n ms IH [raw members] H.
    cbn [well_formed default_value fst snd] in *.
    apply andb_prop in H. destruct H as [_ H].
    rewrite repeat_length, Nat.eqb_refl. now apply (IH members).
  - intros a IHa b IHb [x y] H. cbn [well_formed default_value fst snd] in *.
    apply andb_prop in H. destruct H as [Ha Hb].
    now rewrite (IHa x Ha), (IHb y Hb).
  - intros ts IH v H. now apply (IH v).
  - intros cs v _. cbn. now rewrite empty_fits.
  - intros k n t IH v H. cbn [well_formed default_value] in *.
    apply andb_prop in H. destruct H as [H Hall].
    apply andb_prop in H. destruct H as [Hlen Hn].
    rewrite repeat_length, Nat.eqb_refl, Hn. cbn [andb].
    apply forallb_repeat. intros Hpos.
    apply Nat.eqb_eq in Hlen. destruct v as [|x v]; [cbn in Hlen; lia|].
    cbn [forallb] in Hall. apply andb_prop in Hall. now apply (IH x).
  - intros k t IH v _. cbn. now rewrite empty_fits.
  - intros k a IHa b IHb v _. cbn [well_formed default_value].
    cbn. rewrite empty_fits. now destruct k.
  - intros k t IH v _. cbn [well_formed default_value].
    cbn. rewrite empty_fits. now destruct k.
  - reflexivity.
  - intros t IHt ts IHts [x xs] H.
    cbn [well_formeds default_values fst snd] in *.
    apply andb_prop in H. destruct H as [Ha Hb].
    now rewrite (IHt x Ha), (IHts xs Hb).
Qed.

Lemma default_streams_whole_state :
  (forall t v, well_formed t v = true -> streams_whole_state t v = true ->
     streams_whole_state t (default_value t) = true)
  /\ (forall ts v, well_formeds ts v = true ->
        stream_whole_states ts v = true ->
        stream_whole_states ts (default_values ts) = true).
Proof.
  apply Ty_TyList_ind.
  - reflexivity.
  - intros cls h n ms IH [raw members] Hw H.
    cbn [well_formed streams_whole_state default_value fst snd] in *.
    apply andb_prop in Hw. destruct Hw as [_ Hw].
    apply andb_prop in H. destruct H as [Hsym H]. rewrite Hsym.
    cbn [andb]. destruct (HasOnSerialise h); [|exact H].
    apply andb_prop in H. destruct H as [_ H].
    rewrite (IH members Hw H), andb_true_r.
    apply forallb_repeat. reflexivity.
  - intros a IHa b IHb [x y] Hw H.
    cbn [well_formed streams_whole_state default_value fst snd] in *.
    apply andb_prop in Hw. destruct Hw as [Hwa Hwb].
    apply andb_prop in H. destruct H as [Ha Hb].
    now rewrite (IHa x Hwa Ha), (IHb y Hwb Hb).
  - intros ts IH v Hw H. now apply (IH v).
  - reflexivity.
  - intros k n t IH v Hw H.
    cbn [well_formed streams_whole_state default_value] in *.
    apply andb_prop in Hw. destruct Hw as [Hw Hall].
    apply andb_prop in Hw. destruct Hw as [Hlen _].
    apply Nat.eqb_eq in Hlen.
    apply forallb_repeat. intros Hpos.
    destruct v as [|x v]; [cbn in Hlen; lia|].
    cbn [forallb] in *. apply andb_prop in Hall. apply andb_prop in H.
    now apply (IH x).
  - reflexivity.
  - reflexivity.
  - reflexivity.
  - reflexivity.
  - intros t IHt ts IHts [x xs] Hw H.
    cbn [well_formeds stream_whole_states default_values fst snd] in *.
    apply andb_prop in Hw. destruct Hw as [Hwa Hwb].
    apply andb_prop in H. destruct H as [Ha Hb].
    now rewrite (IHt x Hwa Ha), (IHts xs Hwb Hb).
Qed.

(** The element reads of a vector-like reader whose destination [c] is in
    use: the slots it keeps and the ones [resize] adds. *)
Lemma resized_slots (t : Ty) (vs c : list (Val t)) :
  (forall v dst,
     well_formed t v = true -> streams_whole_state t v = true ->
     well_formed t dst = true -> streams_whole_state t dst = true ->
     reads (operator_shr t) dst (wire t v) v) ->
  forallb (well_formed t) vs = true ->
  forallb (streams_whole_state t) vs = true ->
  forallb (well_formed t) c = true ->
  forallb (streams_whole_state t) c = true ->
  Forall2 (fun v dst => reads (operator_shr t) dst (wire t v) v) vs
          (resize (length vs) (default_value t) c).
Proof.
  intros IH Hw Hs Hcw Hcs.
  apply (Forall2_of_Forall
           (fun v => well_formed t v = true
                     /\ streams_whole_state t v = true)
           (fun dst => well_formed t dst = true
                       /\ streams_whole_state t dst = true)).
  - intros v dst [H1 H2] [H3 H4]. now apply IH.
  - now rewrite length_resize.
  - apply Forall_forall. intros v Hv. split.
    + revert v Hv. now apply forallb_forall.
    + revert v Hv. now apply forallb_forall.
  - apply Forall_resize.
    + apply Forall_forall. intros v Hv. split.
      * revert v Hv. now apply forallb_forall.
      * revert v Hv. now apply forallb_forall.
    + intros Hlt. destruct vs as [|x vs]; [cbn in Hlt; lia|].
      cbn [forallb] in Hw, Hs.
      apply andb_prop in Hw. apply andb_prop in Hs.
      destruct Hw as [Hw _]. destruct Hs as [Hs _]. split.
      * now apply (proj1 default_well_formed t x).
      * now apply (proj1 default_streams_whole_state t x).
Qed.

Lemma shr_into :
  (forall t, overwritten t = true ->
     forall v dst,
       well_formed t v = true -> streams_whole_state t v = true ->
       well_formed t dst = true -> streams_whole_state t dst = true ->
       reads (operator_shr t) dst (wire t v) v)
  /\ (forall ts, overwrittens ts = true ->
        forall v dst,
          well_formeds ts v = true -> stream_whole_states ts v = true ->
          well_formeds ts dst = true -> stream_whole_states ts dst = true ->
          reads (DeserialiseVariadic ts) dst (wires ts v) v).
Proof.
  apply Ty_TyList_ind.
  - (* TLeaf *) intros n _ v dst Hwf _ _ _.
    cbn [operator_shr wire well_formed] in *.
    apply Nat.eqb_eq in Hwf.
    rewrite object_representation_exact by exact Hwf.
    now apply reads_Deserialise_raw.
  - (* TObject *) intros cls h n ms IH Ho [raw members] [draw dmembers]
      Hwf Hs Hdw Hds.
    cbn [operator_shr wire well_formed streams_whole_state overwritten
         fst snd] in *.
    apply andb_prop in Hwf. destruct Hwf as [Hlen Hwf].
    apply andb_prop in Hs. destruct Hs as [Hsym Hs].
    apply andb_prop in Hdw. destruct Hdw as [Hdlen Hdw].
    apply andb_prop in Hds. destruct Hds as [_ Hds].
    to_props. destruct (HasOnSerialise h).
    + apply andb_prop in Hs. destruct Hs as [Hz Hs].
      apply andb_prop in Hds. destruct Hds as [Hdz Hds].
      rewrite (@zeroed_bytes n raw Hlen Hz).
      rewrite (@zeroed_bytes n draw Hdlen Hdz).
      apply reads_Deserialise_hooked; [now symmetry|].
      apply reads_on_members. now apply IH.
    + destruct ms; [|discriminate]. destruct members, dmembers.
      rewrite object_representation_exact by exact Hlen.
      apply reads_Deserialise_raw; [now symmetry | exact Hlen | reflexivity].
  - (* TPair *) intros a IHa b IHb Ho [x y] [dx dy] Hwf Hs Hdw Hds.
    cbn [operator_shr wire well_formed streams_whole_state overwritten
         fst snd] in *.
    apply andb_prop in Ho. destruct Ho as [Hoa Hob].
    apply andb_prop in Hwf. destruct Hwf as [Hwa Hwb].
    apply andb_prop in Hs. destruct Hs as [Hsa Hsb].
    apply andb_prop in Hdw. destruct Hdw as [Hdwa Hdwb].
    apply andb_prop in Hds. destruct Hds as [Hdsa Hdsb].
    apply reads_for_both; [now apply IHa | now apply IHb].
  - (* TTuple *) intros ts IH Ho v dst Hwf Hs Hdw Hds. now apply IH.
  - (* TString *) intros cs _ v dst Hwf _ _ _.
    cbn [operator_shr wire well_formed] in *.
    apply andb_prop in Hwf. destruct Hwf as [Hfit Hchars]. to_props.
    now apply reads_basic_string_into.
  - (* TFixed *) intros k n t IH Ho v dst Hwf Hs Hdw Hds.
    cbn [operator_shr wire well_formed streams_whole_state overwritten]
      in *. specialize (IH Ho).
    apply andb_prop in Hwf. destruct Hwf as [Hwf Hall].
    apply andb_prop in Hwf. destruct Hwf as [Hlen Hn].
    apply andb_prop in Hdw. destruct Hdw as [Hdw Hdall].
    apply andb_prop in Hdw. destruct Hdw as [Hdlen _]. to_props.
    assert (Hel : Forall2 (fun x dx => reads (operator_shr t) dx
                                         (wire t x) x) v dst).
    { apply (Forall2_of_Forall
               (fun v => well_formed t v = true
                         /\ streams_whole_state t v = true)
               (fun dst => well_formed t dst = true
                           /\ streams_whole_state t dst = true)).
      - intros x dx [H1 H2] [H3 H4]. now apply IH.
      - transitivity n; [exact Hlen | symmetry; exact Hdlen].
      - apply Forall_forall. intros x Hx. split.
        + revert x Hx. now apply forallb_forall.
        + revert x Hx. now apply forallb_forall.
      - apply Forall_forall. intros x Hx. split.
        + revert x Hx. now apply forallb_forall.
        + revert x Hx. now apply forallb_forall. }
    intros d H. rewrite <- (app_nil_r (flat_map (wire t) v)) in H.
    destruct (reads_fixed_into (operator_shr t) (wire t) n (N.of_nat n)
                v dst [] [] d Hel) as [lg [Ec Ea]];
      [rewrite Nat2N.id, Nat.min_id; exact Hlen | exact Hn | exact H |].
    rewrite !app_nil_r in Ec, Ea.
    exists lg. rewrite length_app. unfold size_t_repr.
    rewrite length_le_bytes. destruct k; assumption.
  - (* TSeq *) intros k t IH Ho v dst Hwf Hs Hdw Hds.
    cbn [operator_shr wire well_formed streams_whole_state overwritten]
      in *.
    apply andb_prop in Ho. destruct Ho as [Hk Ho]. specialize (IH Ho).
    apply andb_prop in Hwf. destruct Hwf as [Hfit Hall].
    apply andb_prop in Hdw. destruct Hdw as [_ Hdall]. to_props.
    pose proof (resized_slots t v dst IH Hall Hs Hdall Hds) as Hel.
    pose proof (reads_vector_into (operator_shr t) (wire t)
                  (default_value t) v dst Hel Hfit) as Hv.
    destruct k; try discriminate; cbn [count_repr]; try exact Hv.
    (* std_priority_queue *)
    intros d H. unfold DeserialiseAsContainer_priority_queue.
    destruct (Hv d H) as [lg ->]. now exists lg.
  - (* TMap *) intros k a IHa b IHb Ho. discriminate.
  - (* TSet *) intros k t IH Ho. discriminate.
  - (* TNil *) intros _ [] [] _ _ _ _. apply reads_skip.
  - (* TCons *) intros t IHt ts IHts Ho [x xs] [dx dxs] Hwf Hs Hdw Hds.
    cbn [DeserialiseVariadic wires well_formeds stream_whole_states
         overwrittens fst snd] in *.
    apply andb_prop in Ho. destruct Ho as [Hoa Hob].
    apply andb_prop in Hwf. destruct Hwf as [Hwa Hwb].
    apply andb_prop in Hs. destruct Hs as [Hsa Hsb].
    apply andb_prop in Hdw. destruct Hdw as [Hdwa Hdwb].
    apply andb_prop in Hds. destruct Hds as [Hdsa Hdsb].
    apply reads_for_both; [now apply IHt | now apply IHts].
Qed.

(** X5.  Reading into a destination that is in use.  For a type built
    without [std::list], [std::forward_list] and the associative containers,
    the read of the encoding of a value [v] leaves exactly [v] in the
    destination, whatever well-formed value of the type the destination held
    before: a vector, deque, queue, stack, priority queue or string is
    resized to the stored count and every slot is read over.  The read
    returns normally with its head past the encoding. *)
Theorem read_replaces (t : Ty) (v dst : Val t) (d : St Deserialiser) :
  overwritten t = true ->
  well_formed t v = true -> streams_whole_state t v = true ->
  well_formed t dst = true -> streams_whole_state t dst = true ->
  holds d (wire t v) ->
  exists lg,
    operator_shr t d dst = (consumed d (length (wire t v)) lg, v, Normal).
Proof.
  intros Ho Hwf Hs Hdw Hds H.
  exact (proj1 shr_into t Ho v dst Hwf Hs Hdw Hds d H).
Qed.

Lemma forallb_firstn {A : Type} (p : A -> bool) (n : nat) (l : list A) :
  forallb p l = true -> forallb p (firstn n l) = true.
Proof.
  revert l. induction n as [|n IH]; intros [|x l] H; cbn [firstn forallb];
    try reflexivity.
  cbn [forallb] in H. apply andb_prop in H. destruct H as [Hx Hl].
  now rewrite Hx, IH.
Qed.

(** X6.  A fixed-size container of [N] elements read into one of [M]
    elements.  The writer stores the count [N] and the [N] elements; the
    reader assigns the first [min( M, N )] slots of the destination from the
    first [min( M, N )] stored elements and stops there: the other slots of
    the destination keep their values, and when [M < N] the head stands
    before the stored elements that are left. *)
Theorem fixed_size_mismatch (k k' : FixedKind) (N M : nat) (t : Ty)
    (v dst : list (Val t)) (d : St Deserialiser) :
  overwritten t = true ->
  well_formed (TFixed k N t) v = true ->
  streams_whole_state (TFixed k N t) v = true ->
  well_formed (TFixed k' M t) dst = true ->
  streams_whole_state (TFixed k' M t) dst = true ->
  holds d (wire (TFixed k N t) v) ->
  let n := Nat.min M N in
  exists lg,
    operator_shr (TFixed k' M t) d dst
    = (consumed d
         (sizeof_size_t + length (flat_map (wire t) (firstn n v))) lg,
       firstn n v ++ skipn n dst, Normal).
Proof.
  intros Ho Hwf Hs Hdw Hds H n.
  cbn [wire well_formed streams_whole_state] in *.
  apply andb_prop in Hwf. destruct Hwf as [Hwf Hall].
  apply andb_prop in Hwf. destruct Hwf as [Hlen Hn].
  apply andb_prop in Hdw. destruct Hdw as [Hdw Hdall].
  apply andb_prop in Hdw. destruct Hdw as [Hdlen _]. to_props.
  assert (Hel : Forall2 (fun x dx => reads (operator_shr t) dx
                                       (wire t x) x)
                        (firstn n v) (firstn n dst)).
  { apply (Forall2_of_Forall
             (fun v => well_formed t v = true
                       /\ streams_whole_state t v = true)
             (fun dst => well_formed t dst = true
                         /\ streams_whole_state t dst = true)).
    - intros x dx [H1 H2] [H3 H4]. now apply (proj1 shr_into t Ho).
    - rewrite !length_firstn.
      transitivity (Nat.min n N); [f_equal; exact Hlen|].
      transitivity (Nat.min n M); [unfold n; lia|].
      f_equal. symmetry. exact Hdlen.
    - apply Forall_forall. intros x Hx. split.
      + revert x Hx. apply forallb_forall. now apply forallb_firstn.
      + revert x Hx. apply forallb_forall. now apply forallb_firstn.
    - apply Forall_forall. intros x Hx. split.
      + revert x Hx. apply forallb_forall. now apply forallb_firstn.
      + revert x Hx. apply forallb_forall. now apply forallb_firstn. }
  rewrite <- (firstn_skipn n v) in H at 1. rewrite flat_map_app in H.
  destruct (reads_fixed_into (operator_shr t) (wire t) M (N.of_nat N)
              (firstn n v) (firstn n dst) (skipn n dst)
              (flat_map (wire t) (skipn n v)) d Hel) as [lg [Ec Ea]];
    [ | exact Hn | exact H | ].
  - rewrite Nat2N.id, length_firstn.
    transitivity (Nat.min n N); [f_equal; exact Hlen | unfold n; lia].
  - rewrite (firstn_skipn n dst) in Ec, Ea.
    exists lg. destruct k'; assumption.
Qed.

(** ** Reading whatever the buffer holds *)

Lemma byte_of_N_to_N (b : byte) (x : N) :
  byte_of_N (Byte.to_N b + 256 * x) = b.
Proof.
  unfold byte_of_N. pose proof (Byte.to_N_bounded b) as Hb.
  replace ((Byte.to_N b + 256 * x) mod 256)%N with (Byte.to_N b).
  - now rewrite Byte.of_to_N.
  - rewrite (N.mul_comm 256 x), N.Div0.mod_add.
    symmetry. apply N.mod_small. lia.
Qed.

Lemma le_bytes_le_value (l : list byte) :
  le_bytes (length l) (le_value l) = l.
Proof.
  induction l as [|b l IH]; cbn [length le_bytes le_value];
    [reflexivity|].
  rewrite byte_of_N_to_N. f_equal.
  pose proof (Byte.to_N_bounded b) as Hb.
  replace ((Byte.to_N b + 256 * le_value l) / 256)%N with (le_value l);
    [exact IH|].
  rewrite (N.mul_comm 256 (le_value l)), N.div_add by discriminate.
  rewrite (N.div_small (Byte.to_N b)) by lia. lia.
Qed.

Lemma le_value_bound (l : list byte) :
  (le_value l < 256 ^ N.of_nat (length l))%N.
Proof.
  induction l as [|b l IH]; cbn [length le_value].
  - cbn. lia.
  - rewrite Nat2N.inj_succ, N.pow_succ_r'.
    pose proof (Byte.to_N_bounded b). lia.
Qed.

Lemma objects_at_bytes (m : Memory) (size n : nat) :
  forall a,
    flat_map (fun x => x) (objects_at m a size n)
    = memcpy_from m a (n * size).
Proof.
  induction n as [|n IH]; intros a; cbn [objects_at flat_map Nat.mul];
    [reflexivity|].
  now rewrite IH, memcpy_from_app.
Qed.

Lemma length_objects_at (m : Memory) (size n : nat) :
  forall a, length (objects_at m a size n) = n.
Proof.
  induction n as [|n IH]; intros a; cbn [objects_at length];
    [reflexivity | now rewrite IH].
Qed.

Lemma objects_at_read (m : Memory) (size n : nat) (dflt : list byte) :
  forall a,
    Forall (fun x => reads (operator_shr (TLeaf size)) dflt x x)
           (objects_at m a size n).
Proof.
  induction n as [|n IH]; intros a; cbn [objects_at]; constructor.
  - cbn [operator_shr]. apply reads_Deserialise_raw;
      [reflexivity | apply length_memcpy_from | reflexivity].
  - apply IH.
Qed.

(** What the memory under the head holds, read as a count and that many
    objects of [size] bytes. *)
Lemma holds_count_and_objects (size : nat) (d : St Deserialiser) :
  let count :=
    le_value (memcpy_from (mem d) (m_Head (ctx d)) sizeof_size_t) in
  let objects :=
    objects_at (mem d) (m_Head (ctx d) + N.of_nat sizeof_size_t) size
               (N.to_nat count) in
  (container_size objects < size_t_max)%N
  /\ container_size objects = count
  /\ holds d (size_t_repr (container_size objects)
              ++ flat_map (fun x => x) objects).
Proof.
  cbv zeta.
  set (hb := memcpy_from (mem d) (m_Head (ctx d)) sizeof_size_t).
  assert (Hhb : length hb = sizeof_size_t) by apply length_memcpy_from.
  assert (Hc : container_size
                 (objects_at (mem d)
                    (m_Head (ctx d) + N.of_nat sizeof_size_t) size
                    (N.to_nat (le_value hb)))
               = le_value hb).
  { unfold container_size. rewrite length_objects_at. apply N2Nat.id. }
  rewrite Hc. split; [|split; [reflexivity|]].
  - pose proof (le_value_bound hb) as Hb. rewrite Hhb in Hb. exact Hb.
  - unfold size_t_repr. rewrite <- Hhb at 1. rewrite le_bytes_le_value.
    rewrite objects_at_bytes. unfold holds.
    rewrite length_app, Hhb, length_memcpy_from, memcpy_from_app.
    reflexivity.
Qed.

(** X7.  The sequence readers check nothing.  Whatever the memory under the
    head holds, the first [sizeof( size_t )] bytes are taken as the count and
    that many elements are read from the bytes that follow; with elements of
    a type that is copied as memory the read ends with its head
    [sizeof( size_t ) + count * sizeof( T )] bytes on (a container takes any
    count here: a failed allocation is outside the embedding).  A vector and
    a deque then hold exactly those elements in place of what they held, a
    list holds them after what it held, a forward list before. *)
Theorem sequence_read_unchecked (size : nat) (d : St Deserialiser)
    (c : list (list byte)) :
  let count :=
    N.to_nat (le_value (memcpy_from (mem d) (m_Head (ctx d))
                          sizeof_size_t)) in
  let objects :=
    objects_at (mem d) (m_Head (ctx d) + N.of_nat sizeof_size_t) size
               count in
  let d' := consumed d (sizeof_size_t + count * size) in
  (exists lg, operator_shr (TSeq std_vector (TLeaf size)) d c
              = (d' lg, objects, Normal))
  /\ (exists lg, operator_shr (TSeq std_deque (TLeaf size)) d c
                 = (d' lg, objects, Normal))
  /\ (exists lg, operator_shr (TSeq std_list (TLeaf size)) d c
                 = (d' lg, c ++ objects, Normal))
  /\ (exists lg, operator_shr (TSeq std_forward_list (TLeaf size)) d c
                 = (d' lg, objects ++ c, Normal)).
Proof.
  cbv zeta. destruct (holds_count_and_objects size d) as (Hfit & Hc & H).
  cbv zeta in Hfit, Hc, H.
  set (objects := objects_at (mem d)
                    (m_Head (ctx d) + N.of_nat sizeof_size_t) size
                    (N.to_nat (le_value (memcpy_from (mem d)
                                           (m_Head (ctx d))
                                           sizeof_size_t)))) in *.
  assert (Hlen : length (size_t_repr (container_size objects)
                         ++ flat_map (fun x => x) objects)
                 = sizeof_size_t
                   + N.to_nat (le_value (memcpy_from (mem d)
                                           (m_Head (ctx d))
                                           sizeof_size_t)) * size).
  { rewrite length_app. unfold size_t_repr. rewrite length_le_bytes.
    unfold objects. now rewrite objects_at_bytes, length_memcpy_from. }
  assert (Hel : forall dflt,
             Forall (fun x => reads (operator_shr (TLeaf size)) dflt x x)
                    objects).
  { intros dflt. apply objects_at_read. }
  assert (Hinto : Forall2 (fun x dst => reads (operator_shr (TLeaf size))
                                          dst x x)
                          objects
                          (resize (length objects)
                                  (default_value (TLeaf size)) c)).
  { apply (Forall2_of_Forall
             (fun x => forall dst, reads (operator_shr (TLeaf size))
                                     dst x x)
             (fun _ => True)).
    - intros x dst Hx _. apply Hx.
    - now rewrite length_resize.
    - apply Forall_forall. intros x Hx dst.
      pose proof (Hel dst) as Hd. rewrite Forall_forall in Hd.
      now apply Hd.
    - apply Forall_forall. intros x _. exact I. }
  pose proof (reads_vector_into (operator_shr (TLeaf size)) (fun x => x)
                (default_value (TLeaf size)) objects c Hinto Hfit d H)
    as Hv.
  pose proof (reads_list (operator_shr (TLeaf size))
                (default_value (TLeaf size)) (fun x => x) objects
                (Hel _) Hfit c d H) as Hl.
  pose proof (reads_forward_list (operator_shr (TLeaf size))
                (default_value (TLeaf size)) (fun x => x) objects
                (Hel _) Hfit c d H) as Hf.
  destruct Hv as [lv Ev]. destruct Hl as [ll El]. destruct Hf as [lf Ef].
  rewrite <- Hlen.
  split; [exists lv; exact Ev|]. split; [exists lv; exact Ev|].
  split; [exists ll; exact El | exists lf; exact Ef].
Qed.

(** ** Containers that keep equal keys *)

Lemma insert_ordered_permutation {E K : Type} (key : E -> K)
    (less_K : K -> K -> bool) (e : E) (c : list E) :
  Permutation (insert_ordered key less_K e c) (c ++ [e]).
Proof.
  induction c as [|x c IH]; cbn [insert_ordered app]; [reflexivity|].
  destruct (less_K (key e) (key x)).
  - change (x :: c ++ [e]) with ((x :: c) ++ [e]).
    apply Permutation_cons_append.
  - now constructor.
Qed.

Lemma fold_emplace_permutation {E : Type} (emplace : E -> list E -> list E) :
  (forall e c, Permutation (emplace e c) (c ++ [e])) ->
  forall es c,
    Permutation (fold_left (fun c e => emplace e c) es c) (c ++ es).
Proof.
  intros H. induction es as [|e es IH]; intros c; cbn [fold_left].
  - now rewrite app_nil_r.
  - rewrite IH, H, <- app_assoc. reflexivity.
Qed.

(** X8.  Reading into a container that keeps equal keys ([std::multimap],
    [std::unordered_multimap], [std::multiset], [std::unordered_multiset])
    drops nothing: the read returns normally with its head past all the stored
    elements, and the container then holds what it held before together with
    every stored element, equal keys included. *)
Theorem multi_keys_read :
  (forall (k : MapKind) (a b : Ty) (es c : list (Val a * Val b))
          (d : St Deserialiser),
     let stored := size_t_repr (container_size es)
                   ++ flat_map (fun e => wire a (fst e) ++ wire b (snd e))
                               es in
     unique_keys_map k = false ->
     count_widths_agree a = true -> count_widths_agree b = true ->
     (container_size es < size_t_max)%N ->
     forallb (fun e => well_formed a (fst e) && well_formed b (snd e)) es
     = true ->
     forallb (fun e => streams_whole_state a (fst e)
                       && streams_whole_state b (snd e)) es = true ->
     holds d stored ->
     exists lg r,
       operator_shr (TMap k a b) d c
       = (consumed d (length stored) lg, r, Normal)
       /\ Permutation r (c ++ es))
  /\ (forall (k : SetKind) (t : Ty) (es c : list (Val t))
             (d : St Deserialiser),
        let stored := size_t_repr (container_size es)
                      ++ flat_map (wire t) es in
        unique_keys_set k = false ->
        count_widths_agree t = true ->
        (container_size es < size_t_max)%N ->
        forallb (well_formed t) es = true ->
        forallb (streams_whole_state t) es = true ->
        holds d stored ->
        exists lg r,
          operator_shr (TSet k t) d c
          = (consumed d (length stored) lg, r, Normal)
          /\ Permutation r (c ++ es)).
Proof.
  split.
  - intros k a b es c d stored Hk Hwa Hwb Hfit Hwf Hs H.
    destruct (shr_map_emplaces k a b es c d Hwa Hwb Hfit Hwf Hs H)
      as [lg E].
    exists lg. eexists. split; [exact E|].
    apply fold_emplace_permutation. intros e c'.
    destruct k; try discriminate; cbn [emplace_map].
    + apply insert_ordered_permutation.
    + reflexivity.
  - intros k t es c d stored Hk Hw Hfit Hwf Hs H.
    destruct (shr_set_emplaces k t es c d Hw Hfit Hwf Hs H) as [lg E].
    exists lg. eexists. split; [exact E|].
    apply fold_emplace_permutation. intros e c'.
    destruct k; try discriminate; cbn [emplace_set].
    + apply insert_ordered_permutation.
    + reflexivity.
Qed.

(** ** One encoding for every container of elements *)

Lemma count_repr_size_t (k : SeqKind) {V : Type} (l : list V) :
  match k with
  | std_forward_list => Nat.eqb sizeof_ptrdiff_t sizeof_size_t
  | _ => true
  end = true ->
  (container_size l < size_t_max)%N ->
  count_repr k l = size_t_repr (container_size l).
Proof.
  intros Hk Hfit. destruct k; try reflexivity.
  cbn [count_repr]. apply Nat.eqb_eq in Hk.
  now apply ptrdiff_t_repr_size_t_repr.
Qed.

(** The stored count and elements [vs] read as a sequence of any kind into
    an empty destination. *)
Lemma reads_sequence (k : SeqKind) (t : Ty) (vs : list (Val t)) :
  count_widths_agree t = true ->
  (container_size vs < size_t_max)%N ->
  forallb (well_formed t) vs = true ->
  forallb (streams_whole_state t) vs = true ->
  reads (operator_shr (TSeq k t)) []
        (size_t_repr (container_size vs) ++ flat_map (wire t) vs) vs.
Proof.
  intros Hw Hfit Hwf Hs.
  pose proof (element_reads t Hw vs Hwf Hs) as Hel.
  destruct k; cbn [operator_shr].
  - now apply reads_vector.
  - apply (reads_list _ _ _ _ Hel Hfit []).
  - rewrite <- (app_nil_r vs) at 3.
    apply (reads_forward_list _ _ _ _ Hel Hfit []).
  - now apply reads_deque.
  - now apply reads_deque.
  - now apply reads_priority_queue.
  - now apply reads_deque.
Qed.

Lemma holds_written (s : St Serialiser) (bytes : list byte)
    (lg : list Event) (d : St Deserialiser) :
  m_Head (ctx d) = m_Head (ctx s) ->
  mem d = mem (wrote s bytes lg) ->
  holds d bytes.
Proof.
  intros Hh Hm. unfold holds. rewrite Hm, Hh.
  apply (proj1 (wrote_frame s bytes lg)).
Qed.

(** X9.  Every container of elements is stored as its count and its elements
    in iteration order, so what one kind wrote another kind reads.  The
    encoding of a sequence of any kind (a [std::forward_list] where its count
    is written as wide as a [size_t]), of a set of any kind, and of a map of
    any kind is read back, by a Deserialiser at the head where the write
    began, as a sequence of any kind into an empty destination: the
    destination then holds the elements (for a map, the pairs of key and
    value) in the order the writer iterated. *)
Theorem containers_interchange (k2 : SeqKind) (s : St Serialiser)
    (d : St Deserialiser) :
  m_Head (ctx d) = m_Head (ctx s) ->
  (forall (k1 : SeqKind) (t : Ty) (v : list (Val t)),
     count_widths_agree (TSeq k1 t) = true ->
     well_formed (TSeq k1 t) v = true ->
     streams_whole_state (TSeq k1 t) v = true ->
     mem d = mem (fst (fst (operator_shl (TSeq k1 t) s v))) ->
     exists lg,
       operator_shr (TSeq k2 t) d []
       = (consumed d (length (wire (TSeq k1 t) v)) lg, v, Normal))
  /\ (forall (k1 : SetKind) (t : Ty) (v : list (Val t)),
        count_widths_agree (TSet k1 t) = true ->
        well_formed (TSet k1 t) v = true ->
        streams_whole_state (TSet k1 t) v = true ->
        mem d = mem (fst (fst (operator_shl (TSet k1 t) s v))) ->
        exists lg,
          operator_shr (TSeq k2 t) d []
          = (consumed d (length (wire (TSet k1 t) v)) lg, v, Normal))
  /\ (forall (k1 : MapKind) (a b : Ty) (v : list (Val a * Val b)),
        count_widths_agree (TMap k1 a b) = true ->
        well_formed (TMap k1 a b) v = true ->
        streams_whole_state (TMap k1 a b) v = true ->
        mem d = mem (fst (fst (operator_shl (TMap k1 a b) s v))) ->
        exists lg,
          operator_shr (TSeq k2 (TPair a b)) d []
          = (consumed d (length (wire (TMap k1 a b) v)) lg, v, Normal)).
Proof.
  intros Hh. split; [|split].
  - intros k1 t v Hw Hwf Hs Hm.
    destruct (proj1 shl_spec (TSeq k1 t) s v I) as [ls E].
    rewrite E in Hm. cbn [fst] in Hm.
    pose proof (holds_written s _ ls d Hh Hm) as H.
    cbn [wire count_widths_agree well_formed streams_whole_state] in *.
    apply andb_prop in Hw. destruct Hw as [Hk Hw].
    apply andb_prop in Hwf. destruct Hwf as [Hfit Hall].
    apply N.ltb_lt in Hfit.
    pose proof (reads_sequence k2 t v Hw Hfit Hall Hs) as Hr.
    rewrite <- (count_repr_size_t k1 v Hk Hfit) in Hr.
    exact (Hr d H).
  - intros k1 t v Hw Hwf Hs Hm.
    destruct (proj1 shl_spec (TSet k1 t) s v I) as [ls E].
    rewrite E in Hm. cbn [fst] in Hm.
    pose proof (holds_written s _ ls d Hh Hm) as H.
    cbn [wire count_widths_agree well_formed streams_whole_state] in *.
    apply andb_prop in Hwf. destruct Hwf as [Hwf _].
    apply andb_prop in Hwf. destruct Hwf as [Hfit Hall].
    apply N.ltb_lt in Hfit.
    exact (reads_sequence k2 t v Hw Hfit Hall Hs d H).
  - intros k1 a b v Hw Hwf Hs Hm.
    destruct (proj1 shl_spec (TMap k1 a b) s v I) as [ls E].
    rewrite E in Hm. cbn [fst] in Hm.
    pose proof (holds_written s _ ls d Hh Hm) as H.
    cbn [wire count_widths_agree well_formed streams_whole_state] in *.
    apply andb_prop in Hwf. destruct Hwf as [Hwf _].
    apply andb_prop in Hwf. destruct Hwf as [Hfit Hall].
    apply N.ltb_lt in Hfit.
    exact (reads_sequence k2 (TPair a b) v Hw Hfit Hall Hs d H).
Qed.

(** ** A value inside a longer stream *)

(** X10.  A value is read back from wherever in a stream it was written.  Let
    a Serialiser in any state (after any earlier calls) write the value and
    then receive any further calls; a Deserialiser on the resulting memory
    whose head stands where that write began reads the value into a freshly
    constructed destination, returns normally, and leaves its head where the
    write ended, ready for what was written next. *)
Theorem round_trip_mid_stream (t : Ty) (v : Val t) (s : St Serialiser)
    (later : list SerialiserCall) (d : St Deserialiser) :
  count_widths_agree t = true ->
  well_formed t v = true ->
  streams_whole_state t v = true ->
  m_Head (ctx d) = m_Head (ctx s) ->
  mem d = mem (fold_left Serialiser_after later
                 (fst (fst (operator_shl t s v)))) ->
  exists lg,
    operator_shr t d (default_value t)
    = (consumed d (length (wire t v)) lg, v, Normal)
    /\ m_Head (ctx (consumed d (length (wire t v)) lg))
       = m_Head (ctx (fst (fst (operator_shl t s v)))).
Proof.
  intros Hw Hwf Hs Hh Hm.
  destruct (proj1 shl_spec t s v I) as [l1 E]. rewrite E in *.
  cbn [fst] in *.
  destruct (calls_wrote later (wrote s (wire t v) l1)) as [l2 E2].
  rewrite E2, wrote_wrote in Hm.
  pose proof (holds_written s _ _ d Hh Hm) as H.
  apply (holds_app d (wire t v) (flat_map written later) []) in H.
  destruct H as [H _].
  destruct (proj1 shr_spec t Hw v Hwf Hs d H) as [lg E'].
  exists lg. split; [exact E'|].
  unfold consumed, wrote. cbn [ctx m_Head]. now rewrite Hh.
Qed.

(** ** Decoding is unambiguous *)

(** X11.  Two values of one type that leave the same bytes in memory when
    written from the same head are the same value: no two well-formed values
    of a type share their encoding, and none has an encoding that begins
    another's. *)
Theorem write_injective (t : Ty) (v1 v2 : Val t) (s1 s2 : St Serialiser) :
  count_widths_agree t = true ->
  well_formed t v1 = true -> streams_whole_state t v1 = true ->
  well_formed t v2 = true -> streams_whole_state t v2 = true ->
  m_Head (ctx s1) = m_Head (ctx s2) ->
  (forall x, mem (fst (fst (operator_shl t s1 v1))) x
             = mem (fst (fst (operator_shl t s2 v2))) x) ->
  v1 = v2.
Proof.
  intros Hw Hwf1 Hs1 Hwf2 Hs2 Hh Hm.
  destruct (proj1 shl_spec t s1 v1 I) as [l1 E1].
  destruct (proj1 shl_spec t s2 v2 I) as [l2 E2].
  rewrite E1, E2 in Hm. cbn [fst] in Hm.
  set (d := new_Deserialiser (m_Head (ctx s1))
              (mem (wrote s1 (wire t v1) l1))).
  assert (H1 : holds d (wire t v1)).
  { apply (holds_written s1 _ l1); reflexivity. }
  assert (H2 : holds d (wire t v2)).
  { unfold holds, d, new_Deserialiser. cbn [ctx mem m_Head].
    rewrite (memcpy_from_ext (mem (wrote s1 (wire t v1) l1))
               (mem (wrote s2 (wire t v2) l2)))
      by (intros x _; apply Hm).
    rewrite Hh. apply (proj1 (wrote_frame s2 (wire t v2) l2)). }
  destruct (proj1 shr_spec t Hw v1 Hwf1 Hs1 d H1) as [lg1 R1].
  destruct (proj1 shr_spec t Hw v2 Hwf2 Hs2 d H2) as [lg2 R2].
  rewrite R1 in R2. now injection R2.
Qed.

(** ** The hooks and copies of a write and of a measure *)

Section Traced.
Context {C : Type}.

Lemma traced_skip {V : Type} : traced (@skip C V) (fun _ => []).
Proof. intros s v. cbn. now rewrite app_nil_r. Qed.

Lemma traced_for_both {A B : Type} (F : Functor C A) (G : Functor C B)
    ea eb :
  traced F ea -> traced G eb ->
  traced (for_both F G) (fun v => ea (fst v) ++ eb (snd v)).
Proof.
  intros HF HG s [a b]. unfold for_both. cbn [fst snd].
  destruct (HF s a) as [E1 O1].
  destruct (F s a) as [[s1 a'] o1]. cbn [fst snd] in *. subst o1.
  destruct (HG s1 b) as [E2 O2].
  destruct (G s1 b) as [[s2 b'] o2]. cbn [fst snd] in *.
  now rewrite E2, E1, app_assoc.
Qed.

Lemma traced_on_members {A B : Type} (G : Functor C B) eb :
  traced G eb -> traced (@on_members C A B G) (fun v => eb (snd v)).
Proof.
  intros HG s [a b]. unfold on_members. cbn [fst snd].
  destruct (HG s b) as [E O].
  destruct (G s b) as [[s1 b'] o]. cbn [fst snd] in *. now split.
Qed.

Lemma traced_for_each {V : Type} (F : Functor C V) ev :
  traced F ev -> traced (for_each F) (flat_map ev).
Proof.
  intros HF s l. revert s. induction l as [|x l IH]; intros s.
  - cbn. now rewrite app_nil_r.
  - cbn [for_each flat_map]. destruct (HF s x) as [E O].
    destruct (F s x) as [[s1 x'] o]. cbn [fst snd] in *. subst o.
    destruct (IH s1) as [E' O'].
    destruct (for_each F s1 l) as [[s2 l'] o']. cbn [fst snd] in *.
    now rewrite E', E, app_assoc.
Qed.
End Traced.

Lemma traced_written {V : Type} (F : Functor Serialiser V) ev
    (hdr : list V -> list byte) :
  traced F ev ->
  traced (fun s a_Container =>
            for_each F (SerialiseAsMemory (hdr a_Container) s) a_Container)
         (fun l => EvAsMemory (N.of_nat (length (hdr l))) :: flat_map ev l).
Proof.
  intros H s l.
  destruct (traced_for_each F ev H (SerialiseAsMemory (hdr l) s) l)
    as [E O].
  split; [|exact O]. rewrite E. cbn [SerialiseAsMemory log].
  now rewrite <- app_assoc.
Qed.

Lemma traced_Serialise {V : Type} cls h n (repr : V -> list byte) body ev :
  traced body ev ->
  traced (Serialisation_Serialise cls h n repr body)
         (fun v =>
            when_declared (HasOnBeforeSerialise h) cls OnBeforeSerialise
            ++ (if HasOnSerialise h then EvHook cls OnSerialise :: ev v
                else [EvAsMemory (N.of_nat n)])
            ++ when_declared (HasOnAfterSerialise h) cls OnAfterSerialise).
Proof.
  intros H s v. unfold Serialisation_Serialise, when_declared.
  destruct (HasOnSerialise h).
  - set (s0 := run_hook cls OnSerialise _).
    destruct (H s0 v) as [E O].
    destruct (body s0 v) as [[s1 v'] o]. cbn [fst snd] in *. subst o.
    assert (E1 : log s1
                 = log s
                   ++ (if HasOnBeforeSerialise h
                       then [EvHook cls OnBeforeSerialise] else [])
                   ++ EvHook cls OnSerialise :: ev v).
    { rewrite E. unfold s0.
      destruct (HasOnBeforeSerialise h); cbn [run_hook log_event log app];
        rewrite <- ?app_assoc; reflexivity. }
    split; [|reflexivity].
    destruct (HasOnAfterSerialise h); cbn [run_hook log_event log fst];
      rewrite E1, <- ?app_assoc; cbn [app]; rewrite <- ?app_assoc;
      rewrite ?app_nil_r; reflexivity.
  - cbn [fst snd]. split; [|reflexivity].
    destruct (HasOnBeforeSerialise h), (HasOnAfterSerialise h);
      cbn [run_hook log_event SerialiseAsMemory log fst app];
      rewrite ?length_object_representation, <- ?app_assoc;
      reflexivity.
Qed.

Lemma shl_traced :
  (forall t, traced (operator_shl t) (trace_shl t))
  /\ (forall ts, traced (SerialiseVariadic ts) (traces_shl ts)).
Proof.
  apply Ty_TyList_ind.
  - (* TLeaf *) intros n s v. cbn [operator_shl trace_shl].
    destruct (traced_Serialise EmptyString no_hooks n (fun raw => raw)
                (@skip Serialiser (list byte)) (fun _ => [])
                traced_skip s v) as [E O].
    split; [exact E | exact O].
  - (* TObject *) intros cls h n ms IH. cbn [operator_shl trace_shl].
    apply (traced_Serialise cls h n (@fst (list byte) (Vals ms))).
    now apply traced_on_members.
  - (* TPair *) intros a IHa b IHb. cbn [operator_shl trace_shl].
    apply (traced_for_both _ _ _ _ IHa IHb).
  - (* TTuple *) intros ts IH. exact IH.
  - (* TString *) intros cs s v. cbn [operator_shl trace_shl].
    unfold SerialiseAsContainer_basic_string.
    cbn [SerialiseAsMemory log fst snd]. split; [|reflexivity].
    unfold size_t_repr. rewrite length_le_bytes, length_chars.
    now rewrite <- app_assoc.
  - (* TFixed *) intros k n t IH s v. cbn [trace_shl].
    pose proof (traced_written _ _ (fun _ => size_t_repr (N.of_nat n)) IH
                  s v) as H.
    unfold size_t_repr in H. rewrite length_le_bytes in H.
    destruct k; exact H.
  - (* TSeq *) intros k t IH s v. cbn [trace_shl].
    pose proof (traced_written _ _
                  (fun l => size_t_repr (container_size l)) IH s v) as H.
    pose proof (traced_written _ _
                  (fun l => ptrdiff_t_repr (std_distance l)) IH s v) as Hf.
    unfold size_t_repr, ptrdiff_t_repr in H, Hf.
    rewrite length_le_bytes in H, Hf.
    destruct k; cbn [operator_shl count_width]; try exact H; try exact Hf.
    (* std_priority_queue *)
    unfold SerialiseAsContainer_priority_queue,
      SerialiseAsContainer_vector.
    destruct H as [E O].
    destruct (for_each (operator_shl t) _ v) as [[s1 l'] o].
    cbn [fst snd] in *. subst o. now split.
  - (* TMap *) intros k a IHa b IHb s v. cbn [trace_shl].
    pose proof (traced_written _ _
                  (fun l => size_t_repr (container_size l))
                  (traced_for_both _ _ _ _ IHa IHb) s v) as H.
    unfold size_t_repr in H. rewrite length_le_bytes in H.
    destruct k; exact H.
  - (* TSet *) intros k t IH s v. cbn [trace_shl].
    pose proof (traced_written _ _
                  (fun l => size_t_repr (container_size l)) IH s v) as H.
    unfold size_t_repr in H. rewrite length_le_bytes in H.
    destruct k; exact H.
  - (* TNil *) apply traced_skip.
  - (* TCons *) intros t IHt ts IHts. cbn [SerialiseVariadic traces_shl].
    apply (traced_for_both _ _ _ _ IHt IHts).
Qed.

(** X12.  The hooks a write runs and the raw copies it makes depend on the
    value alone, not on the Serialiser or the memory, and follow the value:
    for an object the before hook, then the core hook and after it what the
    members run (or, without a core hook, the raw copy of the object), then
    the after hook; for a container the copy of the count, then for each
    element in iteration order all that the write of that element runs,
    before anything of the next element. *)
Theorem write_trace (t : Ty) (s : St Serialiser) (v : Val t) :
  log (fst (fst (operator_shl t s v))) = log s ++ trace_shl t v.
Proof. exact (proj1 (proj1 shl_traced t s v)). Qed.

Lemma traced_counted {V : Type} (F : Functor Sizer V) ev (w : N) :
  traced F ev ->
  traced (fun z a_Container => for_each F (AddSizeOfMemory w z) a_Container)
         (fun l => EvAsMemory w :: flat_map ev l).
Proof.
  intros H z l.
  destruct (traced_for_each F ev H (AddSizeOfMemory w z) l) as [E O].
  split; [|exact O]. rewrite E. cbn [AddSizeOfMemory log].
  now rewrite <- app_assoc.
Qed.

Lemma traced_SizeOf {V : Type} cls h n (body : Functor Sizer V) ev :
  traced body ev ->
  traced (Serialisation_SizeOf cls h n body)
         (fun v => if HasOnSize h then EvHook cls OnSize :: ev v
                   else [EvAsMemory (N.of_nat n)]).
Proof.
  intros H z v. unfold Serialisation_SizeOf. destruct (HasOnSize h).
  - destruct (H (run_hook cls OnSize z) v) as [E O].
    split; [|exact O]. rewrite E. cbn [run_hook log_event log].
    now rewrite <- app_assoc.
  - cbn. now split.
Qed.

Lemma plus_traced :
  (forall t, traced (operator_plus t) (trace_plus t))
  /\ (forall ts, traced (SizeOfVariadic ts) (traces_plus ts)).
Proof.
  apply Ty_TyList_ind.
  - (* TLeaf *) intros n z v. cbn [operator_plus trace_plus].
    exact (traced_SizeOf EmptyString no_hooks n
             (@skip Sizer (list byte)) (fun _ => []) traced_skip z v).
  - (* TObject *) intros cls h n ms IH. cbn [operator_plus trace_plus].
    apply (traced_SizeOf cls h n). now apply traced_on_members.
  - (* TPair *) intros a IHa b IHb. cbn [operator_plus trace_plus].
    apply (traced_for_both _ _ _ _ IHa IHb).
  - (* TTuple *) intros ts IH. exact IH.
  - (* TString *) intros cs z v. cbn [operator_plus trace_plus].
    unfold AddSizeOfContainer_basic_string.
    cbn [AddSizeOfMemory log fst snd]. split; [|reflexivity].
    now rewrite <- app_assoc.
  - (* TFixed *) intros k n t IH z v. cbn [trace_plus].
    pose proof (traced_counted _ _ (N.of_nat sizeof_size_t) IH z v) as H.
    destruct k; exact H.
  - (* TSeq *) intros k t IH z v. cbn [trace_plus].
    pose proof (traced_counted _ _ (N.of_nat sizeof_size_t) IH z v) as H.
    pose proof (traced_counted _ _ (N.of_nat sizeof_ptrdiff_t) IH z v)
      as Hf.
    destruct k; cbn [operator_plus count_width]; try exact H;
      try exact Hf.
    (* std_priority_queue *)
    unfold AddSizeOfContainer_priority_queue, AddSizeOfContainer_vector.
    destruct H as [E O].
    destruct (for_each (operator_plus t) _ v) as [[z1 l'] o].
    cbn [fst snd] in *. subst o. now split.
  - (* TMap *) intros k a IHa b IHb z v. cbn [trace_plus].
    pose proof (traced_counted _ _ (N.of_nat sizeof_size_t)
                  (traced_for_both _ _ _ _ IHa IHb) z v) as H.
    destruct k; exact H.
  - (* TSet *) intros k t IH z v. cbn [trace_plus].
    pose proof (traced_counted _ _ (N.of_nat sizeof_size_t) IH z v) as H.
    destruct k; exact H.
  - (* TNil *) apply traced_skip.
  - (* TCons *) intros t IHt ts IHts. cbn [SizeOfVariadic traces_plus].
    apply (traced_for_both _ _ _ _ IHt IHts).
Qed.

Lemma forallb_flat_map {A B : Type} (p : B -> bool) (f : A -> list B)
    (l : list A) :
  (forall x, forallb p (f x) = true) -> forallb p (flat_map f l) = true.
Proof.
  intros H. induction l as [|x l IH]; cbn [flat_map]; [reflexivity|].
  now rewrite forallb_app, H, IH.
Qed.

Lemma trace_plus_of_a_measure :
  (forall t v, forallb of_a_measure (trace_plus t v) = true)
  /\ (forall ts v, forallb of_a_measure (traces_plus ts v) = true).
Proof.
  apply Ty_TyList_ind.
  - reflexivity.
  - intros cls h n ms IH v. cbn [trace_plus].
    destruct (HasOnSize h); [|reflexivity].
    cbn [forallb of_a_measure andb]. apply IH.
  - intros a IHa b IHb v. cbn [trace_plus].
    now rewrite forallb_app, IHa, IHb.
  - intros ts IH v. apply IH.
  - reflexivity.
  - intros k n t IH v. cbn [trace_plus forallb of_a_measure andb].
    now apply forallb_flat_map.
  - intros k t IH v. cbn [trace_plus forallb of_a_measure andb].
    now apply forallb_flat_map.
  - intros k a IHa b IHb v. cbn [trace_plus forallb of_a_measure andb].
    apply forallb_flat_map. intros e.
    now rewrite forallb_app, IHa, IHb.
  - intros k t IH v. cbn [trace_plus forallb of_a_measure andb].
    now apply forallb_flat_map.
  - reflexivity.
  - intros t IHt ts IHts v. cbn [traces_plus].
    now rewrite forallb_app, IHt, IHts.
Qed.

(** X13.  A measure runs the [OnSize] hooks and nothing else: what it adds
    to the trace depends on the value alone, and holds, beside the sizes
    handed to [AddSizeOfMemory], only [OnSize] hooks, one per object of a
    class that declares it; no before hook, after hook or [OnSerialise]
    runs while a value is measured. *)
Theorem measure_trace (t : Ty) (z : St Sizer) (v : Val t) :
  log (fst (fst (operator_plus t z v))) = log z ++ trace_plus t v
  /\ forallb of_a_measure (trace_plus t v) = true.
Proof.
  split.
  - exact (proj1 (proj1 plus_traced t z v)).
  - apply (proj1 trace_plus_of_a_measure).
Qed.

(** ** The count in front of the elements *)

Lemma bytes_written_wrote (s : St Serialiser) (bytes : list byte)
    (lg : list Event) :
  bytes_written s (wrote s bytes lg) = bytes.
Proof.
  unfold bytes_written, wrote. cbn [ctx mem m_Head].
  replace (m_Head (ctx s) + N.of_nat (length bytes) - m_Head (ctx s))%N
    with (N.of_nat (length bytes)) by lia.
  rewrite Nat2N.id. apply memcpy_from_to.
Qed.

(** C8.  On a build whose [ptrdiff_t] is as wide as its [size_t], the write
    of every variable-length container (a sequence of any kind, the
    [std::forward_list] included, a string, a map and a set of any kind)
    puts into the stream the element count as a [size_t], the native
    unsigned size type, and after it the encoded elements in iteration
    order.  That header has the same width for all of them,
    [sizeof( size_t )] bytes, and read as an unsigned integer it is the
    count. *)
Theorem count_header (s : St Serialiser) :
  sizeof_ptrdiff_t = sizeof_size_t ->
  (forall (k : SeqKind) (t : Ty) (v : list (Val t)),
     (container_size v < size_t_max)%N ->
     bytes_written s (fst (fst (operator_shl (TSeq k t) s v)))
     = size_t_repr (container_size v) ++ flat_map (wire t) v)
  /\ (forall (cs : nat) (v : list N),
        bytes_written s (fst (fst (operator_shl (TString cs) s v)))
        = size_t_repr (container_size v) ++ flat_map (le_bytes cs) v)
  /\ (forall (k : MapKind) (a b : Ty) (v : list (Val a * Val b)),
        bytes_written s (fst (fst (operator_shl (TMap k a b) s v)))
        = size_t_repr (container_size v)
          ++ flat_map (fun e => wire a (fst e) ++ wire b (snd e)) v)
  /\ (forall (k : SetKind) (t : Ty) (v : list (Val t)),
        bytes_written s (fst (fst (operator_shl (TSet k t) s v)))
        = size_t_repr (container_size v) ++ flat_map (wire t) v)
  /\ (forall count : N,
        (count < size_t_max)%N ->
        length (size_t_repr count) = sizeof_size_t
        /\ le_value (size_t_repr count) = count).
Proof.
  intros Hwidth. split; [|split; [|split; [|split]]].
  - intros k t v Hfit.
    destruct (proj1 shl_spec (TSeq k t) s v I) as [lg E].
    rewrite E. cbn [fst]. rewrite bytes_written_wrote. cbn [wire].
    f_equal. apply count_repr_size_t; [|exact Hfit].
    destruct k; try reflexivity. now apply Nat.eqb_eq.
  - intros cs v.
    destruct (proj1 shl_spec (TString cs) s v I) as [lg E].
    rewrite E. cbn [fst]. now rewrite bytes_written_wrote.
  - intros k a b v.
    destruct (proj1 shl_spec (TMap k a b) s v I) as [lg E].
    rewrite E. cbn [fst]. now rewrite bytes_written_wrote.
  - intros k t v.
    destruct (proj1 shl_spec (TSet k t) s v I) as [lg E].
    rewrite E. cbn [fst]. now rewrite bytes_written_wrote.
  - intros count Hfit. unfold size_t_repr. split.
    + apply length_le_bytes.
    + now apply le_value_le_bytes_small.
Qed.

End Platform.

(** * The properties at sample inputs *)

(** The scenario of the specification measures 35 bytes on a build with
    8-byte [size_t]: [8 + 3] for the text, [4] for the integer, [8 + 3 * 4]
    for the sequence; and its write leaves this trace. *)
Example scenario_measure :
  operator_size_t
    (fst (fst (operator_plus 8 8 Scenario (new_Sizer zeroed) scenario)))
  = 35%N.
Proof. vm_compute. reflexivity. Qed.

Example scenario_trace :
  log (fst (fst (operator_shl 8 8 Scenario (new_Serialiser 4096 zeroed)
                              scenario)))
  = [EvHook "Scenario" OnBeforeSerialise; EvHook "Scenario" OnSerialise;
     EvAsMemory 8; EvAsMemory 3; EvAsMemory 4; EvAsMemory 8; EvAsMemory 4;
     EvAsMemory 4; EvAsMemory 4; EvHook "Scenario" OnAfterSerialise].
Proof. vm_compute. reflexivity. Qed.

(** A class with the lifecycle hooks only: the raw copy runs between
    them. *)
Example lifecycle_trace :
  log (fst (fst (operator_shl 8 8 Plain (new_Serialiser 4096 zeroed)
                              (u32 7, tt))))
  = [EvHook "Plain" OnBeforeSerialise; EvAsMemory 4;
     EvHook "Plain" OnAfterSerialise].
Proof. vm_compute. reflexivity. Qed.


(** C1: the amended statement at the scenario. *)
Lemma size_exactness_witness :
  size_hook_matches Scenario = true
  /\ operator_size_t
       (fst (fst (operator_plus 8 8 Scenario (new_Sizer zeroed) scenario)))
     = GetBytesWritten 8
         (fst (fst (operator_shl 8 8 Scenario (new_Serialiser 4096 zeroed)
                                 scenario))).
Proof.
  split; [reflexivity|].
  apply (size_exactness 8 8 Scenario scenario 4096 zeroed zeroed).
  reflexivity.
Defined.

(** C1 as stated fails: a class that declares [OnSerialise] but not [OnSize]
    measures [sizeof( T ) = 32] bytes and writes [8 + 3]. *)
Lemma size_exactness_counterexample :
  operator_size_t
    (fst (fst (operator_plus 8 8 Unsized (new_Sizer zeroed) abc)))
  <> GetBytesWritten 8
       (fst (fst (operator_shl 8 8 Unsized (new_Serialiser 4096 zeroed)
                               abc))).
Proof. vm_compute. discriminate. Qed.

(** C2: the amended statement at the scenario. *)
Lemma round_trip_witness :
  count_widths_agree 8 8 Scenario = true
  /\ well_formed 8 less_unsigned equal_unsigned Scenario scenario = true
  /\ streams_whole_state Scenario scenario = true
  /\ (let s := fst (fst (operator_shl 8 8 Scenario
                                      (new_Serialiser 4096 zeroed)
                                      scenario)) in
      let r := operator_shr 8 less_unsigned equal_unsigned Scenario
                            (new_Deserialiser 4096 (mem s))
                            (default_value Scenario) in
      snd (fst r) = scenario /\ snd r = Normal
      /\ m_Head (ctx (fst (fst r))) = m_Head (ctx s)).
Proof.
  split; [reflexivity|]. split; [reflexivity|]. split; [reflexivity|].
  apply (round_trip 8 8 less_unsigned equal_unsigned Scenario scenario 4096
                    zeroed); reflexivity.
Defined.

(** C2 as stated fails: a class that declares [OnSerialise] but not
    [OnDeserialise] is written through its hook and read by a raw copy of
    [sizeof( T )] bytes; its text does not come back. *)
Lemma round_trip_counterexample :
  snd (fst (operator_shr 8 less_unsigned equal_unsigned WriteOnly
              (new_Deserialiser 4096
                 (mem (fst (fst (operator_shl 8 8 WriteOnly
                                   (new_Serialiser 4096 zeroed) abc)))))
              (default_value WriteOnly)))
  <> abc.
Proof. vm_compute. discriminate. Qed.

(** C3: a [std::array< std::uint8_t, 2 >] read from a buffer that holds the
    count 3 and three elements takes the first two and stops 10 bytes on,
    one element short of the end of the stored data. *)
Lemma fixed_size_read_witness :
  length ([u8 0; u8 0] : Val (TFixed std_array 2 uint8)) = 2
  /\ operator_shr 8 less_unsigned equal_unsigned (TFixed std_array 2 uint8)
       (new_Deserialiser 4096 (buffer stored_789)) [u8 0; u8 0]
     = (let '(d', slots, o) :=
          for_each (operator_shr 8 less_unsigned equal_unsigned uint8)
            (fst (DeserialiseAsMemory 8
                    (new_Deserialiser 4096 (buffer stored_789))))
            (firstn 2 [u8 0; u8 0]) in
        (d', slots ++ skipn 2 [u8 0; u8 0], o))
  /\ m_Head (ctx (fst (fst (operator_shr 8 less_unsigned equal_unsigned
                              (TFixed std_array 2 uint8)
                              (new_Deserialiser 4096 (buffer stored_789))
                              [u8 0; u8 0]))))
     = 4106%N.
Proof.
  split; [reflexivity|].
  destruct (fixed_size_read 8 less_unsigned equal_unsigned std_array 2 uint8
              (new_Deserialiser 4096 (buffer stored_789)) [u8 0; u8 0]
              eq_refl) as [E H].
  split; [exact E|].
  exact (H 1 eq_refl).
Defined.

Example fixed_size_read_result :
  snd (fst (operator_shr 8 less_unsigned equal_unsigned
              (TFixed std_array 2 uint8)
              (new_Deserialiser 4096 (buffer stored_789)) [u8 0; u8 0]))
  = [u8 7; u8 8].
Proof. vm_compute. reflexivity. Qed.

(** C5 as stated fails: measuring a priority queue with an element functor
    that throws at its second element leaves the measured queue empty. *)
Lemma measure_frame_counterexample :
  snd (fst (AddSizeOfContainer_priority_queue 8 (throws_at 3)
              (new_Sizer zeroed) [5; 3; 1]%N))
  <> [5; 3; 1]%N.
Proof. vm_compute. discriminate. Qed.

(** C5: the amended statement at a priority queue of three integers. *)
Lemma measure_frame_witness :
  tally_in_range 8 (new_Sizer zeroed)
  /\ snd (fst (operator_plus 8 8 (TSeq std_priority_queue uint32)
                 (new_Sizer zeroed) [u32 5; u32 3; u32 1]))
     = [u32 5; u32 3; u32 1]
  /\ snd (fst (AddSizeOfContainer_priority_queue 8 (throws_at 3)
                 (new_Sizer zeroed) [5; 3; 1]%N))
     = [].
Proof.
  assert (H : tally_in_range 8 (new_Sizer zeroed)) by reflexivity.
  split; [exact H|].
  destruct (measure_frame 8 8) as [Hm Hq]. split.
  - exact (proj1 (Hm (TSeq std_priority_queue uint32)
                     [u32 5; u32 3; u32 1] (new_Sizer zeroed) H)).
  - apply Hq. reflexivity.
Defined.

(** C6 as stated fails: when the element functor throws at the second
    element of a priority queue being written, the call leaves by the
    exception and the queue does not hold its heap again. *)
Lemma adapter_after_traversal_counterexample :
  snd (SerialiseAsContainer_priority_queue 8 (throws_at 3)
         (new_Serialiser 4096 zeroed) [5; 3; 1]%N)
  = Thrown
  /\ snd (fst (SerialiseAsContainer_priority_queue 8 (throws_at 3)
                 (new_Serialiser 4096 zeroed) [5; 3; 1]%N))
     <> [5; 3; 1]%N.
Proof. split; [reflexivity | vm_compute; discriminate]. Qed.

(** C6: the amended statement at the same functor: a stack keeps its
    elements through the exception, a priority queue is left empty. *)
Lemma adapter_after_traversal_witness :
  element_preserving (@throws_at Serialiser 3)
  /\ snd (fst (SerialiseAsContainer_stack 8 (throws_at 3)
                 (new_Serialiser 4096 zeroed) [5; 3; 1]%N))
     = [5; 3; 1]%N
  /\ snd (fst (SerialiseAsContainer_priority_queue 8 (throws_at 3)
                 (new_Serialiser 4096 zeroed) [5; 3; 1]%N))
     = [].
Proof.
  assert (H : element_preserving (@throws_at Serialiser 3)).
  { intros s x. unfold throws_at. destruct (N.eqb x 3); reflexivity. }
  split; [exact H|].
  destruct (@adapter_after_traversal 8 N) as (Hs & _ & Ht & _). split.
  - exact (proj1 (Hs (throws_at 3) (new_Serialiser 4096 zeroed)
                     [5; 3; 1]%N H)).
  - apply Ht. reflexivity.
Defined.

(** C7: a [std::map] read from a buffer that holds the entries [1 -> 10],
    [1 -> 20], [2 -> 30] ends with [1 -> 10] and [2 -> 30]: the second
    entry is dropped, the read returns normally, none of the stored bytes is
    left unread. *)
Lemma unique_keys_read_witness :
  holds (new_Deserialiser 4096 (buffer stored_entries)) stored_entries
  /\ has_key true (@fst (Val uint32) (Val uint32)) (less_unsigned uint32)
             (equal_unsigned uint32) (fst entry_1_20) [entry_1_10]
     = true
  /\ (exists lg,
        operator_shr 8 less_unsigned equal_unsigned
          (TMap std_map uint32 uint32)
          (new_Deserialiser 4096 (buffer stored_entries)) []
        = (consumed (new_Deserialiser 4096 (buffer stored_entries))
                    (length stored_entries) lg,
           [entry_1_10; entry_2_30], Normal)).
Proof.
  assert (H : holds (new_Deserialiser 4096 (buffer stored_entries))
                    stored_entries) by reflexivity.
  split; [exact H|]. split; [reflexivity|].
  exact (proj1 (proj1 (unique_keys_read 8 8 less_unsigned equal_unsigned)
                  std_map uint32 uint32 [entry_1_10] [entry_2_30] []
                  entry_1_20 (new_Deserialiser 4096 (buffer stored_entries))
                  eq_refl eq_refl eq_refl eq_refl eq_refl eq_refl H)).
Defined.

(** C9 as stated fails for the Sizer: on a build with 8-byte [size_t], a
    tally of [2^64 - 1] asked to count 2 more bytes drops to 1. *)
Lemma forward_only_counterexample :
  (operator_size_t
     (fold_left (Sizer_after 8 8)
        [call_AddSizeOfMemory 18446744073709551615; call_AddSizeOfMemory 2]
        (new_Sizer zeroed))
   < operator_size_t
       (fold_left (Sizer_after 8 8)
          [call_AddSizeOfMemory 18446744073709551615] (new_Sizer zeroed)))%N.
Proof. vm_compute. reflexivity. Qed.

(** C9: the amended statement for a Sizer that measures the scenario and
    then counts 5 more bytes. *)
Lemma forward_only_witness :
  tally_in_range 8 (new_Sizer zeroed)
  /\ (operator_size_t (new_Sizer zeroed)
      + sum_N (asked 8 8)
              [call_plus Scenario scenario; call_AddSizeOfMemory 5]
      < size_t_max 8)%N
  /\ operator_size_t
       (fold_left (Sizer_after 8 8)
          [call_plus Scenario scenario; call_AddSizeOfMemory 5]
          (new_Sizer zeroed))
     = (operator_size_t (new_Sizer zeroed)
        + sum_N (asked 8 8)
                [call_plus Scenario scenario; call_AddSizeOfMemory 5])%N.
Proof.
  assert (H : tally_in_range 8 (new_Sizer zeroed)) by reflexivity.
  assert (Hfit : (operator_size_t (new_Sizer zeroed)
                  + sum_N (asked 8 8)
                          [call_plus Scenario scenario;
                           call_AddSizeOfMemory 5]
                  < size_t_max 8)%N) by reflexivity.
  split; [exact H|]. split; [exact Hfit|].
  exact (proj1 (proj2 (proj2 (forward_only 8 8 less_unsigned equal_unsigned))
                  [call_plus Scenario scenario; call_AddSizeOfMemory 5]
                  (new_Sizer zeroed) H Hfit)).
Defined.

(** C10: a list and a forward list that hold the element 9, read from a
    buffer that holds the elements 1 and 2, end as [9; 1; 2] and as
    [1; 2; 9]. *)
Lemma list_destination_kept_witness :
  holds (new_Deserialiser 4096 (buffer stored_12)) stored_12
  /\ (exists lg,
        operator_shr 8 less_unsigned equal_unsigned (TSeq std_list uint8)
          (new_Deserialiser 4096 (buffer stored_12)) [u8 9]
        = (consumed (new_Deserialiser 4096 (buffer stored_12))
                    (length stored_12) lg,
           [u8 9; u8 1; u8 2], Normal))
  /\ (exists lg,
        operator_shr 8 less_unsigned equal_unsigned
          (TSeq std_forward_list uint8)
          (new_Deserialiser 4096 (buffer stored_12)) [u8 9]
        = (consumed (new_Deserialiser 4096 (buffer stored_12))
                    (length stored_12) lg,
           [u8 1; u8 2; u8 9], Normal)).
Proof.
  assert (H : holds (new_Deserialiser 4096 (buffer stored_12)) stored_12)
    by reflexivity.
  split; [exact H|].
  exact (list_destination_kept 8 8 less_unsigned equal_unsigned uint8
           [u8 1; u8 2] [u8 9] (new_Deserialiser 4096 (buffer stored_12))
           eq_refl eq_refl eq_refl eq_refl H).
Defined.

(** C8: on a build with 8-byte [size_t] and [ptrdiff_t], a forward list of
    two [std::uint8_t] is written as the 8 bytes of the count 2 and the two
    elements, byte for byte what a list of the same elements is written
    as. *)
Lemma count_header_witness :
  (container_size [u8 1; u8 2] < size_t_max 8)%N
  /\ bytes_written (new_Serialiser 4096 zeroed)
       (fst (fst (operator_shl 8 8 (TSeq std_forward_list uint8)
                    (new_Serialiser 4096 zeroed) [u8 1; u8 2])))
     = le_bytes 8 2 ++ u8 1 ++ u8 2
  /\ bytes_written (new_Serialiser 4096 zeroed)
       (fst (fst (operator_shl 8 8 (TSeq std_list uint8)
                    (new_Serialiser 4096 zeroed) [u8 1; u8 2])))
     = le_bytes 8 2 ++ u8 1 ++ u8 2.
Proof.
  assert (Hfit : (container_size [u8 1; u8 2] < size_t_max 8)%N)
    by reflexivity.
  split; [exact Hfit|].
  destruct (count_header 8 8 (new_Serialiser 4096 zeroed) eq_refl)
    as (Hseq & _).
  split.
  - exact (Hseq std_forward_list uint8 [u8 1; u8 2] Hfit).
  - exact (Hseq std_list uint8 [u8 1; u8 2] Hfit).
Defined.

(** ** Further properties at sample inputs *)

(** X1: the write of the scenario at address 4096 leaves the byte before the
    buffer as it was. *)
Lemma write_layout_witness :
  (4095 < m_Head (ctx (new_Serialiser 4096 zeroed)))%N
  /\ mem (fst (fst (operator_shl 8 8 Scenario (new_Serialiser 4096 zeroed)
                      scenario))) 4095%N
     = zeroed 4095%N.
Proof.
  assert (H : (4095 < m_Head (ctx (new_Serialiser 4096 zeroed)))%N)
    by reflexivity.
  split; [exact H|].
  destruct (write_layout 8 8 Scenario (new_Serialiser 4096 zeroed) scenario)
    as (_ & _ & _ & _ & _ & Hout).
  apply Hout. left. exact H.
Defined.

(** X2: an integer written with [operator<<] and two bytes written with
    [SerialiseAsMemory] lie one after the other. *)
Lemma writes_concatenate_witness :
  (4102 <= m_Head (ctx (fold_left (Serialiser_after 8 8)
                          [call_shl uint32 (u32 7);
                           call_SerialiseAsMemory (u8 1 ++ u8 2)]
                          (new_Serialiser 4096 zeroed))))%N
  /\ memcpy_from
       (mem (fold_left (Serialiser_after 8 8)
               [call_shl uint32 (u32 7);
                call_SerialiseAsMemory (u8 1 ++ u8 2)]
               (new_Serialiser 4096 zeroed)))
       4096 6
     = u32 7 ++ u8 1 ++ u8 2
  /\ mem (fold_left (Serialiser_after 8 8)
            [call_shl uint32 (u32 7);
             call_SerialiseAsMemory (u8 1 ++ u8 2)]
            (new_Serialiser 4096 zeroed)) 4102%N
     = zeroed 4102%N.
Proof.
  destruct (writes_concatenate 8 8
              [call_shl uint32 (u32 7);
               call_SerialiseAsMemory (u8 1 ++ u8 2)]
              (new_Serialiser 4096 zeroed)) as (Hh & Hin & Hout).
  assert (H : (4102 <= m_Head (ctx (fold_left (Serialiser_after 8 8)
                                      [call_shl uint32 (u32 7);
                                       call_SerialiseAsMemory
                                         (u8 1 ++ u8 2)]
                                      (new_Serialiser 4096 zeroed))))%N).
  { rewrite Hh. discriminate. }
  split; [exact H|]. split; [exact Hin|].
  apply Hout. right. exact H.
Defined.

(** X3: the scenario measures 35 bytes; written at address 4096 it ends at
    4131 and leaves the byte there as it was. *)
Lemma measured_buffer_suffices_witness :
  size_hook_matches Scenario = true
  /\ (measure 8 8 Scenario scenario < size_t_max 8)%N
  /\ m_Head (ctx (fst (fst (operator_shl 8 8 Scenario
                              (new_Serialiser 4096 zeroed) scenario))))
     = 4131%N
  /\ mem (fst (fst (operator_shl 8 8 Scenario (new_Serialiser 4096 zeroed)
                      scenario))) 4131%N
     = zeroed 4131%N.
Proof.
  assert (Hh : size_hook_matches Scenario = true) by reflexivity.
  assert (Hfit : (measure 8 8 Scenario scenario < size_t_max 8)%N)
    by reflexivity.
  split; [exact Hh|]. split; [exact Hfit|].
  destruct (measured_buffer_suffices 8 8 Scenario scenario 4096 zeroed
              zeroed Hh Hfit) as [Hend Hout].
  split; [exact Hend|].
  apply Hout. right. discriminate.
Defined.

(** X4: a fresh Sizer asked for [2^64 - 1] bytes and for 2 bytes, in either
    order, ends at 1. *)
Lemma tally_is_modular_sum_witness :
  tally_in_range 8 (new_Sizer zeroed)
  /\ operator_size_t
       (fold_left (Sizer_after 8 8)
          [call_AddSizeOfMemory 18446744073709551615;
           call_AddSizeOfMemory 2] (new_Sizer zeroed))
     = 1%N
  /\ operator_size_t
       (fold_left (Sizer_after 8 8)
          [call_AddSizeOfMemory 18446744073709551615;
           call_AddSizeOfMemory 2] (new_Sizer zeroed))
     = operator_size_t
         (fold_left (Sizer_after 8 8)
            [call_AddSizeOfMemory 2;
             call_AddSizeOfMemory 18446744073709551615]
            (new_Sizer zeroed)).
Proof.
  assert (H : tally_in_range 8 (new_Sizer zeroed)) by reflexivity.
  split; [exact H|].
  destruct (tally_is_modular_sum 8 8 (new_Sizer zeroed) H) as [Hsum Hperm].
  split.
  - exact (Hsum [call_AddSizeOfMemory 18446744073709551615;
                 call_AddSizeOfMemory 2]).
  - apply Hperm. apply perm_swap.
Defined.

(** X5: a vector that holds three elements, read from a buffer that holds two,
    ends with those two. *)
Lemma read_replaces_witness :
  overwritten (TSeq std_vector uint8) = true
  /\ holds (new_Deserialiser 4096 (buffer stored_12)) stored_12
  /\ exists lg,
       operator_shr 8 less_unsigned equal_unsigned (TSeq std_vector uint8)
         (new_Deserialiser 4096 (buffer stored_12)) [u8 9; u8 9; u8 9]
       = (consumed (new_Deserialiser 4096 (buffer stored_12))
                   (length stored_12) lg,
          [u8 1; u8 2], Normal).
Proof.
  assert (H : holds (new_Deserialiser 4096 (buffer stored_12)) stored_12)
    by reflexivity.
  split; [reflexivity|]. split; [exact H|].
  exact (read_replaces 8 8 less_unsigned equal_unsigned
           (TSeq std_vector uint8) [u8 1; u8 2] [u8 9; u8 9; u8 9]
           (new_Deserialiser 4096 (buffer stored_12))
           eq_refl eq_refl eq_refl eq_refl eq_refl H).
Defined.

(** X6: an array of two elements read into an array of three: the first two
    slots are assigned, the third keeps its value. *)
Lemma fixed_size_mismatch_witness :
  well_formed 8 less_unsigned equal_unsigned (TFixed std_array 2 uint8)
    [u8 1; u8 2] = true
  /\ well_formed 8 less_unsigned equal_unsigned (TFixed c_array 3 uint8)
       [u8 9; u8 9; u8 9] = true
  /\ holds (new_Deserialiser 4096 (buffer stored_12)) stored_12
  /\ exists lg,
       operator_shr 8 less_unsigned equal_unsigned (TFixed c_array 3 uint8)
         (new_Deserialiser 4096 (buffer stored_12)) [u8 9; u8 9; u8 9]
       = (consumed (new_Deserialiser 4096 (buffer stored_12)) 10 lg,
          [u8 1; u8 2; u8 9], Normal).
Proof.
  assert (H : holds (new_Deserialiser 4096 (buffer stored_12)) stored_12)
    by reflexivity.
  split; [reflexivity|]. split; [reflexivity|]. split; [exact H|].
  exact (fixed_size_mismatch 8 8 less_unsigned equal_unsigned
           std_array c_array 2 3 uint8 [u8 1; u8 2] [u8 9; u8 9; u8 9]
           (new_Deserialiser 4096 (buffer stored_12))
           eq_refl eq_refl eq_refl eq_refl eq_refl H).
Defined.

(** X8: a [std::multimap] read from a buffer that holds the entries [1 -> 10],
    [1 -> 20], [2 -> 30] ends with all three. *)
Lemma multi_keys_read_witness :
  unique_keys_map std_multimap = false
  /\ holds (new_Deserialiser 4096 (buffer stored_entries)) stored_entries
  /\ exists lg r,
       operator_shr 8 less_unsigned equal_unsigned
         (TMap std_multimap uint32 uint32)
         (new_Deserialiser 4096 (buffer stored_entries)) []
       = (consumed (new_Deserialiser 4096 (buffer stored_entries))
                   (length stored_entries) lg,
          r, Normal)
       /\ Permutation r [entry_1_10; entry_1_20; entry_2_30].
Proof.
  assert (H : holds (new_Deserialiser 4096 (buffer stored_entries))
                    stored_entries) by reflexivity.
  split; [reflexivity|]. split; [exact H|].
  exact (proj1 (multi_keys_read 8 8 less_unsigned equal_unsigned)
           std_multimap uint32 uint32 [entry_1_10; entry_1_20; entry_2_30]
           [] (new_Deserialiser 4096 (buffer stored_entries))
           eq_refl eq_refl eq_refl eq_refl eq_refl eq_refl H).
Defined.

(** X9: what a [std::list] wrote is read as a [std::vector]. *)
Lemma containers_interchange_witness :
  well_formed 8 less_unsigned equal_unsigned (TSeq std_list uint8)
    [u8 1; u8 2] = true
  /\ exists lg,
       operator_shr 8 less_unsigned equal_unsigned (TSeq std_vector uint8)
         (new_Deserialiser 4096
            (mem (fst (fst (operator_shl 8 8 (TSeq std_list uint8)
                              (new_Serialiser 4096 zeroed)
                              [u8 1; u8 2])))))
         []
       = (consumed
            (new_Deserialiser 4096
               (mem (fst (fst (operator_shl 8 8 (TSeq std_list uint8)
                                 (new_Serialiser 4096 zeroed)
                                 [u8 1; u8 2])))))
            10 lg,
          [u8 1; u8 2], Normal).
Proof.
  split; [reflexivity|].
  exact (proj1 (containers_interchange 8 8 less_unsigned equal_unsigned
                  std_vector (new_Serialiser 4096 zeroed)
                  (new_Deserialiser 4096
                     (mem (fst (fst (operator_shl 8 8 (TSeq std_list uint8)
                                       (new_Serialiser 4096 zeroed)
                                       [u8 1; u8 2])))))
                  eq_refl)
           std_list uint8 [u8 1; u8 2] eq_refl eq_refl eq_refl eq_refl).
Defined.

(** X10: the scenario written after an integer and before another one is read
    back by a Deserialiser placed 4 bytes into the buffer. *)
Lemma round_trip_mid_stream_witness :
  well_formed 8 less_unsigned equal_unsigned Scenario scenario = true
  /\ streams_whole_state Scenario scenario = true
  /\ exists lg,
       operator_shr 8 less_unsigned equal_unsigned Scenario
         (mkSt (mkStream 4096 4100)
               (mem (fold_left (Serialiser_after 8 8)
                       [call_shl uint32 (u32 7); call_shl Scenario scenario;
                        call_shl uint32 (u32 8)]
                       (new_Serialiser 4096 zeroed)))
               [])
         (default_value Scenario)
       = (consumed
            (mkSt (mkStream 4096 4100)
                  (mem (fold_left (Serialiser_after 8 8)
                          [call_shl uint32 (u32 7);
                           call_shl Scenario scenario;
                           call_shl uint32 (u32 8)]
                          (new_Serialiser 4096 zeroed)))
                  [])
            35 lg,
          scenario, Normal).
Proof.
  split; [reflexivity|]. split; [reflexivity|].
  destruct (round_trip_mid_stream 8 8 less_unsigned equal_unsigned
              Scenario scenario
              (Serialiser_after 8 8 (new_Serialiser 4096 zeroed)
                 (call_shl uint32 (u32 7)))
              [call_shl uint32 (u32 8)]
              (mkSt (mkStream 4096 4100)
                    (mem (fold_left (Serialiser_after 8 8)
                            [call_shl uint32 (u32 7);
                             call_shl Scenario scenario;
                             call_shl uint32 (u32 8)]
                            (new_Serialiser 4096 zeroed)))
                    [])
              eq_refl eq_refl eq_refl eq_refl eq_refl) as [lg [E _]].
  exists lg. exact E.
Defined.

(** X11: the scenario written twice from the same head. *)
Lemma write_injective_witness :
  well_formed 8 less_unsigned equal_unsigned Scenario scenario = true
  /\ streams_whole_state Scenario scenario = true
  /\ scenario = scenario.
Proof.
  split; [reflexivity|]. split; [reflexivity|].
  exact (write_injective 8 8 less_unsigned equal_unsigned Scenario
           scenario scenario (new_Serialiser 4096 zeroed)
           (new_Serialiser 4096 zeroed)
           eq_refl eq_refl eq_refl eq_refl eq_refl eq_refl
           (fun x => eq_refl)).
Defined.
